(** * within24hours: the news-reel pipeline of [index_multi.js]

    A shallow embedding of the script that turns a daily news digest into
    per-language video reels, and the properties of its components.

    JavaScript strings are sequences of UTF-16 code units; the external
    collaborators (generative backend, HTTP, the scraped page, image
    resizing, ffprobe, ffmpeg, the file system) are a record of oracles that
    may depend on everything that happened before; asynchronous functions
    are computations in a state-and-exception monad whose state is the set
    of files on disk together with the trace of external calls. *)

From Stdlib Require Import NArith ZArith QArith Qround String Ascii DecimalString DecimalN.
From stdpp Require Import base list sorting gmap.
Close Scope Q_scope.
Set Warnings "-register-all".

(** ** JavaScript strings *)

Abbreviation jsstring := (list N).

Module JS.

Definition js (s : string) : jsstring := N_of_ascii <$> list_ascii_of_string s.
Arguments js s%_string : simpl never.

(** [String(n)] for a non-negative integer below 1e21 (decimal digits). *)
Definition String_of_N (n : N) : jsstring := js (NilZero.string_of_uint (N.to_uint n)).

(** ECMAScript WhiteSpace and LineTerminator code points, as stripped by
    [String.prototype.trim]. *)
Definition isWhiteSpace (c : N) : bool :=
  ((9 <=? c) && (c <=? 13) || (c =? 32) || (c =? 160) || (c =? 5760)
   || (8192 <=? c) && (c <=? 8202) || (c =? 8232) || (c =? 8233)
   || (c =? 8239) || (c =? 8287) || (c =? 12288) || (c =? 65279))%N.

Fixpoint drop_while {A} (p : A -> bool) (l : list A) : list A :=
  match l with
  | [] => []
  | x :: l' => if p x then drop_while p l' else l
  end.

Definition trimStart (s : jsstring) : jsstring := drop_while isWhiteSpace s.
Definition trimEnd (s : jsstring) : jsstring := reverse (drop_while isWhiteSpace (reverse s)).
Definition trim (s : jsstring) : jsstring := trimEnd (trimStart s).

(** Case folding of the Basic Latin letters. A regular expression with the
    [i] flag and no [u] flag never identifies a code unit of 128 or more
    with a Basic Latin one, so this is exact for the patterns of the
    script, which are all Basic Latin. *)
Definition toASCIIUpper (c : N) : N := if ((97 <=? c) && (c <=? 122))%N then (c - 32)%N else c.

(** [toLowerCase] on the Basic Latin and Latin-1 blocks. No code unit
    beyond U+00FF lower-cases to a letter of a Basic Latin pattern other
    than k and i, so searches for such patterns are unaffected by the rest
    of the Unicode mapping. *)
Definition toLowerCase_unit (c : N) : N :=
  if ((65 <=? c) && (c <=? 90) || (192 <=? c) && (c <=? 222) && negb (c =? 215))%N
  then (c + 32)%N else c.
Definition toLowerCase (s : jsstring) : jsstring := toLowerCase_unit <$> s.

Fixpoint startsWith (s pat : jsstring) {struct pat} : bool :=
  match pat, s with
  | [], _ => true
  | p :: pat', c :: s' => (c =? p)%N && startsWith s' pat'
  | _ :: _, [] => false
  end.

(** A match of a literal Basic Latin pattern at the start of [s] under the
    [i] flag. *)
Fixpoint startsWith_i (s pat : jsstring) {struct pat} : bool :=
  match pat, s with
  | [], _ => true
  | p :: pat', c :: s' => (toASCIIUpper c =? toASCIIUpper p)%N && startsWith_i s' pat'
  | _ :: _, [] => false
  end.

Definition endsWith (s pat : jsstring) : bool := startsWith (reverse s) (reverse pat).

Fixpoint indexOf_from (s pat : jsstring) (i : Z) : Z :=
  if startsWith s pat then i
  else match s with
       | [] => (-1)%Z
       | _ :: s' => indexOf_from s' pat (i + 1)%Z
       end.

(** [s.indexOf(pat)]: the least position at which [pat] occurs, or -1. *)
Definition indexOf (s pat : jsstring) : Z := indexOf_from s pat 0.

Fixpoint lastIndexOf_from (s pat : jsstring) (i found : Z) : Z :=
  let found' := if startsWith s pat then i else found in
  match s with
  | [] => found'
  | _ :: s' => lastIndexOf_from s' pat (i + 1)%Z found'
  end.

(** [s.lastIndexOf(pat)]: the greatest position at which [pat] occurs, or -1. *)
Definition lastIndexOf (s pat : jsstring) : Z := lastIndexOf_from s pat 0 (-1).

Definition includes (s pat : jsstring) : bool := negb (indexOf s pat =? -1)%Z.

(** [s.substring(a, b)]: both indices are clamped to [0, length] and
    swapped when [a > b]. *)
Definition substring (s : jsstring) (a b : Z) : jsstring :=
  let len := Z.of_nat (length s) in
  let a' := Z.max 0 (Z.min a len) in
  let b' := Z.max 0 (Z.min b len) in
  let from := Z.min a' b' in
  let to := Z.max a' b' in
  take (Z.to_nat (to - from)) (drop (Z.to_nat from) s).

(** [s.slice(0, n)] for [n >= 0]. *)
Definition slice0 (s : jsstring) (n : nat) : jsstring := take n s.

(** [s.split(sep)] for a separator of one code unit. *)
Fixpoint split_unit (sep : N) (s : jsstring) : list jsstring :=
  match s with
  | [] => [[]]
  | c :: s' =>
      if (c =? sep)%N then [] :: split_unit sep s'
      else match split_unit sep s' with
           | [] => [[c]]
           | w :: ws => (c :: w) :: ws
           end
  end.

(** [parts.join(sep)]. *)
Fixpoint join (sep : jsstring) (parts : list jsstring) : jsstring :=
  match parts with
  | [] => []
  | [p] => p
  | p :: ps => p ++ sep ++ join sep ps
  end.

(** [s.replace(/^pat/i, "")], [s.replace(/^pat/, "")] and
    [s.replace(/pat$/, "")] for a literal pattern. *)
Definition removePrefix_i (pat s : jsstring) : jsstring :=
  if startsWith_i s pat then drop (length pat) s else s.
Definition removePrefix (pat s : jsstring) : jsstring :=
  if startsWith s pat then drop (length pat) s else s.
Definition removeSuffix (pat s : jsstring) : jsstring :=
  if endsWith s pat then take (length s - length pat) s else s.

(** *** encodeURIComponent *)

Definition hexDigit (d : N) : N := if (d <? 10)%N then (48 + d)%N else (55 + d)%N.
Definition percent (octet : N) : jsstring := [37; hexDigit (octet / 16); hexDigit (octet mod 16)]%N.

Definition utf8 (cp : N) : list N :=
  if (cp <? 128)%N then [cp]
  else if (cp <? 2048)%N then [192 + cp / 64; 128 + cp mod 64]%N
  else if (cp <? 65536)%N then
    [224 + cp / 4096; 128 + (cp / 64) mod 64; 128 + cp mod 64]%N
  else [240 + cp / 262144; 128 + (cp / 4096) mod 64;
        128 + (cp / 64) mod 64; 128 + cp mod 64]%N.

(** A-Z a-z 0-9 and - _ . ! ~ * ' ( ) *)
Definition uriUnreserved (c : N) : bool :=
  ((65 <=? c) && (c <=? 90) || (97 <=? c) && (c <=? 122) || (48 <=? c) && (c <=? 57)
   || (c =? 45) || (c =? 95) || (c =? 46) || (c =? 33) || (c =? 126)
   || (c =? 42) || (c =? 39) || (c =? 40) || (c =? 41))%N.

Definition isHighSurrogate (c : N) : bool := ((55296 <=? c) && (c <=? 56319))%N.
Definition isLowSurrogate (c : N) : bool := ((56320 <=? c) && (c <=? 57343))%N.

(** [encodeURIComponent(s)]; [None] is the URIError raised on a lone
    surrogate. *)
Fixpoint encodeURIComponent (s : jsstring) : option jsstring :=
  match s with
  | [] => Some []
  | c :: rest =>
      if uriUnreserved c then (c ::.) <$> encodeURIComponent rest
      else if isLowSurrogate c then None
      else if isHighSurrogate c then
        match rest with
        | d :: rest' =>
            if isLowSurrogate d then
              let cp := (65536 + (c - 55296) * 1024 + (d - 56320))%N in
              (app (concat (percent <$> utf8 cp))) <$> encodeURIComponent rest'
            else None
        | [] => None
        end
      else (app (concat (percent <$> utf8 c))) <$> encodeURIComponent rest
  end.

End JS.
Import JS.

(** ** UTILS *)

Definition backticks : jsstring := js "```".

(** [cleanGeminiJSON(text)], for a string argument. *)
Definition cleanGeminiJSON (text : jsstring) : jsstring :=
  match text with
  | [] => js "{}"
  | _ =>
      let cleaned := trim text in
      let cleaned := removePrefix backticks (removePrefix_i (js "```json") cleaned) in
      let cleaned := removeSuffix backticks cleaned in
      let firstCurly := indexOf cleaned (js "{") in
      let lastCurly := lastIndexOf cleaned (js "}") in
      let cleaned :=
        if negb (firstCurly =? -1)%Z && negb (lastCurly =? -1)%Z
        then substring cleaned firstCurly (lastCurly + 1)%Z
        else cleaned in
      trim cleaned
  end.

(** ** JSON values and [JSON.parse] *)

Module JSON.

(** A number keeps the text of its literal: no property below depends on
    its conversion to a double. An object keeps its members in source
    order, duplicates included. *)
Inductive value :=
| Null
| Bool (b : bool)
| Number (literal : jsstring)
| Str (s : jsstring)
| Array (elements : list value)
| Object (members : list (jsstring * value)).

Definition isJSONSpace (c : N) : bool := ((c =? 9) || (c =? 10) || (c =? 13) || (c =? 32))%N.
Definition isDigit (c : N) : bool := ((48 <=? c) && (c <=? 57))%N.
Definition skip (s : jsstring) : jsstring := drop_while isJSONSpace s.

Fixpoint take_while {A} (p : A -> bool) (l : list A) : list A :=
  match l with
  | [] => []
  | x :: l' => if p x then x :: take_while p l' else []
  end.

Definition hexValue (c : N) : option N :=
  if isDigit c then Some (c - 48)%N
  else if ((65 <=? c) && (c <=? 70))%N then Some (c - 55)%N
  else if ((97 <=? c) && (c <=? 102))%N then Some (c - 87)%N
  else None.

(** The code unit denoted by a one-letter escape. *)
Definition unescape (c : N) : option N :=
  if (c =? 34)%N then Some 34%N          (* quotation mark *)
  else if (c =? 92)%N then Some 92%N     (* reverse solidus *)
  else if (c =? 47)%N then Some 47%N     (* solidus *)
  else if (c =? 98)%N then Some 8%N      (* b: backspace *)
  else if (c =? 102)%N then Some 12%N    (* f: form feed *)
  else if (c =? 110)%N then Some 10%N    (* n: line feed *)
  else if (c =? 114)%N then Some 13%N    (* r: carriage return *)
  else if (c =? 116)%N then Some 9%N     (* t: tab *)
  else None.

Definition push (c : N) (r : option (jsstring * jsstring)) : option (jsstring * jsstring) :=
  '(str, rest) ← r; Some (c :: str, rest).

(** The characters of a string literal after its opening quote, up to and
    including the closing quote. *)
Fixpoint parse_string (s : jsstring) : option (jsstring * jsstring) :=
  match s with
  | [] => None
  | c :: r =>
      if (c =? 34)%N then Some ([], r)
      else if (c =? 92)%N then
        match r with
        | e :: r' =>
            if (e =? 117)%N then
              match r' with
              | h1 :: h2 :: h3 :: h4 :: r'' =>
                  match hexValue h1, hexValue h2, hexValue h3, hexValue h4 with
                  | Some a, Some b, Some c', Some d =>
                      push (((a * 16 + b) * 16 + c') * 16 + d)%N (parse_string r'')
                  | _, _, _, _ => None
                  end
              | _ => None
              end
            else match unescape e with
                 | Some u => push u (parse_string r')
                 | None => None
                 end
        | [] => None
        end
      else if (c <? 32)%N then None
      else push c (parse_string r)
  end.

(** A number literal: an optional minus sign, an integer part without a
    leading zero (unless it is 0), an optional fraction of at least one
    digit, an optional exponent of at least one digit. *)
Definition parse_number (s : jsstring) : option (jsstring * jsstring) :=
  let '(sign, s1) := match s with
                     | c :: r => if (c =? 45)%N then ([c], r) else ([], s)
                     | [] => ([], s)
                     end in
  let int := take_while isDigit s1 in
  let s2 := drop_while isDigit s1 in
  match int with
  | [] => None
  | d :: ds =>
      if (d =? 48)%N && negb (bool_decide (ds = [])) then None
      else
        '(frac, s3) ← match s2 with
                       | c :: r =>
                           if (c =? 46)%N then
                             match take_while isDigit r with
                             | [] => None
                             | f => Some (c :: f, drop_while isDigit r)
                             end
                           else Some ([], s2)
                       | [] => Some ([], s2)
                       end;
        '(exp, s4) ← match s3 with
                      | c :: r =>
                          if ((c =? 101) || (c =? 69))%N then
                            let '(esign, r1) :=
                              match r with
                              | x :: r0 => if ((x =? 43) || (x =? 45))%N then ([x], r0) else ([], r)
                              | [] => ([], r)
                              end in
                            match take_while isDigit r1 with
                            | [] => None
                            | ds' => Some (c :: esign ++ ds', drop_while isDigit r1)
                            end
                          else Some ([], s3)
                      | [] => Some ([], s3)
                      end;
        Some (sign ++ int ++ frac ++ exp, s4)
  end.

Section Composite.
Variable parse_value : jsstring -> option (value * jsstring).

(** The elements of an array after the first, read up to the closing
    bracket; [n] bounds their number. *)
Fixpoint parse_elements (n : nat) (s : jsstring) : option (list value * jsstring) :=
  match n with
  | O => None
  | S n' =>
      '(v, r) ← parse_value s;
      match skip r with
      | c :: r' =>
          if (c =? 44)%N then '(vs, r'') ← parse_elements n' r'; Some (v :: vs, r'')
          else if (c =? 93)%N then Some ([v], r')
          else None
      | [] => None
      end
  end.

Fixpoint parse_members (n : nat) (s : jsstring) : option (list (jsstring * value) * jsstring) :=
  match n with
  | O => None
  | S n' =>
      match skip s with
      | q :: r0 =>
          if (q =? 34)%N then
            '(key, r1) ← parse_string r0;
            match skip r1 with
            | colon :: r2 =>
                if (colon =? 58)%N then
                  '(v, r3) ← parse_value r2;
                  match skip r3 with
                  | c :: r4 =>
                      if (c =? 44)%N then
                        '(ms, r5) ← parse_members n' r4; Some ((key, v) :: ms, r5)
                      else if (c =? 125)%N then Some ([(key, v)], r4)
                      else None
                  | [] => None
                  end
                else None
            | [] => None
            end
          else None
      | [] => None
      end
  end.
End Composite.

(** One JSON value at the start of [s]; every nested value starts after at
    least one more character, so [S (length s)] levels suffice. *)
Fixpoint parse_value (depth : nat) (s : jsstring) : option (value * jsstring) :=
  match depth with
  | O => None
  | S depth' =>
      match skip s with
      | [] => None
      | c :: r =>
          if (c =? 123)%N then
            match skip r with
            | c' :: r' =>
                if (c' =? 125)%N then Some (Object [], r')
                else '(ms, rest) ← parse_members (parse_value depth') (S (length r)) r;
                     Some (Object ms, rest)
            | [] => None
            end
          else if (c =? 91)%N then
            match skip r with
            | c' :: r' =>
                if (c' =? 93)%N then Some (Array [], r')
                else '(vs, rest) ← parse_elements (parse_value depth') (S (length r)) r;
                     Some (Array vs, rest)
            | [] => None
            end
          else if (c =? 34)%N then '(str, rest) ← parse_string r; Some (Str str, rest)
          else if startsWith (c :: r) (js "true") then Some (Bool true, drop 4 (c :: r))
          else if startsWith (c :: r) (js "false") then Some (Bool false, drop 5 (c :: r))
          else if startsWith (c :: r) (js "null") then Some (Null, drop 4 (c :: r))
          else '(lit, rest) ← parse_number (c :: r); Some (Number lit, rest)
      end
  end.

(** [JSON.parse(text)]; [None] is the SyntaxError. *)
Definition parse (text : jsstring) : option value :=
  '(v, rest) ← parse_value (S (length text)) text;
  match skip rest with
  | [] => Some v
  | _ :: _ => None
  end.

(** [v.key] for a value other than null; [None] is undefined. Of duplicate
    members the last one wins. *)
Definition get (v : value) (key : jsstring) : option value :=
  match v with
  | Object members =>
      fold_left (fun found '(k, x) => if bool_decide (k = key) then Some x else found)
                members None
  | _ => None
  end.

(** [Array.isArray(x) ? x : []] *)
Definition arrayOrEmpty (x : option value) : list value :=
  match x with
  | Some (Array elements) => elements
  | _ => []
  end.

End JSON.

(** ** The outside world *)

(** Exceptions and promise rejections. [External] is an error object
    produced by a library or by the platform (axios, sharp, ffprobe,
    ffmpeg, child_process, fs). *)
Inductive error :=
| URIError
| TypeError (message : jsstring)
| Error (message : jsstring)
| External (message : jsstring).

Inductive outcome (A : Type) :=
| Returned (a : A)
| Thrown (e : error).
Arguments Returned {A} a.
Arguments Thrown {A} e.

(** One [li.ld] element of the search page, as the selection loop of
    [fetchImage] reads it: the attributes are those of the first matched
    element, absent when [attr] returns undefined. *)
Module Entry.
Record t := {
  data : option jsstring;        (* $(el).attr("data") *)
  aria_label : option jsstring;  (* $(el).find("a.img").attr("aria-label") *)
  data_src : option jsstring;    (* $(el).find("img").attr("data-src") *)
  src : option jsstring          (* $(el).find("img").attr("src") *)
}.
End Entry.

(** What ffprobe reports. *)
Module Stream.
Record t := { codec_type : jsstring; width : option N; height : option N }.
End Stream.

(** [metadata.format.duration] as fluent-ffmpeg hands it over. ffprobe
    prints the duration in seconds, or N/A when it does not know it; the
    wrapper turns a decimal into a number (a finite double is a rational,
    so [Q] holds it exactly) and leaves anything else the string it is;
    the key may be missing. *)
Inductive reported :=
| Seconds (d : Q)
| NotAvailable          (* the string N/A *)
| Absent.               (* undefined *)

Module Metadata.
Record t := { duration : reported; streams : list Stream.t }.
End Metadata.

(** A fluent-ffmpeg command at the moment [save] starts it. *)
Inductive FilterOption :=
| Text (s : jsstring)
| Num (n : Z).

Inductive Filter :=
| Spec (filter : jsstring) (options : list (jsstring * FilterOption))
| Line (graph : jsstring).

(** What [Math.round] gives: an integer, or NaN. *)
Inductive rounded :=
| Integer (t : Z)
| NaN.

(** [Duration t] is the option [-t ${t}]. *)
Inductive OutputOption :=
| Flag (s : jsstring)
| Duration (t : rounded).

Module Command.
Record t := {
  inputs : list jsstring;
  complexFilter : list Filter;
  outputOptions : list OutputOption;
  output : jsstring
}.
End Command.

(** Console output that reports a failure, a fallback or a skipped step. *)
Inductive console :=
| NoGeminiKey
| AttemptFailed (attempt : nat) (e : error)
| AllRetriesFailed (lastError : option error)
| FailedTTS (e : error)
| NoValidImages
| ErrorFetchingImages (e : error)
| FFmpegErrorReel (e : error)
| NoNews
| SkippingItem (title : jsstring)
| ImageAlreadyExists (imgPath : jsstring)
| ImageGenerated (imgPath : jsstring)
| FailedImage (title : jsstring) (e : error)
| FailedOverlay (title : jsstring) (e : error)
| FailedReel (title : jsstring) (e : error)
| NoAudio (files : list jsstring)
| FFmpegMergeError (e : error).

(** Calls that leave the process, in the order they are made. *)
Inductive event :=
| GenerateContent (model date : jsstring)
| Get (url : jsstring) (timeout : option N)
| WriteFile (path : jsstring)
| Sharp (savePath : jsstring)
| Probe (file : jsstring)
| ExecProbe (file : jsstring)
| Run (cmd : Command.t)
| Console (m : console).

Record State := {
  files : gset jsstring;      (* the paths that exist *)
  trace : list event
}.

(** The collaborators. Each oracle receives the state at the time of the
    call, so its answer may depend on the files present and on every
    earlier call. *)
Record World := {
  GEMINI_API_KEY : option jsstring;                     (* process.env.GEMINI_API_KEY *)
  cwd : jsstring;                                       (* process.cwd() *)
  path_join : jsstring -> jsstring -> jsstring;         (* path.join of two segments *)
  (* model.generateContent(prompt) followed by res.response.text(): the
     prompt is a fixed template around the date; [Returned None] is a
     response without a text function *)
  generateContent : State -> jsstring -> jsstring -> outcome (option jsstring);
  (* axios.get: rejected on a transport error, on a timeout and on a
     status outside 2xx *)
  axios_get : State -> jsstring -> outcome jsstring;
  li_ld : jsstring -> list Entry.t;                     (* cheerio.load(data)("li.ld") *)
  sharp_toFile : State -> jsstring -> jsstring -> outcome unit;
  writeFileSync : State -> jsstring -> jsstring -> outcome unit;
  readdirSync : State -> jsstring -> outcome (list jsstring);
  ffprobe : State -> jsstring -> outcome Metadata.t;
  (* exec("ffprobe -v error -show_streams -of json ...") with its JSON
     output parsed: the streams of the file *)
  exec_ffprobe : State -> jsstring -> outcome (list Stream.t);
  ffmpeg_save : State -> Command.t -> outcome unit
}.

(** ** Asynchronous functions: state and exceptions *)

Definition M (A : Type) : Type := State -> outcome A * State.

#[global] Instance M_ret : MRet M := fun A a st => (Returned a, st).
#[global] Instance M_bind : MBind M := fun A B f m st =>
  match m st with
  | (Returned a, st') => f a st'
  | (Thrown e, st') => (Thrown e, st')
  end.

Definition throw {A} (e : error) : M A := fun st => (Thrown e, st).

(** [try { body } catch (err) { handler }] *)
Definition try_catch {A} (body : M A) (handler : error -> M A) : M A := fun st =>
  match body st with
  | (Thrown e, st') => handler e st'
  | r => r
  end.

(** The outcome of [body], caught. *)
Definition attempt {A} (body : M A) : M (outcome A) := fun st =>
  let '(r, st') := body st in (Returned r, st').

Definition record (e : event) (st : State) : State :=
  {| files := files st; trace := trace st ++ [e] |}.
Definition create (p : jsstring) (st : State) : State :=
  {| files := {[p]} ∪ files st; trace := trace st |}.

Definition emit (e : event) : M unit := fun st => (Returned tt, record e st).

(** A call to a collaborator: the oracle answers from the state before the
    call, and the call is appended to the trace. *)
Definition call {A} (e : event) (oracle : State -> outcome A) : M A := fun st =>
  (oracle st, record e st).

(** A call that, when it succeeds, leaves the file [p] on disk. *)
Definition call_creating (e : event) (p : jsstring) (oracle : State -> outcome unit) : M unit :=
  fun st =>
    match oracle st with
    | Returned tt => (Returned tt, create p (record e st))
    | Thrown err => (Thrown err, record e st)
    end.

(** A synchronous read of the world that leaves no trace. *)
Definition read {A} (oracle : State -> outcome A) : M A := fun st => (oracle st, st).

Definition existsSync (p : jsstring) : M bool :=
  read (fun st => Returned (bool_decide (p ∈ files st))).

(** Node's callback-style [fs.access(path[, mode], callback)], the one
    the default export of the fs module provides: the callback is
    mandatory, and a call without one raises a TypeError
    (ERR_INVALID_ARG_TYPE) before the file system is consulted. *)
Definition fs_access (p : jsstring) (callback : option (option error -> M unit)) : M unit :=
  match callback with
  | None => throw (TypeError (js "The cb argument must be of type function. Received undefined"))
  | Some cb =>
      found ← existsSync p;
      cb (if found : bool then None
          else Some (External (js "ENOENT: no such file or directory")))
  end.

(** ** CONFIG *)

Definition voice : jsstring := js "nova".

Definition vibe : list (jsstring * jsstring) :=
  [ (js "Voice",
     js "faster-paced, Clear, professional, and authoritative, with a confident newsroom cadence.");
    (js "Tone",
     js "Neutral yet engaging, balancing seriousness with approachability "
       ++ [8212%N] ++ js " like a trusted anchor delivering important updates.");
    (js "Delivery",
     js "Energetic yet controlled, with a steady pace that conveys urgency without sounding rushed.");
    (js "Pronunciation",
     js "Crisp and deliberate, with emphasis on numbers, names, and key facts to ensure clarity.");
    (js "Phrasing",
     js "Concise and impactful, structured like broadcast headlines, ensuring each sentence lands strongly.") ].

(** [JSON.stringify] of an object whose values are strings without
    characters that need escaping, as [vibe] is. *)
Definition stringify (members : list (jsstring * jsstring)) : jsstring :=
  let quote (s : jsstring) := [34%N] ++ s ++ [34%N] in
  js "{" ++ join (js ",") ((fun '(k, v) => quote k ++ js ":" ++ quote v) <$> members) ++ js "}".

(** ** NEWS (via Gemini) *)

Module Digest.
Record t := { India : list JSON.value; World : list JSON.value }.
Definition empty : t := {| India := []; World := [] |}.
End Digest.

Definition models : list jsstring :=
  [ js "gemini-1.5-flash"; js "gemini-1.5-pro"; js "gemini-pro";
    js "gemini-2.5-flash"; js "gemini-2.5-pro" ].

(** The body of the [try] block of one attempt, after the response text
    has been extracted: clean, parse, shape, and accept or throw. *)
Definition digestOfText (text : jsstring) : outcome Digest.t :=
  match JSON.parse (cleanGeminiJSON text) with
  | None => Thrown (Error (js "Gemini returned invalid JSON: " ++ slice0 text 200))
  | Some JSON.Null => Thrown (TypeError (js "Cannot read properties of null (reading 'India')"))
  | Some parsed =>
      let safeParsed :=
        {| Digest.India := JSON.arrayOrEmpty (JSON.get parsed (js "India"));
           Digest.World := JSON.arrayOrEmpty (JSON.get parsed (js "World")) |} in
      if (0 <? length (Digest.India safeParsed)) || (0 <? length (Digest.World safeParsed))
      then Returned safeParsed
      else Thrown (Error (js "Empty news arrays"))
  end.

(** [res?.response?.text ? res.response.text().trim() : ""] *)
Definition responseText (res : option jsstring) : jsstring :=
  match res with
  | Some t => trim t
  | None => []
  end.

(** Item ids, narration and clips *)

Module Field.
(** A property of a news item as the loop reads it. The generation
    contract prescribes a string, but nothing checks it: the value is
    whatever [JSON.parse] produced, or undefined. Of a value that is not
    a string the loop observes whether it is truthy and what
    [String(value)] gives. *)
Inductive t :=
| Str (s : jsstring)
| Other (truthy : bool) (shown : jsstring).

(** [String(value)], as a template literal and [encodeURIComponent]
    apply it. A console event that names a value carries this string; how
    the console prints a value that is not a string is not modelled. *)
Definition toString (v : t) : jsstring :=
  match v with
  | Str s => s
  | Other _ shown => shown
  end.

(** The value has the methods of a string wherever it is not replaced by
    a default: it is a string, or it is falsy. *)
Definition textual (v : t) : Prop :=
  match v with
  | Other true _ => False
  | _ => True
  end.
End Field.

Module Item.
(** One news item in one language. [id] is the index the caller assigns
    and [language] a key of the digest. *)
Record t := {
  id : N;
  language : jsstring;
  title : Field.t;
  description : Field.t;
  india : bool
}.

(** The title and the description are strings, or falsy. *)
Definition textual (item : t) : Prop :=
  Field.textual (title item) ∧ Field.textual (description item).
End Item.

Module Audio.
Record t := { path : jsstring; title : Field.t; desc : Field.t }.
End Audio.

Module Image.
Record t := { ariaLabel : jsstring; cleanUrl : jsstring }.
End Image.

(** [a || b] on values that are strings or undefined. *)
Definition or_else (a b : option jsstring) : option jsstring :=
  match a with
  | Some (_ :: _) => a
  | _ => b
  end.

Definition flaggedYouTube (el : Entry.t) : bool :=
  let dataAttr := default [] (or_else (Entry.data el) (Some [])) in
  includes (toLowerCase dataAttr) (js "youtube").

(** [imgSrc.split("?")[0]] *)
Definition beforeQuery (imgSrc : jsstring) : jsstring :=
  default [] (head (split_unit 63 imgSrc)).

(** The callback of [$("li.ld").each], as a step on [firstValidImage]. *)
Definition eachEntry (firstValidImage : option Image.t) (el : Entry.t) : option Image.t :=
  match firstValidImage with
  | Some _ => firstValidImage
  | None =>
      let ariaLabel := default [] (or_else (Entry.aria_label el) (Some [])) in
      match or_else (Entry.data_src el) (Entry.src el) with
      | Some ((_ :: _) as imgSrc) =>
          if flaggedYouTube el then None
          else Some {| Image.ariaLabel := ariaLabel;
                       Image.cleanUrl := beforeQuery imgSrc |}
      | _ => None
      end
  end.

Definition selectImage (entries : list Entry.t) : option Image.t :=
  fold_left eachEntry entries None.

(** ** PREPARE TEXT *)

Definition prepareText (text : jsstring) (maxLineLength : nat) : jsstring :=
  let words := split_unit 32 text in
  let '(lines, line) :=
    fold_left
      (fun '(lines, line) word =>
         if maxLineLength <? length (line ++ word)
         then (lines ++ [trim line], word ++ [32%N])
         else (lines, line ++ word ++ [32%N]))
      words ([], []) in
  let lines := match line with [] => lines | _ => lines ++ [trim line] end in
  join [10%N] lines.

(** ** Numbers *)

(** [Math.round] of a finite number: the nearest integer, ties upwards. *)
Definition Math_round (x : Q) : Z := Qfloor (x + (1 # 2))%Q.

(** [duration || 10]: a number other than zero is truthy, and so is the
    string N/A. *)
Definition durationOrDefault (duration : reported) : reported :=
  match duration with
  | Seconds d => if Qeq_bool d 0 then Seconds 10 else Seconds d
  | NotAvailable => NotAvailable
  | Absent => Seconds 10
  end.

(** [Math.round(duration)]: a string that is not a numeral converts to
    NaN, and so does undefined. *)
Definition rounding (duration : reported) : rounded :=
  match duration with
  | Seconds d => Integer (Math_round d)
  | NotAvailable | Absent => NaN
  end.

(** A parsed integer: a finite double that is a natural number, or
    Infinity. *)
Inductive number :=
| Finite (n : N)
| Infinity.

(** The binary64 value nearest to the natural number [n], ties to even. *)
Definition toDouble (n : N) : number :=
  if (N.size n <=? 53)%N then Finite n
  else
    let e := (N.size n - 53)%N in
    let q := N.shiftr n e in
    let r := (n mod 2 ^ e)%N in
    let half := (2 ^ (e - 1))%N in
    let q' := if (half <? r)%N || ((r =? half)%N && N.odd q) then (q + 1)%N else q in
    let v := N.shiftl q' e in
    if (1024 <? N.size v)%N then Infinity else Finite v.

(** [parseInt(digits, 10)] on a non-empty string of decimal digits. *)
Definition parseInt (digits : jsstring) : number :=
  toDouble (fold_left (fun acc d => (acc * 10 + (d - 48))%N) digits 0%N).

(** [x - y > 0]; Infinity - Infinity is NaN, which is not. *)
Definition minus_positive (x y : number) : bool :=
  match x, y with
  | Finite a, Finite b => (b <? a)%N
  | Infinity, Finite _ => true
  | _, Infinity => false
  end.

(** [Array.prototype.sort] with a consistent comparator, given as the test
    [compare(a, b) > 0]: the sort is stable, so its result is the one of
    insertion from the right. *)
Fixpoint insert {A} (gt : A -> A -> bool) (x : A) (l : list A) : list A :=
  match l with
  | [] => [x]
  | y :: l' => if gt x y then y :: insert gt x l' else x :: l
  end.
Definition Array_sort {A} (gt : A -> A -> bool) (l : list A) : list A :=
  foldr (insert gt) [] l.

(** ** Reel files *)

Definition eq_i (s pat : jsstring) : bool :=
  (length s =? length pat) && startsWith_i s pat.

(** [file.match(new RegExp(`^reel_${language}(\\d+)\\.mp4$`, "i"))]: the
    first capture group of the match, for a language name made of letters
    (as the three names of the script are). *)
Definition matchReel (language file : jsstring) : option jsstring :=
  let prefix := js "reel_" ++ language in
  if startsWith_i file prefix then
    let rest := drop (length prefix) file in
    let digits := JSON.take_while JSON.isDigit rest in
    let suffix := drop_while JSON.isDigit rest in
    match digits with
    | [] => None
    | _ => if eq_i suffix (js ".mp4") then Some digits else None
    end
  else None.

(** [match !== null] *)
Definition isReel (language file : jsstring) : bool :=
  bool_decide (is_Some (matchReel language file)).

Definition reelNumber (language file : jsstring) : number :=
  parseInt (default [] (matchReel language file)).

Definition hasCodec (kind : jsstring) (streams : list Stream.t) : bool :=
  existsb (fun s => bool_decide (Stream.codec_type s = kind)) streams.

Module Check.
Record t := { file : jsstring; hasVideo : bool; hasAudio : bool }.
End Check.

(** A number that is defined and not zero. *)
Definition truthy (n : option N) : bool :=
  match n with
  | Some x => negb (x =? 0)%N
  | None => false
  end.

(** [s.width && s.height] *)
Definition dimensioned (s : Stream.t) : bool :=
  truthy (Stream.width s) && truthy (Stream.height s).

(** ** The pipeline *)

Section Pipeline.
Context (w : World).

Definition warn (m : console) : M unit := emit (Console m).

(** *** NEWS (via Gemini) *)

(** One iteration of the retry loop up to its [catch]: request, extract
    the text, and build the digest. *)
Definition tryModel (date modelName : jsstring) : M Digest.t :=
  res ← call (GenerateContent modelName date) (fun st => generateContent w st modelName date);
  let text := responseText res in
  match digestOfText text with
  | Returned safeParsed => mret safeParsed
  | Thrown e => throw e
  end.

(** The [for] loop over the models that remain, and the fallback result
    after it; [n] is the value of [attempt]. *)
Fixpoint retry (date : jsstring) (remaining : list jsstring) (n : nat)
    (lastError : option error) : M Digest.t :=
  match remaining with
  | [] => warn (AllRetriesFailed lastError);; mret Digest.empty
  | modelName :: rest =>
      try_catch (tryModel date modelName)
        (fun err => warn (AttemptFailed (n + 1) err);; retry date rest (S n) (Some err))
  end.

Definition getNews (date : jsstring) : M Digest.t :=
  match or_else (GEMINI_API_KEY w) (Some []) with
  | Some (_ :: _) => retry date models 0 None
  | _ => warn NoGeminiKey;; mret Digest.empty
  end.

(** *** TTS *)

Definition ttsURL (content : jsstring) : option jsstring :=
  input ← encodeURIComponent content;
  prompt ← encodeURIComponent (stringify vibe);
  Some (js "https://www.openai.fm/api/generate" ++ js "?input=" ++ input
        ++ js "&prompt=" ++ prompt ++ js "&voice=" ++ voice
        ++ js "&generation=67612c8-4975-452f-af3f-d44cca8915e5").

Definition fetchTTS (content folderPath : jsstring) : M unit :=
  try_catch
    (match ttsURL content with
     | None => throw URIError
     | Some finalURL =>
         data ← call (Get finalURL (Some 60000%N)) (fun st => axios_get w st finalURL);
         call_creating (WriteFile folderPath) folderPath
           (fun st => writeFileSync w st folderPath data)
     end)
    (fun err => warn (FailedTTS err);; throw err).

(** *** FFPROBE *)

Definition ffprobePromise (file : jsstring) : M Metadata.t :=
  call (Probe file) (fun st => ffprobe w st file).

(** *** IMAGE SCRAPING *)

Definition searchURL (query : jsstring) : option jsstring :=
  q ← encodeURIComponent query;
  Some (js "https://in.images.search.yahoo.com/search/images?p=" ++ q).

Definition fetchImage (query savePath : jsstring) : M jsstring :=
  match searchURL query with
  | None => throw URIError
  | Some url =>
      try_catch
        (data ← call (Get url None) (fun st => axios_get w st url);
         match selectImage (li_ld w data) with
         | Some firstValidImage =>
             response ← call (Get (Image.cleanUrl firstValidImage) None)
                          (fun st => axios_get w st (Image.cleanUrl firstValidImage));
             call_creating (Sharp savePath) savePath
               (fun st => sharp_toFile w st response savePath)
         | None => warn NoValidImages
         end)
        (fun err => warn (ErrorFetchingImages err));;
      mret savePath
  end.

Definition getVideoDimensions (videoFile : jsstring) : M (option N * option N) :=
  metadata ← ffprobePromise videoFile;
  match List.find dimensioned (Metadata.streams metadata) with
  | Some stream => mret (Stream.width stream, Stream.height stream)
  | None => throw (TypeError (js "Cannot read properties of undefined (reading 'width')"))
  end.

(** *** Overlay *)

Definition overlayImage (videoFile imageFile outputFile : jsstring) : M unit :=
  match videoFile, imageFile, outputFile with
  | _ :: _, _ :: _, _ :: _ =>
      let cmd :=
        {| Command.inputs := [videoFile; imageFile];
           Command.complexFilter :=
             [Spec (js "overlay") [(js "x", Text (js "50")); (js "y", Text (js "50"))]];
           Command.outputOptions := [Flag (js "-pix_fmt yuv420p"); Flag (js "-c:a copy")];
           Command.output := outputFile |} in
      call_creating (Run cmd) outputFile (fun st => ffmpeg_save w st cmd)
  | _, _, _ => throw (Error (js "Missing file path!"))
  end.

(** *** REEL *)

Definition reelFilter (fontTitleSafe fontDescSafe titleText descText : jsstring) : list Filter :=
  [ Line (js "[1:v]scale=1080:800,format=rgba,fade=t=in:st=0:d=1:alpha=1,fade=t=out:st=15.05:d=1:alpha=1[img]");
    Line (js "[0:v][img]overlay=x=0:y=0[bg]");
    Line (js "[bg]drawtext=fontfile='" ++ fontTitleSafe ++ js "':text='" ++ titleText
          ++ js "':fontcolor=white:fontsize=60:x='if(lt(t,0.8), -text_w + (60+text_w)*(t/0.8), 60)':y=1190:alpha='if(lt(t,0.8),(t/0.8),1)':shadowcolor=black:shadowx=2:shadowy=2:line_spacing=15[vid1]");
    Line (js "[vid1]drawtext=fontfile='" ++ fontDescSafe ++ js "':text='" ++ descText
          ++ js "':fontcolor=yellow:fontsize=40:x='if(lt(t,1.6), -text_w + (60+text_w)*((t-0.8)/0.8), 60)':y=1390:alpha='if(lt(t,1.6),((t-0.8)/0.8),1)':line_spacing=16:shadowcolor=black:shadowx=1:shadowy=1[vid2]") ].

Definition reelCommand (filter : list Filter) (duration : reported)
    (imageFile videoFile audioFile outputFile : jsstring) : Command.t :=
  {| Command.inputs := [videoFile; imageFile; audioFile];
     Command.complexFilter := filter;
     Command.outputOptions :=
       [ Flag (js "-map [vid2]"); Flag (js "-map 2:a?"); Flag (js "-c:v libx264");
         Flag (js "-crf 18"); Flag (js "-preset medium"); Flag (js "-c:a aac");
         Duration (rounding duration) ];
     Command.output := outputFile |}.

Definition generateReel (imageFile videoFile audioFile titleText descText outputFile : jsstring)
    : M unit :=
  metadata ← ffprobePromise audioFile;
  let duration := durationOrDefault (Metadata.duration metadata) in
  _ ← getVideoDimensions videoFile;
  let fontTitle := path_join w (cwd w) (js "assests/font/Nirmala-UI.ttf") in
  let fontDesc := path_join w (cwd w) (js "assests/font/Nirmala-UI.ttf") in
  titleFound ← existsSync fontTitle;
  let fontTitleSafe :=
    if titleFound : bool then fontTitle
    else js "/usr/share/fonts/truetype/dejavu/DejaVuSans-Bold.ttf" in
  descFound ← existsSync fontDesc;
  let fontDescSafe :=
    if descFound : bool then fontDesc
    else js "/usr/share/fonts/truetype/dejavu/DejaVuSans.ttf" in
  let filter := reelFilter fontTitleSafe fontDescSafe titleText descText in
  let cmd := reelCommand filter duration imageFile videoFile audioFile outputFile in
  try_catch (call_creating (Run cmd) outputFile (fun st => ffmpeg_save w st cmd))
    (fun err => warn (FFmpegErrorReel err);; throw err).

(** *** Generate TTS for news array *)

(** The check for a cached illustration and the fetch that follows it
    in the [catch] branch. *)
Definition illustrate (title imgPath : jsstring) : M unit :=
  try_catch
    (fs_access imgPath None;; warn (ImageAlreadyExists imgPath))
    (fun _ =>
       try_catch
         (_ ← fetchImage title imgPath; warn (ImageGenerated imgPath))
         (fun err => warn (FailedImage title err))).

(** [prepareText(value || "", maxLineLength)] on a property of the item:
    a falsy value is replaced by the empty string, and a truthy value
    that is not a string has no [split]. *)
Definition prepareField (value : Field.t) (maxLineLength : nat) : M jsstring :=
  match value with
  | Field.Str text => mret (prepareText text maxLineLength)
  | Field.Other false _ => mret (prepareText [] maxLineLength)
  | Field.Other true _ => throw (TypeError (js "text.split is not a function"))
  end.

(** The part of one loop iteration after the narration has been saved:
    the two wrapped texts, then illustration, overlay, captioned clip.
    The texts are prepared outside every [try]. *)
Definition composeItem (outputDir : jsstring) (item : Item.t) (audioPath : jsstring) : M unit :=
  let n := String_of_N (Item.id item + 1) in
  title ←
    prepareField (Item.title item)
      (if bool_decide (Item.language item = js "english") then 40
       else if bool_decide (Item.language item = js "gujarati") then 32 else 36);
  description ← prepareField (Item.description item) 46;
  let outputVideoFile :=
    path_join w outputDir (js "output_" ++ n ++ js "_" ++ Item.language item ++ js ".mp4") in
  let imgPath := path_join w outputDir (js "img" ++ n ++ js ".png") in
  illustrate (Field.toString (Item.title item)) imgPath;;
  try_catch
    (overlayImage
       (if Item.india item
        then path_join w (cwd w) (js "assests/REELS/Reel_3.mp4")
        else path_join w (cwd w) (js "assests/REELS/Reel_4.mp4"))
       imgPath outputVideoFile)
    (fun err => warn (FailedOverlay (Field.toString (Item.title item)) err));;
  try_catch
    (generateReel imgPath outputVideoFile audioPath title description
       (path_join w outputDir (js "reel_" ++ Item.language item ++ n ++ js ".mp4")))
    (fun err => warn (FailedReel (Field.toString (Item.title item)) err)).

(** One iteration of the loop, on the list [audioFiles] built so far. The
    delays between calls are not part of the model. *)
Definition iteration (outputDir : jsstring) (audioFiles : list Audio.t) (item : Item.t)
    : M (list Audio.t) :=
  let n := String_of_N (Item.id item + 1) in
  let audioPath :=
    path_join w outputDir (js "audio_" ++ n ++ js "_" ++ Item.language item ++ js ".mp3") in
  r ← attempt (fetchTTS (Field.toString (Item.description item)) audioPath);
  match r with
  | Thrown _ => warn (SkippingItem (Field.toString (Item.title item)));; mret audioFiles
  | Returned _ =>
      let audioFiles :=
        audioFiles ++ [ {| Audio.path := audioPath;
                           Audio.title := Item.title item;
                           Audio.desc := Item.description item |} ] in
      composeItem outputDir item audioPath;;
      mret audioFiles
  end.

Fixpoint iterate (outputDir : jsstring) (audioFiles : list Audio.t) (items : list Item.t)
    : M (list Audio.t) :=
  match items with
  | [] => mret audioFiles
  | item :: rest =>
      audioFiles' ← iteration outputDir audioFiles item;
      iterate outputDir audioFiles' rest
  end.

Definition generateTTS (allNews : list Item.t) (outputDir : jsstring) : M (list Audio.t) :=
  match allNews with
  | [] => warn NoNews;; mret []
  | _ => iterate outputDir [] allNews
  end.

(** *** Collecting and merging the clips *)

Definition getAllVideos (folderPath language : jsstring) : M (list jsstring) :=
  found ← existsSync folderPath;
  if found : bool then
    files ← read (fun st => readdirSync w st folderPath);
    let videoFiles := List.filter (isReel language) files in
    let videoFiles :=
      Array_sort (fun a b => minus_positive (reelNumber language a) (reelNumber language b))
                 videoFiles in
    mret (path_join w folderPath <$> videoFiles)
  else mret [].

Definition checkStreams (file : jsstring) : M Check.t :=
  streams ← call (ExecProbe file) (fun st => exec_ffprobe w st file);
  mret {| Check.file := file;
          Check.hasVideo := hasCodec (js "video") streams;
          Check.hasAudio := hasCodec (js "audio") streams |}.

(** [videoFiles.map(checkStreams)]: every probe is started, in list
    order, whatever the others answer. *)
Fixpoint checkAll (videoFiles : list jsstring) : M (list (outcome Check.t)) :=
  match videoFiles with
  | [] => mret []
  | file :: rest =>
      r ← attempt (checkStreams file);
      rs ← checkAll rest;
      mret (r :: rs)
  end.

(** [Promise.all]: the results in list order, or a rejection when one of
    the promises rejects (taken here to be the first of the list that
    does). *)
Fixpoint Promise_all {A} (rs : list (outcome A)) : outcome (list A) :=
  match rs with
  | [] => Returned []
  | Returned a :: rs' =>
      match Promise_all rs' with
      | Returned l => Returned (a :: l)
      | Thrown e => Thrown e
      end
  | Thrown e :: _ => Thrown e
  end.

Definition validateVideos (videoFiles : list jsstring) : M (list Check.t) :=
  rs ← checkAll videoFiles;
  match Promise_all rs with
  | Returned results => mret results
  | Thrown e => throw e
  end.

Definition concatCommand (videoFiles : list jsstring) (outputFile : jsstring) : Command.t :=
  {| Command.inputs := videoFiles;
     Command.complexFilter :=
       [Spec (js "concat")
          [(js "n", Num (Z.of_nat (length videoFiles))); (js "v", Num 1); (js "a", Num 1)]];
     Command.outputOptions :=
       [ Flag (js "-y"); Flag (js "-c:v libx264"); Flag (js "-crf 23");
         Flag (js "-preset veryfast"); Flag (js "-c:a aac"); Flag (js "-b:a 192k");
         Flag (js "-ac 2"); Flag (js "-ar 44100") ];
     Command.output := outputFile |}.

Definition mergeVideos (videoFiles : list jsstring) (outputFile : jsstring) : M unit :=
  results ← validateVideos videoFiles;
  let broken := List.filter (fun r => negb (Check.hasAudio r)) results in
  match broken with
  | [] => mret tt
  | _ => warn (NoAudio (Check.file <$> broken))
  end;;
  match videoFiles with
  | [] => throw (Error (js "No videos provided to merge."))
  | _ =>
      let cmd := concatCommand videoFiles outputFile in
      try_catch (call_creating (Run cmd) outputFile (fun st => ffmpeg_save w st cmd))
        (fun err => warn (FFmpegMergeError err);; throw err)
  end.

(** *** MAIN *)

Definition languages : list jsstring := [js "gujarati"; js "hindi"; js "english"].

Definition intro : jsstring := path_join w (cwd w) (js "assests/REELS/Reel_1.mp4").
Definition outro : jsstring := path_join w (cwd w) (js "assests/REELS/Reel_5.mp4").

(** The list [allVideos] that the callback of one language hands to
    [mergeVideos]. *)
Definition allVideos (outputDir lang : jsstring) : M (list jsstring) :=
  videos ← getAllVideos outputDir lang;
  st ← read Returned;
  mret (List.filter (fun p => bool_decide (p ∈ files st)) ([intro] ++ videos ++ [outro])).

Definition mergeLanguage (outputDir lang : jsstring) : M unit :=
  videos ← allVideos outputDir lang;
  match videos with
  | [] => throw (Error (js "No videos to merge - aborting."))
  | _ => mergeVideos videos (path_join w outputDir (js "final_" ++ lang ++ js "_video.mp4"))
  end.

End Pipeline.

(** ** UTILS: the output folder *)

(** [fs.mkdirSync(dir, { recursive: true })], answered by the oracle
    [mkdirSync]: when it succeeds the folder exists. *)
Definition mkdir (mkdirSync : State -> jsstring -> outcome unit) (dir : jsstring) : M unit :=
  fun st =>
    match mkdirSync st dir with
    | Returned _ => (Returned tt, create dir st)
    | Thrown e => (Thrown e, st)
    end.

(** [getOutputDirForDate(date)]. The three segments of the path are
    joined from the left. *)
Definition getOutputDirForDate (w : World) (mkdirSync : State -> jsstring -> outcome unit)
    (date : jsstring) : M jsstring :=
  let dir := path_join w (path_join w (cwd w) (js "output")) date in
  found ← existsSync dir;
  (if found : bool then mret tt else mkdir mkdirSync dir);;
  mret dir.

(** ** Vocabulary of the properties *)

(** A string without curly braces. *)
Definition braceFree (s : jsstring) : Prop := Forall (fun c => c ≠ 123%N ∧ c ≠ 125%N) s.

(** [c] is [t] without a brace-free prefix and a brace-free suffix. *)
Definition frames (t c : jsstring) : Prop :=
  ∃ p q, t = p ++ c ++ q ∧ braceFree p ∧ braceFree q.

(** The part of [s] between its first opening and its last closing curly
    brace, as [substring] cuts it. *)
Definition braceSpan (s : jsstring) : jsstring :=
  substring s (indexOf s (js "{")) (lastIndexOf s (js "}") + 1)%Z.

(** A response wrapped in a Markdown code fence. *)
Definition fenced (body : jsstring) : jsstring := js "```json" ++ body ++ js "```".

(** The order of parsed integers: Infinity is the greatest. *)
Definition numLe (x y : number) : Prop :=
  match x, y with
  | Finite a, Finite b => (a <= b)%N
  | _, Infinity => True
  | Infinity, Finite _ => False
  end.

(** What the attempt with [modelName] yields when it is made in state
    [st]: the digest built from the response, or the exception. *)
Definition reply (w : World) (date modelName : jsstring) (st : State) : outcome Digest.t :=
  match generateContent w st modelName date with
  | Returned res => digestOfText (responseText res)
  | Thrown e => Thrown e
  end.

(** The cleaned text parses as JSON and its two region arrays are not both
    empty; [d] holds them. *)
Definition accepts (text : jsstring) (d : Digest.t) : Prop :=
  ∃ parsed,
    JSON.parse (cleanGeminiJSON text) = Some parsed
    ∧ d = {| Digest.India := JSON.arrayOrEmpty (JSON.get parsed (js "India"));
             Digest.World := JSON.arrayOrEmpty (JSON.get parsed (js "World")) |}
    ∧ (Digest.India d ≠ [] ∨ Digest.World d ≠ []).

(** The state after the attempts [failures], each a model with the error
    it ended in, the first of them being attempt number [n + 1]. *)
Fixpoint afterFailures (date : jsstring) (st : State) (n : nat)
    (failures : list (jsstring * error)) : State :=
  match failures with
  | [] => st
  | (m, e) :: rest =>
      afterFailures date
        (record (Console (AttemptFailed (n + 1) e)) (record (GenerateContent m date) st))
        (S n) rest
  end.

(** Each of the attempts [failures], made in its turn, ends in its error. *)
Fixpoint failing (w : World) (date : jsstring) (st : State) (n : nat)
    (failures : list (jsstring * error)) : Prop :=
  match failures with
  | [] => True
  | (m, e) :: rest =>
      reply w date m st = Thrown e
      ∧ failing w date
          (record (Console (AttemptFailed (n + 1) e)) (record (GenerateContent m date) st))
          (S n) rest
  end.

Definition lastErrorOf (lastError : option error) (failures : list (jsstring * error))
    : option error :=
  match last failures with
  | Some (_, e) => Some e
  | None => lastError
  end.

(** The models a trace shows a request to, in order. *)
Definition requested (tr : list event) : list jsstring :=
  omap (fun e => match e with GenerateContent m _ => Some m | _ => None end) tr.

(** The values of the [-t] option of a command. *)
Definition durations (cmd : Command.t) : list rounded :=
  omap (fun o => match o with Duration t => Some t | Flag _ => None end)
       (Command.outputOptions cmd).

(** The image source the selection loop reads from an entry:
    [data-src || src], empty when neither is set. *)
Definition imageSource (el : Entry.t) : jsstring :=
  default [] (or_else (Entry.data_src el) (Entry.src el)).

(** An entry the selection loop may keep: it has an image source and its
    data attribute does not flag the disallowed host. *)
Definition eligible (el : Entry.t) : bool :=
  match imageSource el with
  | [] => false
  | _ => negb (flaggedYouTube el)
  end.

(** [s.isWellFormed()]: no lone surrogate. *)
Fixpoint isWellFormed (s : jsstring) : bool :=
  match s with
  | [] => true
  | c :: rest =>
      if isLowSurrogate c then false
      else if isHighSurrogate c then
        match rest with
        | d :: rest' => isLowSurrogate d && isWellFormed rest'
        | [] => false
        end
      else isWellFormed rest
  end.



(** The same code unit, or the same Basic Latin letter in the other
    case. *)
Definition sameCase (c p : N) : Prop :=
  c = p
  ∨ ((97 <= p <= 122)%N ∧ (c + 32)%N = p)
  ∨ ((65 <= p <= 90)%N ∧ c = (p + 32)%N).

(** [s] reads [pat], the case of the letters apart. *)
Definition anyCase (s pat : jsstring) : Prop := Forall2 sameCase s pat.

(** [data] contains [word] in some letter case. *)
Definition mentions (word data : jsstring) : Prop :=
  ∃ a y b, data = a ++ y ++ b ∧ anyCase y word.

(** The data attribute of an entry, empty when there is none. *)
Definition dataOf (el : Entry.t) : jsstring := default [] (Entry.data el).

(** The number a string of decimal digits denotes. *)
Fixpoint decimal (digits : jsstring) : N :=
  match digits with
  | [] => 0
  | d :: rest => ((d - 48) * 10 ^ N.of_nat (length rest) + decimal rest)%N
  end.

(** A name made of Basic Latin letters, which a regular expression built
    around it matches literally. *)
Definition lettersOnly (s : jsstring) : Prop :=
  Forall (fun c => (65 <= c <= 90)%N ∨ (97 <= c <= 122)%N) s.

(** [file] is the reel number [n] of the language: its name reads
    reel_{language}{digits}.mp4, the case of the letters apart, and [n]
    is the number the digits denote. *)
Definition reelOf (language file : jsstring) (n : N) : Prop :=
  ∃ p digits s,
    file = p ++ digits ++ s
    ∧ anyCase p (js "reel_" ++ language)
    ∧ digits ≠ []
    ∧ Forall (fun c => (48 <= c <= 57)%N) digits
    ∧ anyCase s (js ".mp4")
    ∧ n = decimal digits.

(** The text is a JSON text: [JSON.parse] accepts it. *)
Definition isJSON (text : jsstring) : Prop := is_Some (JSON.parse text).

(** A code unit that is neither white space nor a backtick. *)
Definition solid (c : N) : bool := negb (isWhiteSpace c) && negb (c =? 96)%N.

(** [s] is [rest] after a prefix that ends in a solid code unit. *)
Definition endsSolid (s rest : jsstring) : Prop :=
  ∃ pre c, s = pre ++ c :: rest ∧ solid c = true.

(** The text is not itself fenced: white space apart, it starts and ends
    with a solid code unit. *)
Definition padded (text : jsstring) : Prop :=
  ∃ pre core post,
    text = pre ++ core ++ post
    ∧ Forall (fun c => isWhiteSpace c = true) pre
    ∧ Forall (fun c => isWhiteSpace c = true) post
    ∧ (∃ c r, core = c :: r ∧ solid c = true)
    ∧ (∃ r c, core = r ++ [c] ∧ solid c = true).

(** ** Sample worlds, to instantiate the properties *)

Module Sample.

Definition quoted (s : string) : jsstring := [34%N] ++ js s ++ [34%N].
Arguments quoted s%_string.

Definition failure {A} : outcome A := Thrown (External (js "request failed")).

Definition page : list Entry.t :=
  [ {| Entry.data := Some (js "site=YouTube"); Entry.aria_label := None;
       Entry.data_src := Some (js "http://a/1.png?x=1"); Entry.src := None |};
    {| Entry.data := None; Entry.aria_label := Some (js "label");
       Entry.data_src := Some []; Entry.src := Some (js "http://a/2.png?pid=1&y") |} ].

Definition listing : list jsstring :=
  [ js "reel_english10.mp4"; js "reel_english2.mp4"; js "REEL_English1.MP4";
    js "reel_hindi3.mp4"; js "reel_english.mp4"; js "audio_1_english.mp3" ].

Definition video : Stream.t :=
  {| Stream.codec_type := js "video"; Stream.width := Some 1080%N;
     Stream.height := Some 1920%N |}.

(** The streams of a clip: the third intermediate clip has no audio. *)
Definition streamsOf (file : jsstring) : outcome (list Stream.t) :=
  if bool_decide (file = js "reel_english3.mp4") then Returned [video]
  else Returned [video; {| Stream.codec_type := js "audio"; Stream.width := None;
                           Stream.height := None |}].

(** A world given by the answers of the generative backend, of HTTP and
    of ffprobe; everything else succeeds. *)
Definition make (answer : jsstring -> outcome (option jsstring))
    (get : jsstring -> outcome jsstring) (probe : jsstring -> outcome Metadata.t) : World :=
  {| GEMINI_API_KEY := Some (js "key");
     cwd := js "/app";
     path_join := fun a b => a ++ js "/" ++ b;
     generateContent := fun _ modelName _ => answer modelName;
     axios_get := fun _ url => get url;
     li_ld := fun _ => page;
     sharp_toFile := fun _ _ _ => Returned tt;
     writeFileSync := fun _ _ _ => Returned tt;
     readdirSync := fun _ _ => Returned listing;
     ffprobe := fun _ file => probe file;
     exec_ffprobe := fun _ file => streamsOf file;
     ffmpeg_save := fun _ _ => Returned tt |}.

(** The first model is unreachable, the second answers an empty object,
    the third a fenced digest with one India item. *)
Definition answers (modelName : jsstring) : outcome (option jsstring) :=
  if bool_decide (modelName = js "gemini-1.5-pro") then Returned (Some (js "{}"))
  else if bool_decide (modelName = js "gemini-pro") then
    Returned (Some (fenced ([10%N] ++ js "{" ++ quoted "India" ++ js ":[1]}" ++ [10%N])))
  else failure.

Definition online (url : jsstring) : outcome jsstring := Returned (js "bytes").
Definition offline (url : jsstring) : outcome jsstring := failure.

Definition probed (duration : reported) (file : jsstring) : outcome Metadata.t :=
  Returned {| Metadata.duration := duration; Metadata.streams := [video] |}.

Definition world : World := make answers online (probed (Seconds (5 # 2))).

(** Every model answers a digest with one India item and no World key. *)
Definition oneRegion : World :=
  make (fun _ => Returned (Some (js "{" ++ quoted "India" ++ js ":[1]}")))
       online (probed (Seconds (5 # 2))).

(** The narration is reported with a duration of zero. *)
Definition silent : World := make answers online (probed (Seconds 0)).

(** ffprobe fails on every file. *)
Definition unprobed : World := make answers online (fun _ => failure).

(** Every HTTP request fails. *)
Definition unreachable : World := make answers offline (probed (Seconds (5 # 2))).

Definition date : jsstring := js "2025-01-01".
Definition outputDir : jsstring := js "/app/output/2025-01-01".

Definition item : Item.t :=
  {| Item.id := 0; Item.language := js "english";
     Item.title := Field.Str (js "Monsoon arrives");
     Item.description := Field.Str (js "Rain reached the coast."); Item.india := true |}.

Definition fresh : State := {| files := {[ outputDir ]}; trace := [] |}.

(** The illustration of the item is already on disk. *)
Definition cached : State :=
  {| files := {[ outputDir; js "/app/output/2025-01-01/img1.png" ]}; trace := [] |}.

(** The intro, the outro and every listed file are on disk. *)
Definition assembled : State :=
  {| files := {[ outputDir; js "/app/assests/REELS/Reel_1.mp4";
                 js "/app/assests/REELS/Reel_5.mp4" ]}
               ∪ list_to_set ((fun f => outputDir ++ js "/" ++ f) <$> listing);
     trace := [] |}.

End Sample.

(** ** Vocabulary of the further properties *)

(** The callback of [words.forEach] in [prepareText], as a step on the
    pair of [lines] and [line]. *)
Definition wrapStep (maxLineLength : nat)
    : list jsstring * jsstring -> jsstring -> list jsstring * jsstring :=
  fun '(lines, line) word =>
    if maxLineLength <? length (line ++ word)
    then (lines ++ [trim line], word ++ [32%N])
    else (lines, line ++ word ++ [32%N]).

(** The array [lines] of [prepareText] at its [return]. *)
Definition wrappedLines (text : jsstring) (maxLineLength : nat) : list jsstring :=
  let '(lines, line) := fold_left (wrapStep maxLineLength) (split_unit 32 text) ([], []) in
  match line with [] => lines | _ => lines ++ [trim line] end.

(** The code units of a string that are not white space. *)
Definition visible (s : jsstring) : jsstring := List.filter (fun c => negb (isWhiteSpace c)) s.

(** The files an external call leaves on disk when it succeeds. *)
Definition written (e : event) : list jsstring :=
  match e with
  | WriteFile p | Sharp p => [p]
  | Run cmd => [Command.output cmd]
  | _ => []
  end.

(** From every state, [m] keeps the files there are, appends to the trace
    only events that satisfy [P], and leaves no new file but one written
    by such an event. *)
Definition adds {A} (P : event -> Prop) (m : M A) : Prop :=
  ∀ st, ∃ added,
    trace (m st).2 = trace st ++ added
    ∧ Forall P added
    ∧ files st ⊆ files (m st).2
    ∧ ∀ p, p ∈ files (m st).2 -> p ∈ files st ∨ ∃ e, e ∈ added ∧ p ∈ written e.

(** An event of the retry loop of [getNews] for [date]: a request to one
    of the models, or console output. *)
Definition newsEvent (date : jsstring) (e : event) : Prop :=
  match e with
  | GenerateContent m d => m ∈ models ∧ d = date
  | Console _ => True
  | _ => False
  end.

(** The name under which [generateTTS] writes the captioned clip number
    [n] of a language. *)
Definition reelName (language : jsstring) (n : N) : jsstring :=
  js "reel_" ++ language ++ String_of_N n ++ js ".mp4".

(** The names of the other files written for an item: the narration, the
    illustration and the intermediate clip. *)
Definition audioName (item : Item.t) : jsstring :=
  js "audio_" ++ String_of_N (Item.id item + 1) ++ js "_" ++ Item.language item ++ js ".mp3".
Definition imageName (item : Item.t) : jsstring :=
  js "img" ++ String_of_N (Item.id item + 1) ++ js ".png".
Definition overlayName (item : Item.t) : jsstring :=
  js "output_" ++ String_of_N (Item.id item + 1) ++ js "_" ++ Item.language item ++ js ".mp4".

Definition itemFiles (item : Item.t) : list jsstring :=
  [ audioName item; imageName item; overlayName item;
    reelName (Item.language item) (Item.id item + 1) ].

(** What the work on one item of [generateTTS] may do: requests, probes,
    the write of each of its four files, and the failure reports of its
    steps. *)
Definition itemEvent (w : World) (outputDir : jsstring) (item : Item.t) (e : event) : Prop :=
  match e with
  | Get _ _ | Probe _ => True
  | WriteFile p => p = path_join w outputDir (audioName item)
  | Sharp p => p = path_join w outputDir (imageName item)
  | Run cmd =>
      Command.output cmd = path_join w outputDir (overlayName item)
      ∨ Command.output cmd
        = path_join w outputDir (reelName (Item.language item) (Item.id item + 1))
  | Console m =>
      match m with
      | FailedTTS _ | NoValidImages | ErrorFetchingImages _ | FFmpegErrorReel _
      | ImageAlreadyExists _ | ImageGenerated _ | FailedImage _ _ | FailedOverlay _ _
      | FailedReel _ _ => True
      | _ => False
      end
  | _ => False
  end.



(** What [generateTTS] may do on the list [allNews]: the work on one of
    its items, and the reports of the loop itself. *)
Definition loopEvent (w : World) (outputDir : jsstring) (allNews : list Item.t) (e : event)
    : Prop :=
  (∃ item, item ∈ allNews ∧ itemEvent w outputDir item e)
  ∨ (∃ title, e = Console (SkippingItem title))
  ∨ e = Console NoNews.

(** An event of [mergeVideos] on the list [videoFiles]: the stream check
    of one of the files, the concatenation of all of them into
    [outputFile], or console output. *)
Definition mergeEvent (videoFiles : list jsstring) (outputFile : jsstring) (e : event) : Prop :=
  match e with
  | ExecProbe file => file ∈ videoFiles
  | Run cmd => cmd = concatCommand videoFiles outputFile ∧ videoFiles ≠ []
  | Console _ => True
  | _ => False
  end.

(** A code unit that needs no escaping in a URI component, or the percent
    sign of an escape. *)
Definition escaped (c : N) : Prop := uriUnreserved c = true ∨ c = 37%N.

(** ** Further sample worlds *)

Module Scenario.

(** ffprobe does not know the duration of any file. *)
Definition unmeasured : World :=
  Sample.make Sample.answers Sample.online (Sample.probed NotAvailable).

(** Every model answers with blank text. *)
Definition blank : World :=
  Sample.make (fun _ => Returned (Some (js "  " ++ [10%N]))) Sample.online
    (Sample.probed (Seconds (5 # 2))).

(** The sample world with other answers of the directory listing and of
    the stream check. *)
Definition withClips (listing : State -> list jsstring)
    (streams : jsstring -> outcome (list Stream.t)) : World :=
  {| GEMINI_API_KEY := GEMINI_API_KEY Sample.world;
     cwd := cwd Sample.world;
     path_join := path_join Sample.world;
     generateContent := generateContent Sample.world;
     axios_get := axios_get Sample.world;
     li_ld := li_ld Sample.world;
     sharp_toFile := sharp_toFile Sample.world;
     writeFileSync := writeFileSync Sample.world;
     readdirSync := fun st _ => Returned (listing st);
     ffprobe := ffprobe Sample.world;
     exec_ffprobe := fun _ file => streams file;
     ffmpeg_save := ffmpeg_save Sample.world |}.

(** The streams of the second clip cannot be read. *)
Definition corrupt : World :=
  withClips (fun _ => Sample.listing)
    (fun file =>
       if bool_decide (file = js "reel_english2.mp4") then Sample.failure
       else Sample.streamsOf file).

(** The directory lists its entries in the opposite order once anything
    has been traced. *)
Definition shuffled : World :=
  withClips (fun st => match trace st with [] => Sample.listing | _ => reverse Sample.listing end)
    Sample.streamsOf.

(** The folder holds three reels of one language among other files. *)
Definition numbered : World :=
  withClips
    (fun _ => [ js "reel_english10.mp4"; js "audio_1_english.mp3"; js "reel_english2.mp4";
                js "reel_hindi3.mp4"; js "reel_english1.mp4" ])
    Sample.streamsOf.

(** Nothing on disk, and a file system on which folders can be created. *)
Definition empty : State := {| files := ∅; trace := [] |}.
Definition writable (st : State) (dir : jsstring) : outcome unit := Returned tt.

End Scenario.

(** * Properties *)

(** ** Tactics *)

(** Unfolds the monad and the state, and nothing else. *)
Ltac run :=
  cbv beta iota zeta delta
    [mbind mret M_bind M_ret option_bind option_ret call call_creating emit warn read
     existsSync throw try_catch attempt record create];
  cbn [files trace fst snd].
Ltac run_in H :=
  cbv beta iota zeta delta
    [mbind mret M_bind M_ret option_bind option_ret call call_creating emit warn read
     existsSync throw try_catch attempt record create] in H;
  cbn [files trace fst snd] in H.

(** A decidable fact, by evaluation. *)
Ltac by_compute := apply (bool_decide_unpack _); vm_compute; exact I.

(** Case analysis on the answer of a collaborator. *)
Ltac case_get response e :=
  match goal with
  | |- context [axios_get ?w ?s ?url] => destruct (axios_get w s url) as [response|e]
  end.
Ltac case_sharp e :=
  match goal with
  | |- context [sharp_toFile ?w ?s ?data ?p] => destruct (sharp_toFile w s data p) as [[]|e]
  end.
Ltac case_save e :=
  match goal with
  | |- context [ffmpeg_save ?w ?s ?cmd] => destruct (ffmpeg_save w s cmd) as [[]|e]
  end.
Ltac case_exec streams e :=
  match goal with
  | |- context [exec_ffprobe ?w ?s ?file] => destruct (exec_ffprobe w s file) as [streams|e]
  end.

(** ** Strings *)

Section Strings.

Lemma drop_while_split {A} (p : A -> bool) (l : list A) :
  ∃ pre, l = pre ++ drop_while p l ∧ Forall (fun x => p x = true) pre.
Proof.
  induction l as [|x l IH]; simpl.
  - exists []. split; [done | constructor].
  - destruct (p x) eqn:Hp.
    + destruct IH as (pre & Heq & Hall). exists (x :: pre). split.
      * simpl. by rewrite <- Heq.
      * by constructor.
    + exists []. split; [done | constructor].
Qed.

Lemma drop_while_head {A} (p : A -> bool) (x : A) (l : list A) :
  p x = false -> drop_while p (x :: l) = x :: l.
Proof. intros Hp. simpl. by rewrite Hp. Qed.

Lemma trimStart_split (s : jsstring) :
  ∃ pre, s = pre ++ trimStart s ∧ Forall (fun c => isWhiteSpace c = true) pre.
Proof. apply drop_while_split. Qed.

Lemma trimEnd_split (s : jsstring) :
  ∃ post, s = trimEnd s ++ post ∧ Forall (fun c => isWhiteSpace c = true) post.
Proof.
  unfold trimEnd.
  destruct (drop_while_split isWhiteSpace (reverse s)) as (pre & Heq & Hall).
  exists (reverse pre). split.
  - rewrite <- reverse_app, <- Heq. by rewrite reverse_involutive.
  - by apply Forall_reverse.
Qed.

(** A string that starts and ends with a code unit that is not white
    space is left alone by [trim]. *)
Lemma trim_fixed (c d : N) (s : jsstring) :
  isWhiteSpace c = false -> isWhiteSpace d = false ->
  trim (c :: s ++ [d]) = c :: s ++ [d].
Proof.
  intros Hc Hd. unfold trim, trimStart, trimEnd.
  rewrite (drop_while_head _ _ _ Hc).
  replace (c :: s ++ [d]) with ((c :: s) ++ [d]) by done.
  rewrite reverse_snoc, (drop_while_head _ _ _ Hd).
  by rewrite <- reverse_snoc, reverse_involutive.
Qed.

Lemma startsWith_single (s : jsstring) (c : N) :
  startsWith s [c] = match s with x :: _ => (x =? c)%N | [] => false end.
Proof. destruct s as [|x s]; simpl; [done|]. by rewrite andb_true_r. Qed.

Lemma startsWith_take (s pat : jsstring) :
  startsWith s pat = true -> take (length pat) s = pat.
Proof.
  revert s. induction pat as [|p pat IH]; intros s; simpl; [done|].
  destruct s as [|c s]; [done|].
  intros [Hc Hs]%andb_true_iff. apply N.eqb_eq in Hc. subst. simpl. f_equal. by apply IH.
Qed.

Lemma startsWith_i_take (s pat : jsstring) :
  startsWith_i s pat = true ->
  Forall2 (fun c p => toASCIIUpper c = toASCIIUpper p) (take (length pat) s) pat.
Proof.
  revert s. induction pat as [|p pat IH]; intros s; simpl.
  - intros _. constructor.
  - destruct s as [|c s]; [done|].
    intros [Hc Hs]%andb_true_iff. apply N.eqb_eq in Hc. simpl.
    constructor; [done | by apply IH].
Qed.

Lemma indexOf_from_absent (s : jsstring) (c : N) (i : Z) :
  c ∉ s -> indexOf_from s [c] i = (-1)%Z.
Proof.
  revert i. induction s as [|x s IH]; intros i Hc; simpl; [done|].
  apply not_elem_of_cons in Hc as [Hx Hs].
  rewrite andb_true_r. destruct (N.eqb_spec x c); [congruence | by apply IH].
Qed.

Lemma indexOf_from_first (a b : jsstring) (c : N) (i : Z) :
  c ∉ a -> indexOf_from (a ++ c :: b) [c] i = (i + Z.of_nat (length a))%Z.
Proof.
  revert i. induction a as [|x a IH]; intros i Hc; simpl.
  - rewrite N.eqb_refl. simpl. lia.
  - apply not_elem_of_cons in Hc as [Hx Hs].
    rewrite andb_true_r. destruct (N.eqb_spec x c); [congruence|].
    rewrite IH by done. lia.
Qed.

Lemma lastIndexOf_from_absent (s : jsstring) (c : N) (i found : Z) :
  c ∉ s -> lastIndexOf_from s [c] i found = found.
Proof.
  revert i found. induction s as [|x s IH]; intros i found Hc; simpl; [done|].
  apply not_elem_of_cons in Hc as [Hx Hs].
  rewrite andb_true_r. destruct (N.eqb_spec x c); [congruence | by apply IH].
Qed.

Lemma lastIndexOf_from_last (a b : jsstring) (c : N) (i found : Z) :
  c ∉ b -> lastIndexOf_from (a ++ c :: b) [c] i found = (i + Z.of_nat (length a))%Z.
Proof.
  revert i found. induction a as [|x a IH]; intros i found Hc; simpl.
  - rewrite N.eqb_refl. simpl. rewrite lastIndexOf_from_absent by done. lia.
  - rewrite IH by done. lia.
Qed.

(** [substring] sees only the part of the string its indices fall in. *)
Lemma substring_frame (p c q : jsstring) (i j : Z) :
  (0 <= i <= Z.of_nat (length c))%Z -> (0 <= j <= Z.of_nat (length c))%Z ->
  substring (p ++ c ++ q) (Z.of_nat (length p) + i) (Z.of_nat (length p) + j)
  = substring c i j.
Proof.
  intros Hi Hj. unfold substring. rewrite !length_app.
  set (lp := length p). set (lc := length c). set (lq := length q).
  replace (Z.max 0 (Z.min (Z.of_nat lp + i) (Z.of_nat (lp + (lc + lq)))))
    with (Z.of_nat lp + i)%Z by lia.
  replace (Z.max 0 (Z.min (Z.of_nat lp + j) (Z.of_nat (lp + (lc + lq)))))
    with (Z.of_nat lp + j)%Z by lia.
  replace (Z.max 0 (Z.min i (Z.of_nat lc))) with i by lia.
  replace (Z.max 0 (Z.min j (Z.of_nat lc))) with j by lia.
  replace (Z.max (Z.of_nat lp + i) (Z.of_nat lp + j) - Z.min (Z.of_nat lp + i) (Z.of_nat lp + j))%Z
    with (Z.max i j - Z.min i j)%Z by lia.
  replace (Z.to_nat (Z.min (Z.of_nat lp + i) (Z.of_nat lp + j)))
    with (lp + Z.to_nat (Z.min i j)) by lia.
  rewrite drop_app_ge by (unfold lp; lia).
  replace (lp + Z.to_nat (Z.min i j) - length p) with (Z.to_nat (Z.min i j)) by (unfold lp; lia).
  rewrite drop_app_le by (fold lc; lia).
  rewrite take_app_le; [done|].
  rewrite length_drop. fold lc. lia.
Qed.

Lemma startsWith_spec (s pat : jsstring) :
  startsWith s pat = true <-> ∃ rest, s = pat ++ rest.
Proof.
  revert s. induction pat as [|p pat IH]; intros s; simpl.
  - split; [by exists s | done].
  - destruct s as [|c s].
    + split; [done | by intros (rest & ?)].
    + rewrite andb_true_iff, N.eqb_eq, IH. split.
      * intros (-> & rest & ->). by exists rest.
      * intros (rest & [= -> ->]). split; [done | by exists rest].
Qed.

End Strings.

(** ** Cleaning a response *)

Section Cleaning.

Lemma whiteSpace_not_brace (c : N) : isWhiteSpace c = true -> c ≠ 123%N ∧ c ≠ 125%N.
Proof. intros Hc. split; intros ->; discriminate Hc. Qed.

Lemma frames_refl (s : jsstring) : frames s s.
Proof. exists [], []. rewrite app_nil_r. repeat split; constructor. Qed.

Lemma frames_trans (a b c : jsstring) : frames a b -> frames b c -> frames a c.
Proof.
  intros (p & q & -> & Hp & Hq) (p' & q' & -> & Hp' & Hq').
  exists (p ++ p'), (q' ++ q). rewrite <- !app_assoc. repeat split; by apply Forall_app.
Qed.

Lemma frames_prefix (p s : jsstring) : braceFree p -> frames (p ++ s) s.
Proof. intros Hp. exists p, []. rewrite app_nil_r. repeat split; [done | constructor]. Qed.

Lemma frames_suffix (s q : jsstring) : braceFree q -> frames (s ++ q) s.
Proof. intros Hq. exists [], q. repeat split; [constructor | done]. Qed.

Lemma whiteSpace_braceFree (s : jsstring) :
  Forall (fun c => isWhiteSpace c = true) s -> braceFree s.
Proof. intros Hs. eapply Forall_impl; [exact Hs|]. intros c. apply whiteSpace_not_brace. Qed.

Lemma frames_trim (s : jsstring) : frames s (trim s).
Proof.
  unfold trim.
  destruct (trimStart_split s) as (pre & Hs & Hpre).
  destruct (trimEnd_split (trimStart s)) as (post & Ht & Hpost).
  apply frames_trans with (trimStart s).
  - rewrite Hs at 1. by apply frames_prefix, whiteSpace_braceFree.
  - rewrite Ht at 1. by apply frames_suffix, whiteSpace_braceFree.
Qed.

Lemma fence_braceFree : braceFree (js "```json") ∧ braceFree backticks.
Proof. split; repeat constructor; discriminate. Qed.

Lemma frames_removePrefix_i (s : jsstring) : frames s (removePrefix_i (js "```json") s).
Proof.
  unfold removePrefix_i. destruct (startsWith_i s (js "```json")) eqn:Hs; [|apply frames_refl].
  apply startsWith_i_take in Hs.
  rewrite <- (take_drop (length (js "```json")) s) at 1.
  apply frames_prefix.
  eapply Forall2_Forall_l; [exact Hs|].
  apply Forall_forall. intros p Hp c Hc.
  change (js "```json") with [96; 96; 96; 106; 115; 111; 110]%N in Hp.
  split; intros ->; set_unfold; destruct_or!; subst; vm_compute in Hc; discriminate Hc.
Qed.

Lemma frames_removePrefix (s : jsstring) : frames s (removePrefix backticks s).
Proof.
  unfold removePrefix. destruct (startsWith s backticks) eqn:Hs; [|apply frames_refl].
  apply startsWith_take in Hs.
  rewrite <- (take_drop (length backticks) s) at 1. rewrite Hs.
  apply frames_prefix, fence_braceFree.
Qed.

Lemma endsWith_drop (s pat : jsstring) :
  endsWith s pat = true -> s = take (length s - length pat) s ++ pat.
Proof.
  unfold endsWith. intros Hs%startsWith_take.
  rewrite length_reverse, take_reverse in Hs.
  apply (f_equal reverse) in Hs. rewrite !reverse_involutive in Hs.
  transitivity (take (length s - length pat) s ++ drop (length s - length pat) s).
  - by rewrite take_drop.
  - by rewrite Hs.
Qed.

Lemma frames_removeSuffix (s : jsstring) : frames s (removeSuffix backticks s).
Proof.
  unfold removeSuffix. destruct (endsWith s backticks) eqn:Hs; [|apply frames_refl].
  apply endsWith_drop in Hs. rewrite Hs at 1.
  apply frames_suffix, fence_braceFree.
Qed.

(** The braces of the framed string are those of its core. *)
Lemma frames_brace (t c : jsstring) (x : N) :
  frames t c -> x = 123%N ∨ x = 125%N -> x ∈ t -> x ∈ c.
Proof.
  intros (p & q & -> & Hp & Hq) Hx Hin.
  rewrite !elem_of_app in Hin. destruct Hin as [Hin | [Hin | Hin]]; [|done|].
  - unfold braceFree in Hp. rewrite Forall_forall in Hp.
    destruct (Hp x Hin). destruct Hx; contradiction.
  - unfold braceFree in Hq. rewrite Forall_forall in Hq.
    destruct (Hq x Hin). destruct Hx; contradiction.
Qed.

Lemma indexOf_present (s : jsstring) (c : N) :
  c ∈ s -> (0 <= indexOf s [c] < Z.of_nat (length s))%Z.
Proof.
  intros (a & b & -> & Ha)%list_elem_of_split_l. unfold indexOf.
  rewrite indexOf_from_first by done. rewrite length_app. simpl. lia.
Qed.

Lemma lastIndexOf_present (s : jsstring) (c : N) :
  c ∈ s -> (0 <= lastIndexOf s [c] < Z.of_nat (length s))%Z.
Proof.
  intros (a & b & -> & Hb)%list_elem_of_split_r. unfold lastIndexOf.
  rewrite lastIndexOf_from_last by done. rewrite length_app. simpl. lia.
Qed.

Lemma indexOf_frames (p c q : jsstring) (x : N) :
  x ∉ p -> x ∈ c ->
  indexOf (p ++ c ++ q) [x] = (Z.of_nat (length p) + indexOf c [x])%Z.
Proof.
  intros Hp (a & b & -> & Ha)%list_elem_of_split_l. unfold indexOf.
  rewrite indexOf_from_first by done.
  replace (p ++ (a ++ x :: b) ++ q) with ((p ++ a) ++ x :: (b ++ q))
    by (by rewrite <- !app_assoc).
  rewrite indexOf_from_first, length_app; [lia|].
  rewrite elem_of_app. intros [?|?]; contradiction.
Qed.

Lemma lastIndexOf_frames (p c q : jsstring) (x : N) :
  x ∉ q -> x ∈ c ->
  lastIndexOf (p ++ c ++ q) [x] = (Z.of_nat (length p) + lastIndexOf c [x])%Z.
Proof.
  intros Hq (a & b & -> & Hb)%list_elem_of_split_r. unfold lastIndexOf.
  rewrite lastIndexOf_from_last by done.
  replace (p ++ (a ++ x :: b) ++ q) with ((p ++ a) ++ x :: (b ++ q))
    by (by rewrite <- !app_assoc).
  rewrite lastIndexOf_from_last, length_app; [lia|].
  rewrite elem_of_app. intros [?|?]; contradiction.
Qed.

Lemma braceFree_absent (s : jsstring) : braceFree s -> (123%N ∉ s) ∧ (125%N ∉ s).
Proof.
  unfold braceFree. intros Hs. rewrite Forall_forall in Hs.
  split; intros Hin; destruct (Hs _ Hin); done.
Qed.

Lemma braceSpan_frames (t c : jsstring) :
  frames t c -> 123%N ∈ c -> 125%N ∈ c -> braceSpan t = braceSpan c.
Proof.
  intros (p & q & -> & Hp & Hq) Ho Hc. unfold braceSpan.
  change (js "{") with [123%N]. change (js "}") with [125%N].
  rewrite indexOf_frames, lastIndexOf_frames;
    [| by apply braceFree_absent | done | by apply braceFree_absent | done].
  pose proof (indexOf_present c _ Ho). pose proof (lastIndexOf_present c _ Hc).
  rewrite <- Z.add_assoc. apply substring_frame; lia.
Qed.

(** On a text with an opening and a closing curly brace, cleaning is the
    cut between the first opening and the last closing brace of the raw
    text, trimmed. *)
Lemma cleanGeminiJSON_braceSpan (text : jsstring) :
  123%N ∈ text -> 125%N ∈ text -> cleanGeminiJSON text = trim (braceSpan text).
Proof.
  intros Ho Hc. unfold cleanGeminiJSON.
  destruct text as [|c0 text0] eqn:Htext; [by apply elem_of_nil in Ho|].
  rewrite <- Htext in *. clear Htext c0 text0.
  set (cleaned := removeSuffix backticks
                    (removePrefix backticks (removePrefix_i (js "```json") (trim text)))).
  assert (Hf : frames text cleaned).
  { eapply frames_trans; [apply frames_trim|].
    eapply frames_trans; [apply frames_removePrefix_i|].
    eapply frames_trans; [apply frames_removePrefix|]. apply frames_removeSuffix. }
  assert (Ho' : 123%N ∈ cleaned) by (eapply frames_brace; eauto).
  assert (Hc' : 125%N ∈ cleaned) by (eapply frames_brace; eauto).
  pose proof (indexOf_present cleaned _ Ho') as Hi.
  pose proof (lastIndexOf_present cleaned _ Hc') as Hj.
  change (js "{") with [123%N]. change (js "}") with [125%N].
  destruct (Z.eqb_spec (indexOf cleaned [123%N]) (-1)); [lia|].
  destruct (Z.eqb_spec (lastIndexOf cleaned [125%N]) (-1)); [lia|].
  simpl. f_equal. symmetry. by apply braceSpan_frames.
Qed.

Lemma fenced_frames (body : jsstring) : frames (fenced body) body.
Proof. exists (js "```json"), (js "```"). split; [done | apply fence_braceFree]. Qed.

(** The cut of a text whose first opening brace comes before its last
    closing brace. *)
Lemma braceSpan_ordered (a b c : jsstring) :
  123%N ∉ a -> 125%N ∉ c ->
  braceSpan (a ++ [123%N] ++ b ++ [125%N] ++ c) = [123%N] ++ b ++ [125%N].
Proof.
  intros Ha Hc. unfold braceSpan.
  change (js "{") with [123%N]. change (js "}") with [125%N].
  unfold indexOf, lastIndexOf. simpl.
  rewrite indexOf_from_first by done.
  replace (a ++ 123%N :: b ++ 125%N :: c) with ((a ++ 123%N :: b) ++ 125%N :: c)
    by (by rewrite <- app_assoc).
  rewrite lastIndexOf_from_last by done.
  unfold substring. rewrite !length_app. simpl.
  set (la := length a). set (lb := length b). set (lc := length c).
  match goal with |- take (Z.to_nat ?x) _ = _ => replace (Z.to_nat x) with (S (S lb)) by lia end.
  match goal with |- take _ (drop (Z.to_nat ?x) _) = _ => replace (Z.to_nat x) with la by lia end.
  rewrite <- app_assoc. unfold la. rewrite drop_app_length. simpl. f_equal.
  replace (b ++ 125%N :: c) with ((b ++ [125%N]) ++ c) by (by rewrite <- app_assoc).
  rewrite take_app_length'; [done | rewrite length_app; simpl; lia].
Qed.

End Cleaning.

(** ** Sorting *)

Section Sorting.
Context {A : Type} (key : A -> number).

Let gt (a b : A) : bool := minus_positive (key a) (key b).
Let le (a b : A) : Prop := numLe (key a) (key b).

Lemma numLe_trans (x y z : number) : numLe x y -> numLe y z -> numLe x z.
Proof. destruct x, y, z; simpl; try done. lia. Qed.

Lemma minus_positive_false (x y : number) : minus_positive x y = false -> numLe x y.
Proof. destruct x, y; simpl; try done. intros ?%N.ltb_ge. done. Qed.

Lemma minus_positive_true (x y : number) : minus_positive x y = true -> numLe y x.
Proof. destruct x, y; simpl; try done. intros ?%N.ltb_lt. lia. Qed.

Lemma insert_perm (x : A) (l : list A) : insert gt x l ≡ₚ x :: l.
Proof.
  induction l as [|y l IH]; simpl; [done|].
  destruct (gt x y); [|done]. rewrite IH. apply Permutation_swap.
Qed.

Lemma Array_sort_perm (l : list A) : Array_sort gt l ≡ₚ l.
Proof.
  induction l as [|x l IH]; simpl; [done|].
  unfold Array_sort in *. simpl. rewrite insert_perm. by rewrite IH.
Qed.

Lemma insert_sorted (x : A) (l : list A) :
  StronglySorted le l -> StronglySorted le (insert gt x l).
Proof.
  induction 1 as [|y l Hl IH Hy]; simpl.
  - repeat constructor.
  - destruct (gt x y) eqn:Hxy.
    + constructor; [done|].
      rewrite insert_perm. constructor; [|done].
      by apply minus_positive_true.
    + apply minus_positive_false in Hxy.
      constructor; [by constructor|]. constructor; [done|].
      eapply Forall_impl; [exact Hy|]. intros z Hz. by eapply numLe_trans.
Qed.

Lemma Array_sort_sorted (l : list A) : StronglySorted le (Array_sort gt l).
Proof.
  induction l as [|x l IH]; [constructor|].
  unfold Array_sort in *. simpl. by apply insert_sorted.
Qed.

End Sorting.

(** ** Text Normalizer *)

Example cleanGeminiJSON_fenced_object :
  cleanGeminiJSON (js "```json" ++ [10%N] ++ js "{ x }" ++ [10%N] ++ js "```") = js "{ x }".
Proof. reflexivity. Qed.

(** When the last closing brace comes first, [substring] swaps its
    arguments and the text between the two braces is kept. *)
Example cleanGeminiJSON_swapped : cleanGeminiJSON (js "} abc {") = js "abc".
Proof. reflexivity. Qed.

(** A body without braces that ends in a fence of its own loses that
    fence only when it is cleaned unwrapped. *)
Example cleanGeminiJSON_inner_fence :
  cleanGeminiJSON (fenced (js "[1]```")) = js "[1]```" ∧ cleanGeminiJSON (js "[1]```") = js "[1]".
Proof. split; reflexivity. Qed.

(** The empty body, which is no JSON text: the fenced text cleans to the
    empty string, the unwrapped text to the default object. *)
Lemma cleanGeminiJSON_fenced_empty :
  cleanGeminiJSON (fenced []) = [] ∧ cleanGeminiJSON [] = js "{}"
  ∧ cleanGeminiJSON (fenced []) ≠ cleanGeminiJSON [].
Proof. repeat split. discriminate. Qed.

(** ** Reel Assembler: the merge list *)

Section ReelFiles.

Lemma startsWith_i_app (p r : jsstring) : startsWith_i (p ++ r) p = true.
Proof. induction p as [|c p IH]; simpl; [done|]. by rewrite N.eqb_refl. Qed.

Lemma take_drop_while {A} (p : A -> bool) (l : list A) :
  l = JSON.take_while p l ++ drop_while p l
  ∧ Forall (fun x => p x = true) (JSON.take_while p l)
  ∧ (∀ x r, drop_while p l = x :: r -> p x = false).
Proof.
  induction l as [|x l (IH1 & IH2 & IH3)]; simpl.
  - repeat split; [constructor | done].
  - destruct (p x) eqn:Hp; simpl.
    + repeat split; [by f_equal | by constructor | done].
    + repeat split; [constructor | by intros ? ? [= <- <-]].
Qed.

Lemma take_while_app {A} (p : A -> bool) (l : list A) (x : A) (r : list A) :
  Forall (fun y => p y = true) l -> p x = false ->
  JSON.take_while p (l ++ x :: r) = l ∧ drop_while p (l ++ x :: r) = x :: r.
Proof.
  intros Hl Hx. induction Hl as [|y l Hy _ [IH1 IH2]]; simpl.
  - by rewrite Hx.
  - rewrite Hy. by rewrite IH1, IH2.
Qed.

Lemma startsWith_i_length (s pat : jsstring) :
  startsWith_i s pat = true -> length pat <= length s.
Proof.
  revert s. induction pat as [|p pat IH]; intros s; simpl; [lia|].
  destruct s as [|c s]; [done|]. intros [_ Hs]%andb_true_iff. apply IH in Hs. simpl. lia.
Qed.

Lemma startsWith_i_prefix (p r pat : jsstring) :
  length p = length pat -> startsWith_i (p ++ r) pat = startsWith_i p pat.
Proof.
  revert p. induction pat as [|x pat IH]; intros p Hlen; simpl; [done|].
  destruct p as [|c p]; [done|]. simpl. f_equal. apply IH. simpl in Hlen. lia.
Qed.

Lemma startsWith_i_take_eq (s pat : jsstring) :
  startsWith_i s pat = true -> eq_i (take (length pat) s) pat = true.
Proof.
  intros Hs. unfold eq_i. pose proof (startsWith_i_length _ _ Hs) as Hlen.
  rewrite length_take, Nat.min_l by done. rewrite Nat.eqb_refl. simpl.
  rewrite <- (take_drop (length pat) s) in Hs.
  rewrite startsWith_i_prefix in Hs; [done|]. rewrite length_take. lia.
Qed.

(** The names the pattern accepts: reel_, the language, one or more
    decimal digits and .mp4, letters in either case. *)
Lemma matchReel_spec (language file digits : jsstring) :
  matchReel language file = Some digits
  <-> ∃ p s,
        file = p ++ digits ++ s
        ∧ eq_i p (js "reel_" ++ language) = true
        ∧ digits ≠ []
        ∧ Forall (fun c => JSON.isDigit c = true) digits
        ∧ eq_i s (js ".mp4") = true.
Proof.
  unfold matchReel. set (prefix := js "reel_" ++ language). split.
  - destruct (startsWith_i file prefix) eqn:Hp; [|done].
    destruct (take_drop_while JSON.isDigit (drop (length prefix) file)) as (Hsplit & Hds & _).
    destruct (JSON.take_while JSON.isDigit (drop (length prefix) file)) as [|d ds] eqn:Htake;
      [done|].
    destruct (eq_i (drop_while JSON.isDigit (drop (length prefix) file)) (js ".mp4")) eqn:Hs;
      [|done].
    intros [= <-].
    exists (take (length prefix) file), (drop_while JSON.isDigit (drop (length prefix) file)).
    repeat split; try done.
    + rewrite <- Hsplit. by rewrite take_drop.
    + by apply startsWith_i_take_eq.
  - intros (p & s & -> & Hp & Hne & Hds & Hs).
    unfold eq_i in Hp. apply andb_true_iff in Hp as [Hlen Hp]. apply Nat.eqb_eq in Hlen.
    rewrite startsWith_i_prefix, Hp by done.
    rewrite <- Hlen, drop_app_length.
    destruct s as [|c s]; [done|].
    assert (Hc : JSON.isDigit c = false).
    { unfold eq_i in Hs. apply andb_true_iff in Hs as [_ Hs].
      change (js ".mp4") with (46%N :: js "mp4") in Hs. simpl in Hs.
      apply andb_true_iff in Hs as [Hc _]. apply N.eqb_eq in Hc.
      unfold toASCIIUpper in Hc. unfold JSON.isDigit.
      destruct ((97 <=? c)%N && (c <=? 122)%N) eqn:Hrange.
      - apply andb_true_iff in Hrange as [?%N.leb_le ?%N.leb_le].
        apply andb_false_iff. right. apply N.leb_gt. lia.
      - subst c. done. }
    destruct (take_while_app JSON.isDigit digits c s Hds Hc) as [-> ->].
    rewrite Hs. by destruct digits.
Qed.

(** The name [generateTTS] gives to the captioned clip of an item is a
    reel of its language, numbered by its digits. *)
Lemma matchReel_name (language digits : jsstring) :
  digits ≠ [] -> Forall (fun c => JSON.isDigit c = true) digits ->
  matchReel language (js "reel_" ++ language ++ digits ++ js ".mp4") = Some digits.
Proof.
  intros Hne Hds. unfold matchReel.
  rewrite (app_assoc (js "reel_")), startsWith_i_app, drop_app_length.
  change (js ".mp4") with (46%N :: js "mp4").
  destruct (take_while_app JSON.isDigit digits 46%N (js "mp4") Hds eq_refl) as [-> ->].
  by destruct digits.
Qed.

(** An integer below 2^53 is parsed exactly. *)
Lemma toDouble_exact (n : N) : (n < 2 ^ 53)%N -> toDouble n = Finite n.
Proof.
  intros Hn. unfold toDouble.
  destruct (N.leb_spec (N.size n) 53) as [|Hs]; [done|].
  exfalso. destruct (N.eq_dec n 0%N) as [->|Hn0]; [simpl in Hs; lia|].
  rewrite N.size_log2 in Hs by done.
  assert (N.log2 n < 53)%N by (apply N.log2_lt_pow2; lia). lia.
Qed.

(** Two code units have the same upper-case form exactly when they are
    the same unit or the two cases of one Basic Latin letter. *)
Lemma toASCIIUpper_sameCase (c p : N) :
  toASCIIUpper c = toASCIIUpper p <-> sameCase c p.
Proof.
  unfold toASCIIUpper, sameCase.
  destruct (N.leb_spec 97 c), (N.leb_spec c 122), (N.leb_spec 97 p), (N.leb_spec p 122);
    simpl; lia.
Qed.

Lemma startsWith_i_anyCase (s pat : jsstring) :
  length s = length pat -> startsWith_i s pat = true <-> anyCase s pat.
Proof.
  unfold anyCase. revert s. induction pat as [|p pat IH]; intros [|c s] Hlen;
    try discriminate Hlen; simpl.
  - split; [constructor | done].
  - simpl in Hlen. rewrite andb_true_iff, N.eqb_eq, toASCIIUpper_sameCase, IH by lia.
    split; [intros [? ?]; by constructor | by inversion 1].
Qed.

Lemma eq_i_anyCase (s pat : jsstring) : eq_i s pat = true <-> anyCase s pat.
Proof.
  unfold eq_i. rewrite andb_true_iff, Nat.eqb_eq. split.
  - intros [Hlen Hs]. by apply startsWith_i_anyCase.
  - intros Hs. pose proof (Forall2_length _ _ _ Hs) as Hlen.
    split; [done | by apply startsWith_i_anyCase].
Qed.

Lemma isDigit_spec (c : N) : JSON.isDigit c = true <-> (48 <= c <= 57)%N.
Proof. unfold JSON.isDigit. rewrite andb_true_iff, !N.leb_le. done. Qed.

(** The digit loop of [parseInt] computes the number the digits denote. *)
Lemma fold_decimal (digits : jsstring) (acc : N) :
  fold_left (fun acc d => (acc * 10 + (d - 48))%N) digits acc
  = (acc * 10 ^ N.of_nat (length digits) + decimal digits)%N.
Proof.
  revert acc. induction digits as [|d digits IH]; intros acc.
  - simpl. lia.
  - cbn [fold_left decimal length]. rewrite IH, Nat2N.inj_succ, N.pow_succ_r'. lia.
Qed.

Lemma parseInt_decimal (digits : jsstring) : parseInt digits = toDouble (decimal digits).
Proof. unfold parseInt. by rewrite fold_decimal. Qed.

(** The pattern of the code matches exactly the reel names of the
    language, and captures their digits. *)
Lemma matchReel_reelOf (language file : jsstring) (n : N) :
  reelOf language file n
  <-> ∃ digits, matchReel language file = Some digits ∧ n = decimal digits.
Proof.
  unfold reelOf. split.
  - intros (p & digits & s & Hfile & Hp & Hne & Hds & Hs & Hn).
    exists digits. split; [|done]. apply matchReel_spec. exists p, s.
    repeat split; try done; try (by apply eq_i_anyCase).
    eapply Forall_impl; [exact Hds|]. intros c Hc. by apply isDigit_spec.
  - intros (digits & (p & s & Hfile & Hp & Hne & Hds & Hs)%matchReel_spec & Hn).
    exists p, digits, s. repeat split; try done; try (by apply eq_i_anyCase).
    eapply Forall_impl; [exact Hds|]. intros c Hc. by apply isDigit_spec.
Qed.

Lemma isReel_reelOf (language file : jsstring) :
  isReel language file = true <-> ∃ n, reelOf language file n.
Proof.
  unfold isReel. rewrite bool_decide_eq_true. split.
  - intros [digits Hm]. exists (decimal digits). apply matchReel_reelOf. by exists digits.
  - intros (n & Hn). apply matchReel_reelOf in Hn as (digits & Hm & _). by exists digits.
Qed.

Lemma reelNumber_reelOf (language file : jsstring) (n : N) :
  reelOf language file n -> reelNumber language file = toDouble n.
Proof.
  intros Hn. apply matchReel_reelOf in Hn as (digits & Hm & ->).
  unfold reelNumber. rewrite Hm. simpl.
  apply parseInt_decimal.
Qed.

(** A sorted list is sorted for any order that holds between its
    elements wherever the first does. *)
Lemma StronglySorted_weaken {A} (R S : A -> A -> Prop) (l : list A) :
  (∀ a b, a ∈ l -> b ∈ l -> R a b -> S a b) -> StronglySorted R l -> StronglySorted S l.
Proof.
  intros HRS Hl. induction Hl as [|a l _ IH Ha]; constructor.
  - apply IH. intros x y Hx Hy. apply HRS; by right.
  - rewrite Forall_forall in Ha |- *. intros b Hb.
    apply HRS; [by left | by right | by apply Ha].
Qed.

End ReelFiles.

Section MergeOrder.
Context (w : World).

(** C7: for a language name made of letters, in an existing directory,
    [getAllVideos] returns the paths of exactly the entries whose name
    reads reel_{language}{n}.mp4, the case of the letters apart, n being
    one or more decimal digits; it returns them in ascending order of the
    number n as [parseInt] reads it, which is the order of the numbers
    themselves when they are below 2^53. The merge list of the language
    is the intro clip, these paths and the outro clip, in this order,
    each kept when it exists. *)
Theorem getAllVideos_sorted (folderPath language : jsstring) (st : State)
    (listing : list jsstring) :
  lettersOnly language ->
  folderPath ∈ files st ->
  readdirSync w st folderPath = Returned listing ->
  ∃ sorted keep,
    getAllVideos w folderPath language st = (Returned (path_join w folderPath <$> sorted), st)
    ∧ (∀ file, keep file = true <-> ∃ n, reelOf language file n)
    ∧ sorted ≡ₚ List.filter keep listing
    ∧ StronglySorted
        (fun a b => ∀ n m, reelOf language a n -> reelOf language b m ->
                           numLe (toDouble n) (toDouble m)) sorted
    ∧ ((∀ file n, file ∈ listing -> reelOf language file n -> (n < 2 ^ 53)%N) ->
       StronglySorted
         (fun a b => ∀ n m, reelOf language a n -> reelOf language b m -> (n <= m)%N) sorted)
    ∧ allVideos w folderPath language st
      = (Returned (List.filter (fun p => bool_decide (p ∈ files st))
                     ([intro w] ++ (path_join w folderPath <$> sorted) ++ [outro w])), st)
    ∧ (intro w ∈ files st -> outro w ∈ files st ->
       (∀ file, file ∈ listing -> path_join w folderPath file ∈ files st) ->
       allVideos w folderPath language st
       = (Returned ([intro w] ++ (path_join w folderPath <$> sorted) ++ [outro w]), st)).
Proof.
  intros _ Hdir Hread.
  set (sorted := Array_sort
                   (fun a b => minus_positive (reelNumber language a) (reelNumber language b))
                   (List.filter (isReel language) listing)).
  assert (Hget : getAllVideos w folderPath language st
                 = (Returned (path_join w folderPath <$> sorted), st)).
  { unfold getAllVideos. run. rewrite bool_decide_true by done. by rewrite Hread. }
  assert (Hperm : sorted ≡ₚ List.filter (isReel language) listing)
    by apply (Array_sort_perm (reelNumber language)).
  assert (Hlisted : ∀ file, file ∈ sorted -> file ∈ listing).
  { intros file Hfile. rewrite Hperm in Hfile.
    apply list_elem_of_In, filter_In in Hfile as [Hfile _]. by apply list_elem_of_In. }
  assert (Hall : allVideos w folderPath language st
      = (Returned (List.filter (fun p => bool_decide (p ∈ files st))
                     ([intro w] ++ (path_join w folderPath <$> sorted) ++ [outro w])), st)).
  { unfold allVideos. unfold mbind at 1, M_bind. by rewrite Hget. }
  assert (Hsorted : StronglySorted
            (fun a b => ∀ n m, reelOf language a n -> reelOf language b m ->
                               numLe (toDouble n) (toDouble m)) sorted).
  { eapply StronglySorted_weaken; [|apply (Array_sort_sorted (reelNumber language))].
    intros a b _ _ Hab n m Ha Hb.
    by rewrite <- (reelNumber_reelOf _ _ _ Ha), <- (reelNumber_reelOf _ _ _ Hb). }
  exists sorted, (isReel language). repeat split; try done.
  - by intros ?%isReel_reelOf.
  - by intros ?%isReel_reelOf.
  - intros Hsmall. eapply StronglySorted_weaken; [|exact Hsorted].
    intros a b Ha Hb Hab n m Hn Hm. specialize (Hab n m Hn Hm).
    rewrite !toDouble_exact in Hab; [done | |].
    + eapply Hsmall; [|exact Hm]. by apply Hlisted.
    + eapply Hsmall; [|exact Hn]. by apply Hlisted.
  - intros Hi Ho Hfiles. rewrite Hall. do 2 f_equal.
    apply forallb_filter_id. apply forallb_forall. intros p Hp.
    apply bool_decide_eq_true. apply list_elem_of_In in Hp.
    rewrite !elem_of_app, !list_elem_of_singleton in Hp.
    destruct Hp as [-> | [Hp | ->]]; try done.
    apply list_elem_of_fmap in Hp as (file & -> & Hfile).
    by apply Hfiles, Hlisted.
Qed.
End MergeOrder.

Lemma getAllVideos_sorted_witness :
  ∃ sorted keep,
    getAllVideos Sample.world Sample.outputDir (js "english") Sample.assembled
    = (Returned (path_join Sample.world Sample.outputDir <$> sorted), Sample.assembled)
    ∧ (∀ file, keep file = true <-> ∃ n, reelOf (js "english") file n)
    ∧ sorted ≡ₚ List.filter keep Sample.listing
    ∧ StronglySorted
        (fun a b => ∀ n m, reelOf (js "english") a n -> reelOf (js "english") b m ->
                           (n <= m)%N) sorted
    ∧ allVideos Sample.world Sample.outputDir (js "english") Sample.assembled
      = (Returned ([intro Sample.world]
                   ++ (path_join Sample.world Sample.outputDir <$> sorted)
                   ++ [outro Sample.world]), Sample.assembled).
Proof.
  destruct (getAllVideos_sorted Sample.world Sample.outputDir (js "english")
              Sample.assembled Sample.listing)
    as (sorted & keep & Hget & Hkeep & Hperm & _ & Hsorted & _ & Hall).
  - by_compute.
  - by_compute.
  - reflexivity.
  - exists sorted, keep. repeat split; try assumption; try (by apply Hkeep).
    + apply Hsorted. intros file n Hfile Hn.
      apply matchReel_reelOf in Hn as (digits & Hm & ->).
      assert (Hsmall : Forall (fun file => ∀ digits,
                                 matchReel (js "english") file = Some digits ->
                                 (decimal digits < 2 ^ 53)%N) Sample.listing)
        by (repeat constructor; intros ds Hds; vm_compute in Hds;
            try discriminate Hds; by injection Hds as <-).
      rewrite Forall_forall in Hsmall. by apply (Hsmall file).
    + apply Hall; [by_compute | by_compute | apply Forall_forall; by_compute].
Defined.

Example allVideos_english :
  fst (allVideos Sample.world Sample.outputDir (js "english") Sample.assembled)
  = Returned [ js "/app/assests/REELS/Reel_1.mp4";
               js "/app/output/2025-01-01/REEL_English1.MP4";
               js "/app/output/2025-01-01/reel_english2.mp4";
               js "/app/output/2025-01-01/reel_english10.mp4";
               js "/app/assests/REELS/Reel_5.mp4" ].
Proof. vm_compute. reflexivity. Qed.

(** ** JSON.parse *)

Example parse_nested :
  JSON.parse (js "{" ++ Sample.quoted "India" ++ js ": [1, {}, []], "
              ++ Sample.quoted "tags" ++ js ": null} ")
  = Some (JSON.Object
            [ (js "India", JSON.Array [JSON.Number (js "1"); JSON.Object []; JSON.Array []]);
              (js "tags", JSON.Null) ]).
Proof. vm_compute. reflexivity. Qed.

Example parse_duplicate_key :
  (v ← JSON.parse (js "{" ++ Sample.quoted "a" ++ js ":1," ++ Sample.quoted "a" ++ js ":2}");
   JSON.get v (js "a"))
  = Some (JSON.Number (js "2")).
Proof. vm_compute. reflexivity. Qed.

Example parse_escape :
  JSON.parse (Sample.quoted "India\n") = Some (JSON.Str (js "India" ++ [10%N])).
Proof. vm_compute. reflexivity. Qed.

Example parse_syntax_errors :
  JSON.parse (js "[1,]") = None ∧ JSON.parse (js "[01]") = None
  ∧ JSON.parse (js "{} x") = None ∧ JSON.parse [] = None.
Proof. vm_compute. repeat split. Qed.

(** ** Fenced responses *)

Section Fenced.

Lemma solid_spec (c : N) : solid c = true -> isWhiteSpace c = false ∧ c ≠ 96%N.
Proof.
  unfold solid. intros [Hw Hc]%andb_true_iff.
  apply negb_true_iff in Hw. apply negb_true_iff, N.eqb_neq in Hc. done.
Qed.

Lemma whiteSpace_not_backtick (c : N) : isWhiteSpace c = true -> c ≠ 96%N.
Proof. intros Hc ->. discriminate Hc. Qed.

Lemma drop_while_all {A} (p : A -> bool) (pre l : list A) :
  Forall (fun x => p x = true) pre -> drop_while p (pre ++ l) = drop_while p l.
Proof. induction 1 as [|x pre Hx _ IH]; simpl; [done|]. by rewrite Hx. Qed.

Lemma trim_padded (pre core post : jsstring) :
  Forall (fun c => isWhiteSpace c = true) pre ->
  Forall (fun c => isWhiteSpace c = true) post ->
  (∃ c r, core = c :: r ∧ solid c = true) ->
  (∃ r c, core = r ++ [c] ∧ solid c = true) ->
  trim (pre ++ core ++ post) = core.
Proof.
  intros Hpre Hpost (c & r & Hhead & [Hc _]%solid_spec) (r' & d & Hlast & [Hd _]%solid_spec).
  unfold trim, trimStart, trimEnd.
  rewrite drop_while_all by done.
  assert (H1 : drop_while isWhiteSpace (core ++ post) = core ++ post)
    by (rewrite Hhead; simpl; by rewrite Hc).
  assert (H2 : drop_while isWhiteSpace (reverse core) = reverse core)
    by (rewrite Hlast, reverse_snoc; simpl; by rewrite Hd).
  rewrite H1, reverse_app, drop_while_all by (by apply Forall_reverse).
  by rewrite H2, reverse_involutive.
Qed.

Lemma padded_nonempty (text : jsstring) : padded text -> text ≠ [].
Proof.
  intros (pre & core & post & -> & _ & _ & (c & r & -> & _) & _).
  by destruct pre.
Qed.

Lemma padded_head (text : jsstring) : padded text -> ∃ c r, text = c :: r ∧ c ≠ 96%N.
Proof.
  intros (pre & core & post & -> & Hpre & _ & (c & r & -> & [_ Hc]%solid_spec) & _).
  destruct Hpre as [|x pre Hx _].
  - by exists c, (r ++ post).
  - exists x, (pre ++ (c :: r) ++ post). split; [done | by apply whiteSpace_not_backtick].
Qed.

Lemma toASCIIUpper_backtick (c : N) : c ≠ 96%N -> (toASCIIUpper c =? toASCIIUpper 96)%N = false.
Proof.
  intros Hc. apply N.eqb_neq. change (toASCIIUpper 96) with 96%N. unfold toASCIIUpper.
  destruct (N.leb_spec 97 c), (N.leb_spec c 122); simpl; lia.
Qed.

(** The three removals leave alone a text that neither starts nor ends
    with a backtick. *)
Lemma unfenced_kept (core : jsstring) :
  (∃ c r, core = c :: r ∧ solid c = true) ->
  (∃ r c, core = r ++ [c] ∧ solid c = true) ->
  removeSuffix backticks (removePrefix backticks (removePrefix_i (js "```json") core)) = core.
Proof.
  intros (c & r & Hhead & [_ Hc]%solid_spec) (r' & d & Hlast & [_ Hd]%solid_spec).
  assert (H1 : removePrefix_i (js "```json") core = core).
  { unfold removePrefix_i. rewrite Hhead.
    change (js "```json") with (96%N :: js "``json"). simpl.
    by rewrite toASCIIUpper_backtick. }
  assert (H2 : removePrefix backticks core = core).
  { unfold removePrefix. rewrite Hhead.
    change backticks with (96%N :: js "``"). simpl.
    apply N.eqb_neq in Hc. by rewrite Hc. }
  rewrite H1, H2. unfold removeSuffix, endsWith. rewrite Hlast, reverse_snoc.
  change (reverse backticks) with (96%N :: js "``"). simpl.
  apply N.eqb_neq in Hd. by rewrite Hd.
Qed.

(** The removals undo the fence around a body that does not start with a
    backtick. *)
Lemma fenced_removed (body : jsstring) :
  (∃ c r, body = c :: r ∧ c ≠ 96%N) ->
  removeSuffix backticks
    (removePrefix backticks (removePrefix_i (js "```json") (trim (fenced body))))
  = body.
Proof.
  intros (c & r & Hbody & Hc).
  assert (Htrim : trim (fenced body) = fenced body).
  { unfold fenced.
    change (js "```json") with (96%N :: js "``json"). change (js "```") with (js "``" ++ [96%N]).
    rewrite !app_assoc. rewrite <- app_comm_cons. by apply trim_fixed. }
  rewrite Htrim.
  assert (H1 : removePrefix_i (js "```json") (fenced body) = body ++ backticks).
  { unfold removePrefix_i, fenced. by rewrite startsWith_i_app, drop_app_length. }
  rewrite H1.
  assert (H2 : removePrefix backticks (body ++ backticks) = body ++ backticks).
  { assert (Hs : startsWith (body ++ backticks) backticks = false).
    { rewrite Hbody. change backticks with (96%N :: js "``"). simpl.
      apply N.eqb_neq in Hc. by rewrite Hc. }
    unfold removePrefix. by rewrite Hs. }
  rewrite H2. unfold removeSuffix, endsWith.
  assert (Hs : startsWith (reverse (body ++ backticks)) (reverse backticks) = true).
  { apply startsWith_spec. exists (reverse body). by rewrite reverse_app. }
  rewrite Hs, length_app, Nat.add_sub. by rewrite take_app_length.
Qed.

(** Cleaning a text that lacks one of the two braces only strips and
    trims it. *)
Lemma cleanGeminiJSON_braceless (text : jsstring) :
  text ≠ [] -> 123%N ∉ text ∨ 125%N ∉ text ->
  cleanGeminiJSON text
  = trim (removeSuffix backticks
            (removePrefix backticks (removePrefix_i (js "```json") (trim text)))).
Proof.
  intros Hne Hbrace. unfold cleanGeminiJSON.
  destruct text as [|c0 text0] eqn:Htext; [done|].
  rewrite <- Htext in *. clear Htext c0 text0 Hne.
  set (cleaned := removeSuffix backticks
                    (removePrefix backticks (removePrefix_i (js "```json") (trim text)))).
  assert (Hf : frames text cleaned).
  { eapply frames_trans; [apply frames_trim|].
    eapply frames_trans; [apply frames_removePrefix_i|].
    eapply frames_trans; [apply frames_removePrefix|]. apply frames_removeSuffix. }
  assert (Habsent : 123%N ∉ cleaned ∨ 125%N ∉ cleaned).
  { clearbody cleaned. destruct Hf as (p & q & -> & _ & _).
    destruct Hbrace as [H | H]; [left | right]; intros Hin; apply H;
      rewrite !elem_of_app; auto. }
  change (js "{") with [123%N]. change (js "}") with [125%N].
  destruct Habsent as [H | H].
  - unfold indexOf. by rewrite indexOf_from_absent.
  - unfold lastIndexOf. rewrite lastIndexOf_from_absent by done.
    simpl. by rewrite andb_false_r.
Qed.

(** Wrapping in a fence a text that is not itself fenced does not change
    what cleaning yields. *)
Lemma cleanGeminiJSON_padded (body : jsstring) :
  padded body ->
  cleanGeminiJSON (fenced body) = cleanGeminiJSON body
  ∧ (123%N ∉ body ∨ 125%N ∉ body -> cleanGeminiJSON (fenced body) = trim body).
Proof.
  intros Hbody.
  pose proof (padded_nonempty _ Hbody) as Hne.
  pose proof (padded_head _ Hbody) as Hhead.
  destruct Hbody as (pre & core & post & Hsplit & Hpre & Hpost & Hc & Hd).
  assert (Htrim : trim body = core) by (rewrite Hsplit; by apply trim_padded).
  assert (Hcore : trim core = core).
  { pose proof (trim_padded [] core [] (Forall_nil_2 _) (Forall_nil_2 _) Hc Hd) as Ht.
    simpl in Ht. by rewrite app_nil_r in Ht. }
  assert (Hless : 123%N ∉ body ∨ 125%N ∉ body ->
                  cleanGeminiJSON (fenced body) = trim body
                  ∧ cleanGeminiJSON body = trim body).
  { intros Hbrace. split.
    - rewrite cleanGeminiJSON_braceless.
      + by rewrite fenced_removed.
      + unfold fenced. by destruct body.
      + unfold fenced. destruct Hbrace as [H | H]; [left | right];
          rewrite !elem_of_app; intros [Hin | [Hin | Hin]]; try done;
          vm_compute in Hin; set_unfold; destruct_or!; discriminate.
    - rewrite cleanGeminiJSON_braceless by done.
      by rewrite Htrim, unfenced_kept, Hcore. }
  split; [|by intros [? _]%Hless].
  destruct (decide (123%N ∈ body)) as [Ho|Ho]; [|destruct Hless as [-> ->]; auto].
  destruct (decide (125%N ∈ body)) as [Hcl|Hcl]; [|destruct Hless as [-> ->]; auto].
  rewrite !cleanGeminiJSON_braceSpan; try done.
  - f_equal. by apply braceSpan_frames; [apply fenced_frames | |].
  - unfold fenced. rewrite !elem_of_app. auto.
  - unfold fenced. rewrite !elem_of_app. auto.
Qed.

End Fenced.

Section Parsed.

Lemma endsSolid_here (c : N) (rest : jsstring) : solid c = true -> endsSolid (c :: rest) rest.
Proof. intros Hc. by exists [], c. Qed.

Lemma endsSolid_app (p s rest : jsstring) : endsSolid s rest -> endsSolid (p ++ s) rest.
Proof. intros (pre & c & -> & Hc). exists (p ++ pre), c. by rewrite <- app_assoc. Qed.

Lemma endsSolid_cons (x : N) (s rest : jsstring) : endsSolid s rest -> endsSolid (x :: s) rest.
Proof. apply (endsSolid_app [x]). Qed.

Lemma endsSolid_trans (a b c : jsstring) : endsSolid a b -> endsSolid b c -> endsSolid a c.
Proof. intros (pre & x & -> & _) Hb. by apply endsSolid_app, endsSolid_cons. Qed.

Lemma endsSolid_skip (s rest : jsstring) : endsSolid (JSON.skip s) rest -> endsSolid s rest.
Proof.
  intros H. destruct (drop_while_split JSON.isJSONSpace s) as (pre & Heq & _).
  rewrite Heq. by apply endsSolid_app.
Qed.

Lemma digit_solid (c : N) : JSON.isDigit c = true -> solid c = true.
Proof.
  unfold JSON.isDigit. intros [?%N.leb_le ?%N.leb_le]%andb_true_iff.
  assert (Hc : c ∈ [48; 49; 50; 51; 52; 53; 54; 55; 56; 57]%N).
  { set_unfold. lia. }
  set_unfold. destruct_or!; subst; done.
Qed.

Lemma push_Some (c : N) (r : option (jsstring * jsstring)) (str rest : jsstring) :
  JSON.push c r = Some (str, rest) -> ∃ str', r = Some (str', rest).
Proof.
  unfold JSON.push. destruct r as [[str' rest']|]; simpl; [|done].
  intros [= _ ->]. by exists str'.
Qed.

Lemma parse_string_ends (n : nat) (s str rest : jsstring) :
  length s <= n -> JSON.parse_string s = Some (str, rest) -> endsSolid s rest.
Proof.
  revert s str. induction n as [|n IH]; intros [|c r] str Hlen; simpl in Hlen; try lia;
    try done.
  cbn [JSON.parse_string].
  destruct (N.eqb_spec c 34) as [->|_]; [intros [= _ ->]; by apply endsSolid_here|].
  destruct (c =? 92)%N.
  - destruct r as [|e r']; [done|]. simpl in Hlen.
    destruct (e =? 117)%N.
    + destruct r' as [|h1 [|h2 [|h3 [|h4 r'']]]]; try done. simpl in Hlen.
      destruct (JSON.hexValue h1), (JSON.hexValue h2), (JSON.hexValue h3), (JSON.hexValue h4);
        try done.
      intros (str' & Hs)%push_Some. do 6 apply endsSolid_cons.
      apply (IH _ str'); [lia | done].
    + destruct (JSON.unescape e); [|done].
      intros (str' & Hs)%push_Some. do 2 apply endsSolid_cons.
      apply (IH _ str'); [lia | done].
  - destruct (c <? 32)%N; [done|].
    intros (str' & Hs)%push_Some. apply endsSolid_cons. apply (IH _ str'); [lia | done].
Qed.

Lemma take_while_nil {A} (p : A -> bool) (l : list A) :
  JSON.take_while p l = [] -> drop_while p l = l.
Proof. destruct l as [|x l]; simpl; [done|]. by destruct (p x). Qed.

Lemma take_while_last {A} (p : A -> bool) (l : list A) :
  JSON.take_while p l ≠ [] -> ∃ pre c, l = pre ++ c :: drop_while p l ∧ p c = true.
Proof.
  induction l as [|x l IH]; simpl; [done|].
  destruct (p x) eqn:Hx; [|done]. intros _.
  destruct (JSON.take_while p l) as [|y t] eqn:Ht.
  - exists [], x. by rewrite (take_while_nil _ _ Ht).
  - destruct IH as (pre & c & Heq & Hc); [done|].
    exists (x :: pre), c. split; [|done]. simpl. by rewrite <- Heq.
Qed.

Lemma digits_end (s : jsstring) :
  JSON.take_while JSON.isDigit s ≠ [] -> endsSolid s (drop_while JSON.isDigit s).
Proof.
  intros (pre & c & Heq & Hc)%take_while_last. exists pre, c. split; [done|].
  by apply digit_solid.
Qed.

Lemma digits_start (s : jsstring) :
  JSON.take_while JSON.isDigit s ≠ [] -> ∃ c r, s = c :: r ∧ solid c = true.
Proof.
  destruct s as [|c r]; simpl; [done|]. destruct (JSON.isDigit c) eqn:Hc; [|done].
  intros _. exists c, r. split; [done | by apply digit_solid].
Qed.

Lemma parse_number_ends (s lit rest : jsstring) :
  JSON.parse_number s = Some (lit, rest) ->
  endsSolid s rest ∧ ∃ c r, s = c :: r ∧ solid c = true.
Proof.
  unfold JSON.parse_number.
  set (signed := match s with
                 | c :: r => if (c =? 45)%N then ([c], r) else ([], s)
                 | [] => ([], s)
                 end).
  assert (Hsigned : s = signed.1 ++ signed.2
                    ∧ (signed.1 = [] ∨ signed.1 = [45%N])).
  { subst signed. destruct s as [|c r]; [by split; [|left]|].
    destruct (N.eqb_spec c 45) as [->|_]; simpl; split; auto. }
  destruct signed as [sign s1]. simpl in Hsigned. destruct Hsigned as [Hs Hsign].
  destruct (JSON.take_while JSON.isDigit s1) as [|d ds] eqn:Hint; [done|].
  assert (Hint' : JSON.take_while JSON.isDigit s1 ≠ []) by (by rewrite Hint).
  pose proof (digits_end _ Hint') as H1. pose proof (digits_start _ Hint') as H0.
  set (s2 := drop_while JSON.isDigit s1) in *.
  destruct ((d =? 48)%N && negb (bool_decide (ds = []))); [done|].
  set (fraction := match s2 with
                   | c :: r =>
                       if (c =? 46)%N then
                         match JSON.take_while JSON.isDigit r with
                         | [] => None
                         | f => Some (c :: f, drop_while JSON.isDigit r)
                         end
                       else Some ([], s2)
                   | [] => Some ([], s2)
                   end).
  assert (H2 : ∀ frac s3, fraction = Some (frac, s3) -> s3 = s2 ∨ endsSolid s2 s3).
  { subst fraction. intros frac s3. destruct s2 as [|c r]; [intros [= _ <-]; by left|].
    destruct (c =? 46)%N; [|intros [= _ <-]; by left].
    destruct (JSON.take_while JSON.isDigit r) as [|f fs] eqn:Hf; [done|].
    intros [= _ <-]. right. apply endsSolid_cons, digits_end. by rewrite Hf. }
  destruct fraction as [[frac s3]|]; [|done]. simpl.
  specialize (H2 frac s3 eq_refl).
  set (exponent := match s3 with
                   | c :: r =>
                       if ((c =? 101) || (c =? 69))%N then
                         let '(esign, r1) :=
                           match r with
                           | x :: r0 =>
                               if ((x =? 43) || (x =? 45))%N then ([x], r0) else ([], r)
                           | [] => ([], r)
                           end in
                         match JSON.take_while JSON.isDigit r1 with
                         | [] => None
                         | ds' => Some (c :: esign ++ ds', drop_while JSON.isDigit r1)
                         end
                       else Some ([], s3)
                   | [] => Some ([], s3)
                   end).
  assert (H3 : ∀ e s4, exponent = Some (e, s4) -> s4 = s3 ∨ endsSolid s3 s4).
  { subst exponent. intros e s4. destruct s3 as [|c r]; [intros [= _ <-]; by left|].
    destruct ((c =? 101) || (c =? 69))%N; [|intros [= _ <-]; by left].
    destruct r as [|x r0].
    - simpl. done.
    - destruct ((x =? 43) || (x =? 45))%N.
      + destruct (JSON.take_while JSON.isDigit r0) as [|f fs] eqn:Hf; [done|].
        intros [= _ <-]. right. do 2 apply endsSolid_cons. apply digits_end. by rewrite Hf.
      + destruct (JSON.take_while JSON.isDigit (x :: r0)) as [|f fs] eqn:Hf; [done|].
        intros [= _ <-]. right. apply endsSolid_cons. apply digits_end. by rewrite Hf. }
  destruct exponent as [[e s4]|]; [|done]. simpl. intros [= _ <-].
  specialize (H3 e s4 eq_refl).
  split.
  - rewrite Hs. apply endsSolid_app.
    destruct H2 as [-> | H2], H3 as [-> | H3]; try done.
    + by apply endsSolid_trans with s2.
    + by apply endsSolid_trans with s2.
    + apply endsSolid_trans with s2; [done|]. by apply endsSolid_trans with s3.
  - destruct H0 as (c & r & -> & Hc). destruct Hsign as [-> | ->].
    + by exists c, r.
    + by exists 45%N, (c :: r).
Qed.

Section Nested.
Context (parse_value : jsstring -> option (JSON.value * jsstring)).
Hypothesis Hends : ∀ s v rest, parse_value s = Some (v, rest) -> endsSolid s rest.

Lemma parse_elements_ends (n : nat) (s : jsstring) (vs : list JSON.value) (rest : jsstring) :
  JSON.parse_elements parse_value n s = Some (vs, rest) -> endsSolid s rest.
Proof.
  revert s vs. induction n as [|n IH]; intros s vs; simpl; [done|].
  destruct (parse_value s) as [[v r]|] eqn:Hv; [|done]. simpl.
  apply Hends in Hv.
  destruct (JSON.skip r) as [|c r'] eqn:Hskip; [done|].
  assert (Hr : ∃ pre, r = pre ++ c :: r').
  { destruct (drop_while_split JSON.isJSONSpace r) as (pre & Heq & _).
    exists pre. by rewrite <- Hskip. }
  destruct Hr as (pre & ->).
  destruct (c =? 44)%N.
  - destruct (JSON.parse_elements parse_value n r') as [[vs' r'']|] eqn:Hrest; [|done].
    simpl. intros [= _ <-]. apply IH in Hrest.
    apply endsSolid_trans with (pre ++ c :: r'); [done|].
    by apply endsSolid_app, endsSolid_cons.
  - destruct (N.eqb_spec c 93) as [->|_]; [|done]. intros [= _ <-].
    destruct Hv as (p & x & -> & _). exists (p ++ x :: pre), 93%N.
    split; [by rewrite <- app_assoc | done].
Qed.

Lemma parse_members_ends (n : nat) (s : jsstring) (ms : list (jsstring * JSON.value))
    (rest : jsstring) :
  JSON.parse_members parse_value n s = Some (ms, rest) -> endsSolid s rest.
Proof.
  revert s ms. induction n as [|n IH]; intros s ms; simpl; [done|].
  intros H. apply endsSolid_skip. revert H.
  destruct (JSON.skip s) as [|q r0]; [done|].
  destruct (q =? 34)%N; [|done].
  destruct (JSON.parse_string r0) as [[key r1]|] eqn:Hkey; [|done]. simpl.
  apply (parse_string_ends (length r0)) in Hkey; [|done].
  intros H. apply endsSolid_cons. apply endsSolid_trans with r1; [done|].
  apply endsSolid_skip. revert H.
  destruct (JSON.skip r1) as [|colon r2]; [done|].
  destruct (colon =? 58)%N; [|done].
  destruct (parse_value r2) as [[v r3]|] eqn:Hv; [|done]. simpl.
  apply Hends in Hv.
  intros H. apply endsSolid_cons. revert H.
  destruct (JSON.skip r3) as [|c r4] eqn:Hskip; [done|].
  assert (Hr : ∃ pre, r3 = pre ++ c :: r4).
  { destruct (drop_while_split JSON.isJSONSpace r3) as (pre & Heq & _).
    exists pre. by rewrite <- Hskip. }
  destruct Hr as (pre & ->).
  destruct (c =? 44)%N.
  - destruct (JSON.parse_members parse_value n r4) as [[ms' r5]|] eqn:Hrest; [|done].
    simpl. intros [= _ <-]. apply IH in Hrest.
    apply endsSolid_trans with (pre ++ c :: r4); [done|].
    by apply endsSolid_app, endsSolid_cons.
  - destruct (N.eqb_spec c 125) as [->|_]; [|done]. intros [= _ <-].
    destruct Hv as (p & x & -> & _). exists (p ++ x :: pre), 125%N.
    split; [by rewrite <- app_assoc | done].
Qed.
End Nested.

Lemma startsWith_drop (s pat : jsstring) :
  startsWith s pat = true -> s = pat ++ drop (length pat) s.
Proof. intros (rest & ->)%startsWith_spec. by rewrite drop_app_length. Qed.

Lemma parse_value_ends (depth : nat) (s : jsstring) (v : JSON.value) (rest : jsstring) :
  JSON.parse_value depth s = Some (v, rest) -> endsSolid s rest.
Proof.
  revert s v rest. induction depth as [|depth IH]; intros s v rest; [done|].
  cbn [JSON.parse_value]. intros H. apply endsSolid_skip. revert H.
  destruct (JSON.skip s) as [|c r]; [done|].
  destruct (c =? 123)%N.
  { destruct (JSON.skip r) as [|c' r'] eqn:Hskip; [done|].
    destruct (N.eqb_spec c' 125) as [->|_].
    - intros [= _ <-]. apply endsSolid_cons, endsSolid_skip. rewrite Hskip.
      by apply endsSolid_here.
    - destruct (JSON.parse_members _ _ r) as [[ms rest']|] eqn:Hms; [|done].
      simpl. intros [= _ <-]. apply endsSolid_cons.
      eapply parse_members_ends; [|exact Hms]. intros ? ? ?. apply IH. }
  destruct (c =? 91)%N.
  { destruct (JSON.skip r) as [|c' r'] eqn:Hskip; [done|].
    destruct (N.eqb_spec c' 93) as [->|_].
    - intros [= _ <-]. apply endsSolid_cons, endsSolid_skip. rewrite Hskip.
      by apply endsSolid_here.
    - destruct (JSON.parse_elements _ _ r) as [[vs rest']|] eqn:Hvs; [|done].
      simpl. intros [= _ <-]. apply endsSolid_cons.
      eapply parse_elements_ends; [|exact Hvs]. intros ? ? ?. apply IH. }
  destruct (c =? 34)%N.
  { destruct (JSON.parse_string r) as [[str rest']|] eqn:Hstr; [|done].
    simpl. intros [= _ <-]. apply endsSolid_cons.
    by apply (parse_string_ends (length r)) in Hstr. }
  destruct (startsWith (c :: r) (js "true")) eqn:Ht.
  { intros [= _ <-]. apply startsWith_drop in Ht. rewrite Ht at 1.
    change (js "true") with (js "tru" ++ [101%N]). rewrite <- app_assoc.
    by apply endsSolid_app, endsSolid_here. }
  destruct (startsWith (c :: r) (js "false")) eqn:Hf.
  { intros [= _ <-]. apply startsWith_drop in Hf. rewrite Hf at 1.
    change (js "false") with (js "fals" ++ [101%N]). rewrite <- app_assoc.
    by apply endsSolid_app, endsSolid_here. }
  destruct (startsWith (c :: r) (js "null")) eqn:Hn.
  { intros [= _ <-]. apply startsWith_drop in Hn. rewrite Hn at 1.
    change (js "null") with (js "nul" ++ [108%N]). rewrite <- app_assoc.
    by apply endsSolid_app, endsSolid_here. }
  destruct (JSON.parse_number (c :: r)) as [[lit rest']|] eqn:Hnum; [|done].
  simpl. intros [= _ <-]. by apply parse_number_ends in Hnum as [? _].
Qed.

Lemma parse_value_starts (depth : nat) (s : jsstring) (v : JSON.value) (rest : jsstring) :
  JSON.parse_value depth s = Some (v, rest) ->
  ∃ c r, JSON.skip s = c :: r ∧ solid c = true.
Proof.
  destruct depth as [|depth]; [done|]. cbn [JSON.parse_value].
  destruct (JSON.skip s) as [|c r]; [done|]. intros H. exists c, r. split; [done|].
  revert H.
  destruct (N.eqb_spec c 123) as [->|_]; [done|].
  destruct (N.eqb_spec c 91) as [->|_]; [done|].
  destruct (N.eqb_spec c 34) as [->|_]; [done|].
  destruct (startsWith (c :: r) (js "true")) eqn:Ht.
  { apply startsWith_spec in Ht as (? & Ht). by injection Ht as -> _. }
  destruct (startsWith (c :: r) (js "false")) eqn:Hf.
  { apply startsWith_spec in Hf as (? & Hf). by injection Hf as -> _. }
  destruct (startsWith (c :: r) (js "null")) eqn:Hn.
  { apply startsWith_spec in Hn as (? & Hn). by injection Hn as -> _. }
  destruct (JSON.parse_number (c :: r)) as [[lit rest']|] eqn:Hnum; [|done].
  intros _. apply parse_number_ends in Hnum as [_ (c' & r' & [= <- <-] & Hc)]. done.
Qed.

Lemma JSONSpace_whiteSpace (c : N) : JSON.isJSONSpace c = true -> isWhiteSpace c = true.
Proof.
  unfold JSON.isJSONSpace. intros H.
  repeat apply orb_true_iff in H as [H | H]; apply N.eqb_eq in H; by subst.
Qed.

(** A text that parses as JSON starts and ends, white space apart, with a
    code unit that is not a backtick. *)
Lemma parse_padded (text : jsstring) : isJSON text -> padded text.
Proof.
  intros [v Hparse]. unfold JSON.parse in Hparse.
  destruct (JSON.parse_value (S (length text)) text) as [[v' rest]|] eqn:Hv; [|done].
  simpl in Hparse. destruct (JSON.skip rest) eqn:Hrest; [|done].
  pose proof (parse_value_ends _ _ _ _ Hv) as (pre & cl & Hend & Hcl).
  pose proof (parse_value_starts _ _ _ _ Hv) as (c0 & r0 & Hskip & Hc0).
  destruct (drop_while_split JSON.isJSONSpace text) as (ws1 & Hstart & Hws1).
  fold (JSON.skip text) in Hstart. rewrite Hskip in Hstart.
  destruct (drop_while_split JSON.isJSONSpace rest) as (ws2 & Hrest' & Hws2).
  fold (JSON.skip rest) in Hrest'. rewrite Hrest, app_nil_r in Hrest'. subst ws2.
  assert (Hw : ∀ l, Forall (fun c => JSON.isJSONSpace c = true) l ->
                    Forall (fun c => isWhiteSpace c = true) l).
  { intros l Hl. eapply Forall_impl; [exact Hl|]. apply JSONSpace_whiteSpace. }
  assert (Hcore : ∃ mid, c0 :: r0 = mid ++ cl :: rest).
  { rewrite Hend in Hstart. symmetry in Hstart.
    apply app_eq_inv in Hstart as [(k & Hk1 & Hk2) | (k & Hk1 & Hk2)].
    - destruct k as [|x k].
      + exists []. by rewrite Hk2.
      + exfalso. injection Hk2 as <- _. subst ws1.
        apply Forall_app in Hws1 as [_ Hws1]. apply Forall_cons in Hws1 as [Hx _].
        apply JSONSpace_whiteSpace in Hx. apply solid_spec in Hcl as [Hcl _]. congruence.
    - by exists k. }
  destruct Hcore as (mid & Hcore).
  exists ws1, (mid ++ [cl]), rest. repeat split.
  - rewrite Hstart, Hcore. by rewrite <- !app_assoc.
  - by apply Hw.
  - by apply Hw.
  - destruct mid as [|x mid].
    + injection Hcore as -> _. by exists cl, [].
    + injection Hcore as -> _. by exists x, (mid ++ [cl]).
  - by exists mid, cl.
Qed.

End Parsed.

(** C4: for every body that is a JSON text, cleaning the body wrapped in
    a Markdown fence gives the same string as cleaning the body itself:
    the fence delimiters are removed. When the body has an opening curly
    brace before a closing one, that string is the part of the body from
    its first opening to its last closing brace; when it lacks one of the
    two braces, it is the body trimmed. *)
Theorem cleanGeminiJSON_fenced (body : jsstring) :
  isJSON body ->
  cleanGeminiJSON (fenced body) = cleanGeminiJSON body
  ∧ (∀ a b c, body = a ++ [123%N] ++ b ++ [125%N] ++ c -> 123%N ∉ a -> 125%N ∉ c ->
       cleanGeminiJSON (fenced body) = [123%N] ++ b ++ [125%N])
  ∧ (123%N ∉ body ∨ 125%N ∉ body -> cleanGeminiJSON (fenced body) = trim body).
Proof.
  intros [Heq Hless]%parse_padded%cleanGeminiJSON_padded.
  split; [done|]. split; [|done].
  intros a b c -> Ha Hb. rewrite Heq.
  rewrite cleanGeminiJSON_braceSpan
    by (rewrite !elem_of_app, !list_elem_of_singleton; auto).
  rewrite braceSpan_ordered by done. simpl.
  by apply (trim_fixed 123 125 b).
Qed.

Lemma cleanGeminiJSON_fenced_witness :
  let body := [10%N] ++ js "{" ++ Sample.quoted "India" ++ js ": [1, {}], "
              ++ Sample.quoted "World" ++ js ": []}" ++ [10%N] in
  cleanGeminiJSON (fenced body) = cleanGeminiJSON body
  ∧ (∀ a b c, body = a ++ [123%N] ++ b ++ [125%N] ++ c -> 123%N ∉ a -> 125%N ∉ c ->
       cleanGeminiJSON (fenced body) = [123%N] ++ b ++ [125%N])
  ∧ (123%N ∉ body ∨ 125%N ∉ body -> cleanGeminiJSON (fenced body) = trim body).
Proof. apply cleanGeminiJSON_fenced. vm_compute. by eexists. Defined.

(** ** Content Fetcher *)

Section ContentFetcher.
Context (w : World).

Lemma digestOfText_accepts (text : jsstring) (d : Digest.t) :
  digestOfText text = Returned d <-> accepts text d.
Proof.
  unfold digestOfText, accepts. split.
  - destruct (JSON.parse (cleanGeminiJSON text)) as [parsed|] eqn:Hparse; [|done].
    set (India := JSON.arrayOrEmpty (JSON.get parsed (js "India"))).
    set (World := JSON.arrayOrEmpty (JSON.get parsed (js "World"))).
    assert (Hshape :
      (if (0 <? length India) || (0 <? length World)
       then Returned {| Digest.India := India; Digest.World := World |}
       else Thrown (Error (js "Empty news arrays"))) = Returned d ->
      ∃ parsed0, Some parsed = Some parsed0
        ∧ d = {| Digest.India := JSON.arrayOrEmpty (JSON.get parsed0 (js "India"));
                 Digest.World := JSON.arrayOrEmpty (JSON.get parsed0 (js "World")) |}
        ∧ (Digest.India d ≠ [] ∨ Digest.World d ≠ [])).
    { destruct ((0 <? length India) || (0 <? length World)) eqn:Hlen; [|done].
      intros [= <-]. exists parsed. repeat split. simpl.
      apply orb_true_iff in Hlen as [Hlen | Hlen]; apply Nat.ltb_lt in Hlen;
        [left | right]; intros Heq; rewrite Heq in Hlen; simpl in Hlen; lia. }
    destruct parsed; try exact Hshape. done.
  - intros (parsed & -> & -> & Hne). simpl in Hne.
    assert (Hlen : (0 <? length (JSON.arrayOrEmpty (JSON.get parsed (js "India"))))
                   || (0 <? length (JSON.arrayOrEmpty (JSON.get parsed (js "World")))) = true).
    { apply orb_true_iff.
      destruct Hne as [Hne | Hne]; [left | right]; apply Nat.ltb_lt;
        destruct (JSON.arrayOrEmpty _); simpl; (done || lia). }
    destruct parsed; simpl in *; try done; by rewrite Hlen.
Qed.

(** An attempt is abandoned for one of three reasons: the cleaned text is
    not JSON, it is the JSON null, or both region arrays are empty or
    missing. *)
Lemma digestOfText_thrown (text : jsstring) (e : error) :
  digestOfText text = Thrown e ->
  (JSON.parse (cleanGeminiJSON text) = None
   ∧ e = Error (js "Gemini returned invalid JSON: " ++ slice0 text 200))
  ∨ (JSON.parse (cleanGeminiJSON text) = Some JSON.Null
     ∧ e = TypeError (js "Cannot read properties of null (reading 'India')"))
  ∨ (∃ parsed,
       JSON.parse (cleanGeminiJSON text) = Some parsed
       ∧ JSON.arrayOrEmpty (JSON.get parsed (js "India")) = []
       ∧ JSON.arrayOrEmpty (JSON.get parsed (js "World")) = []
       ∧ e = Error (js "Empty news arrays")).
Proof.
  unfold digestOfText.
  destruct (JSON.parse (cleanGeminiJSON text)) as [parsed|]; [|intros [= <-]; by left].
  assert (Hshape :
    (if (0 <? length (JSON.arrayOrEmpty (JSON.get parsed (js "India"))))
        || (0 <? length (JSON.arrayOrEmpty (JSON.get parsed (js "World"))))
     then Returned {| Digest.India := JSON.arrayOrEmpty (JSON.get parsed (js "India"));
                      Digest.World := JSON.arrayOrEmpty (JSON.get parsed (js "World")) |}
     else Thrown (Error (js "Empty news arrays"))) = Thrown e ->
    JSON.arrayOrEmpty (JSON.get parsed (js "India")) = []
    ∧ JSON.arrayOrEmpty (JSON.get parsed (js "World")) = []
    ∧ e = Error (js "Empty news arrays")).
  { destruct (JSON.arrayOrEmpty (JSON.get parsed (js "India")));
      destruct (JSON.arrayOrEmpty (JSON.get parsed (js "World"))); simpl; try done.
    by intros [= <-]. }
  destruct parsed;
    try (intros H; right; right; eexists; split; [reflexivity | by apply Hshape]).
  intros [= <-]. right. by left.
Qed.

Lemma tryModel_reply (date modelName : jsstring) (st : State) :
  tryModel w date modelName st
  = (reply w date modelName st, record (GenerateContent modelName date) st).
Proof.
  unfold tryModel, reply. run.
  destruct (generateContent w st modelName date) as [res|e]; [|done].
  by destruct (digestOfText _).
Qed.

Lemma retry_cons (date modelName : jsstring) (rest : list jsstring) (n : nat)
    (lastError : option error) (st : State) :
  retry w date (modelName :: rest) n lastError st
  = match reply w date modelName st with
    | Returned d => (Returned d, record (GenerateContent modelName date) st)
    | Thrown e =>
        retry w date rest (S n) (Some e)
          (record (Console (AttemptFailed (n + 1) e))
                  (record (GenerateContent modelName date) st))
    end.
Proof.
  simpl. unfold try_catch. rewrite tryModel_reply.
  destruct (reply w date modelName st); [done|]. by run.
Qed.

(** The loop over the models that remain: some of them fail in turn, and
    then either the next one is accepted, and the loop returns its digest
    at once, or none is left, and the result is the empty digest. *)
Lemma retry_spec (date : jsstring) (remaining : list jsstring) (n : nat)
    (lastError : option error) (st : State) :
  ∃ failures,
    failing w date st n failures
    ∧ ((∃ m untried d,
          remaining = failures.*1 ++ m :: untried
          ∧ reply w date m (afterFailures date st n failures) = Returned d
          ∧ retry w date remaining n lastError st
            = (Returned d, record (GenerateContent m date) (afterFailures date st n failures)))
       ∨ (remaining = failures.*1
          ∧ retry w date remaining n lastError st
            = (Returned Digest.empty,
               record (Console (AllRetriesFailed (lastErrorOf lastError failures)))
                      (afterFailures date st n failures)))).
Proof.
  revert n lastError st. induction remaining as [|m rest IH]; intros n lastError st.
  - exists []. split; [done|]. right. split; [done|]. by run.
  - rewrite retry_cons. destruct (reply w date m st) as [d|e] eqn:Hreply.
    + exists []. split; [done|]. left. exists m, rest, d. by repeat split.
    + destruct (IH (S n) (Some e)
                  (record (Console (AttemptFailed (n + 1) e))
                          (record (GenerateContent m date) st)))
        as (failures & Hfail & Hcase).
      exists ((m, e) :: failures). split; [by split|].
      destruct Hcase as [(m' & untried & d & -> & Hd & Hrun) | [-> Hrun]].
      * left. exists m', untried, d. by repeat split.
      * right. split; [done|]. rewrite Hrun. simpl.
        replace (lastErrorOf lastError ((m, e) :: failures))
          with (lastErrorOf (Some e) failures); [done|].
        clear. unfold lastErrorOf. destruct failures as [|[m1 e1] fs]; [done|].
        rewrite last_cons_cons.
        destruct (last ((m1, e1) :: fs)) as [[? ?]|] eqn:Hlast; [done|].
        by apply last_None in Hlast.
Qed.

Lemma reply_accepts (date m : jsstring) (st : State) (d : Digest.t) :
  reply w date m st = Returned d
  <-> ∃ res, generateContent w st m date = Returned res ∧ accepts (responseText res) d.
Proof.
  unfold reply. split.
  - destruct (generateContent w st m date) as [res|e]; [|done].
    intros Hd%digestOfText_accepts. by exists res.
  - intros (res & -> & Hd). by apply digestOfText_accepts.
Qed.



(** Without an API key no model is asked. *)
Lemma getNews_without_key (date : jsstring) (st : State) :
  GEMINI_API_KEY w = None ∨ GEMINI_API_KEY w = Some [] ->
  getNews w date st = (Returned Digest.empty, record (Console NoGeminiKey) st).
Proof. unfold getNews. by intros [-> | ->]. Qed.

(** C1 (amended): for every date, [getNews] returns, and what it returns
    is either the empty digest or a digest whose two region arrays are
    not both empty, each of them the array the parsed response holds under
    its key, or empty when it holds no array there; both fields are
    arrays in either case. *)
Theorem getNews_digest_shape (date : jsstring) (st : State) :
  ∃ d st',
    getNews w date st = (Returned d, st')
    ∧ (d = Digest.empty
       ∨ ((Digest.India d ≠ [] ∨ Digest.World d ≠ []) ∧ ∃ text, accepts text d)).
Proof.
  unfold getNews.
  destruct (or_else (GEMINI_API_KEY w) (Some [])) as [[|c key]|];
    try (eexists _, _; split; [by run | by left]).
  destruct (retry_spec date models 0 None st)
    as (failures & _ & [(m & untried & d & _ & Hd & ->) | [_ ->]]).
  - eexists _, _. split; [done|]. right.
    apply reply_accepts in Hd as (res & _ & Hacc).
    split; [|by eexists]. by destruct Hacc as (parsed & _ & _ & Hne).
  - eexists _, _. split; [done|]. by left.
Qed.



End ContentFetcher.

(** C1, as stated, fails: a response with one India item and no World key
    is returned as it is, with an empty World array. *)
Lemma getNews_one_region :
  ∃ d,
    fst (getNews Sample.oneRegion Sample.date Sample.fresh) = Returned d
    ∧ d = {| Digest.India := [JSON.Number (js "1")]; Digest.World := [] |}
    ∧ ¬ ((Digest.India d ≠ [] ∧ Digest.World d ≠ []) ∨ d = Digest.empty).
Proof.
  eexists. split; [vm_compute; reflexivity|]. split; [reflexivity|].
  intros [[_ Hw] | Hd]; [by apply Hw | discriminate Hd].
Qed.


(** In the sample world the third model is the first to be accepted; the
    last two are never asked. *)
Example getNews_third_model :
  let '(r, st') := getNews Sample.world Sample.date Sample.fresh in
  r = Returned {| Digest.India := [JSON.Number (js "1")]; Digest.World := [] |}
  ∧ requested (trace st') = [js "gemini-1.5-flash"; js "gemini-1.5-pro"; js "gemini-pro"].
Proof. vm_compute. split; reflexivity. Qed.
(** ** Illustration Fetcher *)

Section IllustrationFetcher.
Context (w : World).

(** The image source of an entry, when it has a non-empty one. *)
Lemma eachEntry_None (el : Entry.t) :
  eachEntry None el
  = if eligible el
    then Some {| Image.ariaLabel := default [] (or_else (Entry.aria_label el) (Some []));
                 Image.cleanUrl := beforeQuery (imageSource el) |}
    else None.
Proof.
  unfold eachEntry, eligible, imageSource.
  destruct (or_else (Entry.data_src el) (Entry.src el)) as [[|c s]|]; simpl; try done.
  by destruct (flaggedYouTube el).
Qed.

Lemma fold_eachEntry_Some (entries : list Entry.t) (img : Image.t) :
  fold_left eachEntry entries (Some img) = Some img.
Proof. induction entries as [|el entries IH]; simpl; done. Qed.

(** The loop keeps the first eligible entry, if there is one. *)
Lemma selectImage_first (entries : list Entry.t) :
  (∃ pre el post,
     entries = pre ++ el :: post
     ∧ Forall (fun e => eligible e = false) pre
     ∧ eligible el = true
     ∧ selectImage entries
       = Some {| Image.ariaLabel := default [] (or_else (Entry.aria_label el) (Some []));
                 Image.cleanUrl := beforeQuery (imageSource el) |})
  ∨ (Forall (fun e => eligible e = false) entries ∧ selectImage entries = None).
Proof.
  unfold selectImage. induction entries as [|el entries IH].
  - right. by split.
  - cbn [fold_left]. rewrite eachEntry_None. destruct (eligible el) eqn:Hel.
    + left. exists [], el, entries. repeat split; [constructor | done |].
      apply fold_eachEntry_Some.
    + destruct IH as [(pre & el' & post & -> & Hpre & Hel' & Hsel) | [Hall Hsel]].
      * left. exists (el :: pre), el', post. repeat split; try done. by constructor.
      * right. split; [by constructor | done].
Qed.

Lemma eligible_spec (el : Entry.t) :
  eligible el = true <-> imageSource el ≠ [] ∧ flaggedYouTube el = false.
Proof.
  unfold eligible, imageSource.
  destruct (or_else (Entry.data_src el) (Entry.src el)) as [[|c s]|]; simpl.
  - split; [done | by intros [? _]].
  - rewrite negb_true_iff. split; [done | by intros [_ ?]].
  - split; [done | by intros [? _]].
Qed.

(** The first part of [split("?")] is the text before the first question
    mark. *)
Lemma beforeQuery_spec (s : jsstring) :
  (63%N ∉ beforeQuery s)
  ∧ (s = beforeQuery s ∨ ∃ query, s = beforeQuery s ++ 63%N :: query).
Proof.
  unfold beforeQuery. induction s as [|c s [IH1 IH2]]; simpl.
  - split; [apply not_elem_of_nil | by left].
  - destruct (N.eqb_spec c 63) as [->|Hc]; simpl.
    + split; [apply not_elem_of_nil | right; by exists s].
    + destruct (split_unit 63 s) as [|p ps] eqn:Hsplit; simpl in *.
      * split; [by apply not_elem_of_cons | ].
        destruct IH2 as [-> | (query & ->)]; [by left | right; by exists query].
      * split; [by apply not_elem_of_cons | ].
        destruct IH2 as [Hs | (query & Hs)]; [left | right; exists query];
          by rewrite Hs at 1.
Qed.

Lemma indexOf_from_found (s pat : jsstring) (i : Z) :
  indexOf_from s pat i ≠ (-1)%Z -> ∃ a b, s = a ++ pat ++ b.
Proof.
  revert i. induction s as [|c s IH]; intros i; simpl.
  - destruct (startsWith [] pat) eqn:Hs; [|done].
    apply startsWith_spec in Hs as (rest & Hs). intros _. by exists [], rest.
  - destruct (startsWith (c :: s) pat) eqn:Hs.
    + apply startsWith_spec in Hs as (rest & Hs). intros _. by exists [], rest.
    + intros (a & b & ->)%IH. by exists (c :: a), b.
Qed.

Lemma indexOf_from_occurs (a b pat : jsstring) (i : Z) :
  (0 <= i)%Z -> (0 <= indexOf_from (a ++ pat ++ b) pat i)%Z.
Proof.
  revert i. induction a as [|c a IH]; intros i Hi.
  - simpl. destruct (pat ++ b) as [|c s] eqn:Heq.
    + destruct pat; [simpl; lia | done].
    + rewrite <- Heq. assert (Hs : startsWith (pat ++ b) pat = true)
        by (apply startsWith_spec; by exists b).
      rewrite Heq in Hs |- *. simpl. by rewrite Hs.
  - simpl. destruct (startsWith (c :: a ++ pat ++ b) pat); [done|]. apply IH. lia.
Qed.

(** [s.includes(pat)]: [pat] occurs in [s]. *)
Lemma includes_spec (s pat : jsstring) :
  includes s pat = true <-> ∃ a b, s = a ++ pat ++ b.
Proof.
  unfold includes, indexOf. rewrite negb_true_iff, Z.eqb_neq. split.
  - apply indexOf_from_found.
  - intros (a & b & ->). pose proof (indexOf_from_occurs a b pat 0). lia.
Qed.

(** An entry is flagged when its data attribute contains the word
    youtube in any mix of upper and lower case. *)
Lemma flaggedYouTube_spec (el : Entry.t) :
  flaggedYouTube el = true
  <-> ∃ a y b, default [] (Entry.data el) = a ++ y ++ b ∧ toLowerCase y = js "youtube".
Proof.
  unfold flaggedYouTube. rewrite includes_spec.
  assert (Hdata : default [] (or_else (Entry.data el) (Some [])) = default [] (Entry.data el))
    by (by destruct (Entry.data el) as [[|??]|]).
  rewrite Hdata. unfold toLowerCase. split.
  - intros (a' & b' & Heq).
    apply fmap_app_inv in Heq as (a & r & -> & Hr & ->).
    symmetry in Hr. apply fmap_app_inv in Hr as (y & b & Hy & -> & ->).
    by exists a, y, b.
  - intros (a & y & b & -> & Hy). rewrite !fmap_app, Hy. by eexists _, _.
Qed.

(** Lowering a code unit gives a lower-case Basic Latin letter exactly
    when the unit is that letter in one of its two cases. *)
Lemma toLowerCase_unit_sameCase (c p : N) :
  (97 <= p <= 122)%N -> toLowerCase_unit c = p <-> sameCase c p.
Proof.
  intros Hp. unfold toLowerCase_unit, sameCase.
  destruct ((65 <=? c) && (c <=? 90) || (192 <=? c) && (c <=? 222) && negb (c =? 215))%N
    eqn:Hc.
  - apply orb_true_iff in Hc as [Hc | Hc].
    + apply andb_true_iff in Hc as [?%N.leb_le ?%N.leb_le]. split; [by right; left | lia].
    + apply andb_true_iff in Hc as [Hc _].
      apply andb_true_iff in Hc as [?%N.leb_le ?%N.leb_le]. split; lia.
  - apply orb_false_iff in Hc as [Hc _].
    split; [by left | intros [? | [[_ ?] | [? _]]]; [done | | lia]].
    apply andb_false_iff in Hc as [?%N.leb_gt | ?%N.leb_gt]; lia.
Qed.

(** A string lowers to a word of lower-case Basic Latin letters exactly
    when it reads that word, the case of the letters apart. *)
Lemma toLowerCase_anyCase (y word : jsstring) :
  Forall (fun p => (97 <= p <= 122)%N) word -> toLowerCase y = word <-> anyCase y word.
Proof.
  intros Hword. unfold toLowerCase, anyCase. revert y.
  induction Hword as [|p word Hp _ IH]; intros [|c y]; simpl.
  - split; [constructor | done].
  - split; [done | by inversion 1].
  - split; [done | by inversion 1].
  - split.
    + intros [= Hc Hy]. constructor; [by apply toLowerCase_unit_sameCase | by apply IH].
    + inversion 1; subst. f_equal; [by apply toLowerCase_unit_sameCase | by apply IH].
Qed.

(** The test of the code flags exactly the entries whose data attribute
    mentions youtube in some letter case. *)
Lemma flaggedYouTube_mentions (el : Entry.t) :
  flaggedYouTube el = true <-> mentions (js "youtube") (dataOf el).
Proof.
  rewrite flaggedYouTube_spec. unfold mentions, dataOf.
  assert (Hword : Forall (fun p => (97 <= p <= 122)%N) (js "youtube")) by by_compute.
  split; intros (a & y & b & Hdata & Hy); exists a, y, b; (split; [done|]);
    by apply (toLowerCase_anyCase y (js "youtube") Hword).
Qed.

(** C5: whatever the search page holds, the entry [fetchImage] selects
    has an image source and a data attribute that does not mention youtube
    in any letter case, and every entry before it has no image source or
    mentions youtube: an entry that mentions it is never selected, were it
    the first of the page. The download that follows asks for the image
    source cut before its first question mark. When no entry is eligible,
    nothing is downloaded. *)
Theorem fetchImage_first_unflagged (query savePath url page : jsstring) (st : State) :
  searchURL query = Some url ->
  axios_get w st url = Returned page ->
  (∃ pre el post rest,
     li_ld w page = pre ++ el :: post
     ∧ Forall (fun e => imageSource e = [] ∨ mentions (js "youtube") (dataOf e)) pre
     ∧ imageSource el ≠ []
     ∧ ¬ mentions (js "youtube") (dataOf el)
     ∧ (63%N ∉ beforeQuery (imageSource el))
     ∧ (imageSource el = beforeQuery (imageSource el)
        ∨ ∃ q, imageSource el = beforeQuery (imageSource el) ++ 63%N :: q)
     ∧ trace (fetchImage w query savePath st).2
       = trace st ++ Get url None :: Get (beforeQuery (imageSource el)) None :: rest)
  ∨ (Forall (fun e => imageSource e = [] ∨ mentions (js "youtube") (dataOf e)) (li_ld w page)
     ∧ trace (fetchImage w query savePath st).2
       = trace st ++ [Get url None; Console NoValidImages]).
Proof.
  intros Hurl Hpage.
  assert (Hskip : ∀ l, Forall (fun e => eligible e = false) l ->
                       Forall (fun e => imageSource e = []
                                        ∨ mentions (js "youtube") (dataOf e)) l).
  { intros l Hl. eapply Forall_impl; [exact Hl|]. intros e He. unfold eligible in He.
    destruct (imageSource e); [by left | right].
    apply flaggedYouTube_mentions. by apply negb_false_iff. }
  unfold fetchImage. rewrite Hurl. run. rewrite Hpage.
  destruct (selectImage_first (li_ld w page))
    as [(pre & el & post & Hpage' & Hpre & Hel & ->) | [Hall ->]].
  - left. apply eligible_spec in Hel as [Hsrc Hflag].
    assert (Hclear : ¬ mentions (js "youtube") (dataOf el)).
    { intros Hm%flaggedYouTube_mentions. by rewrite Hm in Hflag. }
    destruct (beforeQuery_spec (imageSource el)) as [Hq Hcut]. run.
    case_get response e; run.
    + case_sharp e; run;
        eexists pre, el, post, _; repeat split; try done; try (by apply Hskip);
        rewrite <- !app_assoc; reflexivity.
    + eexists pre, el, post, _; repeat split; try done; try (by apply Hskip).
      rewrite <- !app_assoc. reflexivity.
  - right. split; [by apply Hskip|]. run. by rewrite <- app_assoc.
Qed.

Lemma uriUnreserved_not_surrogate (c : N) :
  uriUnreserved c = true -> isLowSurrogate c = false ∧ isHighSurrogate c = false.
Proof.
  intros Hc.
  assert (c < 128)%N.
  { unfold uriUnreserved in Hc.
    repeat match goal with
           | H : (_ || _) = true |- _ => apply orb_true_iff in H as [H | H]
           | H : (_ && _) = true |- _ => apply andb_true_iff in H as [? H]
           | H : (_ <=? _)%N = true |- _ => apply N.leb_le in H
           | H : (_ =? _)%N = true |- _ => apply N.eqb_eq in H
           end; lia. }
  split; apply andb_false_iff; left; apply N.leb_gt; lia.
Qed.

Lemma encodeURIComponent_wellFormed_bounded (n : nat) (s : jsstring) :
  length s <= n -> (is_Some (encodeURIComponent s) <-> isWellFormed s = true).
Proof.
  revert s. induction n as [|n IH]; intros s Hlen.
  - destruct s; [|simpl in Hlen; lia]. simpl. split; [done | by eexists].
  - destruct s as [|c rest]; [simpl; split; [done | by eexists]|].
    simpl in Hlen. cbn [encodeURIComponent isWellFormed].
    destruct (uriUnreserved c) eqn:Hu.
    + apply uriUnreserved_not_surrogate in Hu as [-> ->].
      rewrite fmap_is_Some. apply IH. lia.
    + destruct (isLowSurrogate c); [split; [by intros [? ?] | done]|].
      destruct (isHighSurrogate c).
      * destruct rest as [|d rest']; [split; [by intros [? ?] | done]|].
        destruct (isLowSurrogate d); simpl.
        -- rewrite fmap_is_Some. apply IH. simpl in Hlen. lia.
        -- split; [by intros [? ?] | done].
      * rewrite fmap_is_Some. apply IH. lia.
Qed.

(** [encodeURIComponent] raises exactly on the strings that are not well
    formed. *)
Lemma encodeURIComponent_wellFormed (s : jsstring) :
  is_Some (encodeURIComponent s) <-> isWellFormed s = true.
Proof. by apply (encodeURIComponent_wellFormed_bounded (length s)). Qed.

(** The query of a search can be encoded unless it holds a lone
    surrogate; in particular when it holds no surrogate at all. *)
Lemma encodeURIComponent_total (s : jsstring) :
  Forall (fun c => (c < 55296)%N ∨ (57343 < c)%N) s -> is_Some (encodeURIComponent s).
Proof.
  induction 1 as [|c s Hc _ IH]; simpl; [done|].
  destruct IH as [enc ->]. destruct (uriUnreserved c); [done|].
  assert (isLowSurrogate c = false) as ->
    by (apply andb_false_iff; destruct Hc; [left | right]; apply N.leb_gt; lia).
  assert (isHighSurrogate c = false) as ->
    by (apply andb_false_iff; destruct Hc; [left | right]; apply N.leb_gt; lia).
  done.
Qed.

(** Once the search address is built, [fetchImage] returns, and its
    first call is the search request. *)
Lemma fetchImage_search_first (query savePath url : jsstring) (st : State) :
  searchURL query = Some url ->
  ∃ calls st',
    fetchImage w query savePath st = (Returned savePath, st')
    ∧ trace st' = trace st ++ Get url None :: calls.
Proof.
  intros Hurl. unfold fetchImage. rewrite Hurl. run.
  case_get page e; run.
  - destruct (selectImage (li_ld w page)) as [img|]; run.
    + case_get response e; run.
      * case_sharp e; run; eexists _, _; (split; [done|]);
          cbn [trace]; by rewrite <- !app_assoc.
      * eexists _, _. split; [done|]. cbn [trace]. by rewrite <- !app_assoc.
    + eexists _, _. split; [done|]. cbn [trace]. by rewrite <- !app_assoc.
  - eexists _, _. split; [done|]. cbn [trace]. by rewrite <- !app_assoc.
Qed.

(** C10 (amended): when the query is well formed (it holds no lone
    surrogate), [fetchImage] returns [savePath] and never rejects. Either
    the search, the download and the resizing all succeeded, and the image
    file is written; or a failure was caught and logged, or no entry was
    eligible, and the files on disk are the ones there were. *)
Theorem fetchImage_total (query savePath : jsstring) (st : State) :
  isWellFormed query = true ->
  ∃ st',
    fetchImage w query savePath st = (Returned savePath, st')
    ∧ ((files st' = {[savePath]} ∪ files st
        ∧ ∃ url source,
            trace st' = trace st ++ [Get url None; Get source None; Sharp savePath])
       ∨ (files st' = files st
          ∧ ∃ calls m,
              trace st' = trace st ++ calls ++ [Console m]
              ∧ (m = NoValidImages ∨ ∃ e, m = ErrorFetchingImages e))).
Proof.
  intros [q Hq]%encodeURIComponent_wellFormed.
  unfold fetchImage, searchURL. rewrite Hq. run.
  set (url := js "https://in.images.search.yahoo.com/search/images?p=" ++ q).
  destruct (axios_get w st url) as [page|e]; run.
  - destruct (selectImage (li_ld w page)) as [img|]; run.
    + case_get response e; run.
      * case_sharp e; run.
        -- eexists. split; [done|]. left. split; [done|].
           eexists _, _. by rewrite <- !app_assoc.
        -- eexists. split; [done|]. right. split; [done|].
           exists [Get url None; Get (Image.cleanUrl img) None; Sharp savePath],
                  (ErrorFetchingImages e).
           split; [by rewrite <- !app_assoc | right; by exists e].
      * eexists. split; [done|]. right. split; [done|].
        exists [Get url None; Get (Image.cleanUrl img) None], (ErrorFetchingImages e).
        split; [by rewrite <- !app_assoc | right; by exists e].
    + eexists. split; [done|]. right. split; [done|].
      exists [Get url None], NoValidImages. split; [by rewrite <- !app_assoc | by left].
  - eexists. split; [done|]. right. split; [done|].
    exists [Get url None], (ErrorFetchingImages e).
    split; [by rewrite <- !app_assoc | right; by exists e].
Qed.

End IllustrationFetcher.

Lemma fetchImage_first_unflagged_witness :
  let url := js "https://in.images.search.yahoo.com/search/images?p=Monsoon%20arrives" in
  let savePath := js "/app/output/2025-01-01/img1.png" in
  (∃ pre el post rest,
     li_ld Sample.world (js "bytes") = pre ++ el :: post
     ∧ Forall (fun e => imageSource e = [] ∨ mentions (js "youtube") (dataOf e)) pre
     ∧ imageSource el ≠ []
     ∧ ¬ mentions (js "youtube") (dataOf el)
     ∧ (63%N ∉ beforeQuery (imageSource el))
     ∧ (imageSource el = beforeQuery (imageSource el)
        ∨ ∃ q, imageSource el = beforeQuery (imageSource el) ++ 63%N :: q)
     ∧ trace (fetchImage Sample.world (js "Monsoon arrives") savePath Sample.fresh).2
       = trace Sample.fresh ++ Get url None :: Get (beforeQuery (imageSource el)) None :: rest)
  ∨ (Forall (fun e => imageSource e = [] ∨ mentions (js "youtube") (dataOf e))
       (li_ld Sample.world (js "bytes"))
     ∧ trace (fetchImage Sample.world (js "Monsoon arrives") savePath Sample.fresh).2
       = trace Sample.fresh ++ [Get url None; Console NoValidImages]).
Proof. apply fetchImage_first_unflagged; reflexivity. Defined.

(** On the sample page the first entry is flagged and the second is taken,
    its address cut before the question mark. *)
Example fetchImage_skips_flagged_first :
  trace (fetchImage Sample.world (js "Monsoon arrives") (js "/app/output/2025-01-01/img1.png")
           Sample.fresh).2
  = [ Get (js "https://in.images.search.yahoo.com/search/images?p=Monsoon%20arrives") None;
      Get (js "http://a/2.png") None;
      Sharp (js "/app/output/2025-01-01/img1.png") ].
Proof. vm_compute. reflexivity. Qed.

(** C10, as stated, fails: a query with a lone surrogate makes
    [encodeURIComponent] raise before the [try] block is entered, and the
    call rejects. *)
Lemma fetchImage_rejects_lone_surrogate :
  fetchImage Sample.world (js "Flood " ++ [55296%N]) (js "/app/output/2025-01-01/img1.png")
    Sample.fresh
  = (Thrown URIError, Sample.fresh).
Proof. reflexivity. Qed.

Example lone_surrogate_not_wellFormed : isWellFormed (js "Flood " ++ [55296%N]) = false.
Proof. reflexivity. Qed.

Lemma fetchImage_total_witness :
  ∃ st',
    fetchImage Sample.world (js "Monsoon arrives") (js "/app/output/2025-01-01/img1.png")
      Sample.fresh
    = (Returned (js "/app/output/2025-01-01/img1.png"), st')
    ∧ ((files st' = {[js "/app/output/2025-01-01/img1.png"]} ∪ files Sample.fresh
        ∧ ∃ url source,
            trace st' = trace Sample.fresh
                        ++ [Get url None; Get source None;
                            Sharp (js "/app/output/2025-01-01/img1.png")])
       ∨ (files st' = files Sample.fresh
          ∧ ∃ calls m,
              trace st' = trace Sample.fresh ++ calls ++ [Console m]
              ∧ (m = NoValidImages ∨ ∃ e, m = ErrorFetchingImages e))).
Proof. apply fetchImage_total. reflexivity. Defined.

(** ** Caption Compositor *)

Section CaptionCompositor.
Context (w : World).

(** C6: when ffprobe answers for the narration and for the base video,
    and the base video has a stream with dimensions, [generateReel]
    starts one ffmpeg command, and what ffprobe reports about the base
    video has no part in its [-t] option. That option is [Math.round(D)]
    when the narration has a duration D other than zero, and 10 when the
    duration is zero or the key is missing. But when ffprobe does not
    know the duration, which it reports as N/A, there is no fallback:
    the option is [-t NaN]. *)
Theorem generateReel_duration
    (imageFile videoFile audioFile titleText descText outputFile : jsstring)
    (st : State) (audio video : Metadata.t) (stream : Stream.t) :
  ffprobe w st audioFile = Returned audio ->
  ffprobe w (record (Probe audioFile) st) videoFile = Returned video ->
  List.find dimensioned (Metadata.streams video) = Some stream ->
  ∃ cmd rest,
    trace (generateReel w imageFile videoFile audioFile titleText descText outputFile st).2
    = trace st ++ [Probe audioFile; Probe videoFile; Run cmd] ++ rest
    ∧ Command.inputs cmd = [videoFile; imageFile; audioFile]
    ∧ Command.output cmd = outputFile
    ∧ (Metadata.duration audio = NotAvailable -> durations cmd = [NaN])
    ∧ (∀ D, Metadata.duration audio = Seconds D -> ¬ (D == 0)%Q ->
            durations cmd = [Integer (Math_round D)])
    ∧ (Metadata.duration audio = Absent
       ∨ (∃ D, Metadata.duration audio = Seconds D ∧ (D == 0)%Q) ->
       durations cmd = [Integer 10]).
Proof.
  intros Haudio Hvideo Hstream. run_in Hvideo.
  unfold generateReel, getVideoDimensions, ffprobePromise. run.
  rewrite Haudio. run. rewrite Hvideo. run. rewrite Hstream. run.
  set (cmd := reelCommand _ _ _ _ _ _).
  assert (Hd : durations cmd = [rounding (durationOrDefault (Metadata.duration audio))])
    by reflexivity.
  assert (Hcases :
    (Metadata.duration audio = NotAvailable -> durations cmd = [NaN])
    ∧ (∀ D, Metadata.duration audio = Seconds D -> ¬ (D == 0)%Q ->
            durations cmd = [Integer (Math_round D)])
    ∧ (Metadata.duration audio = Absent
       ∨ (∃ D, Metadata.duration audio = Seconds D ∧ (D == 0)%Q) ->
       durations cmd = [Integer 10])).
  { rewrite Hd. unfold durationOrDefault. split; [|split].
    - intros ->. reflexivity.
    - intros D -> HD. destruct (Qeq_bool D 0) eqn:Heq; [|done].
      by apply Qeq_bool_iff in Heq.
    - intros [-> | (D & -> & HD)]; [done|].
      apply Qeq_bool_iff in HD. by rewrite HD. }
  destruct Hcases as (Hna & Hsome & Hnone).
  case_save e; run.
  - exists cmd, []. rewrite <- !app_assoc. by repeat split.
  - exists cmd, [Console (FFmpegErrorReel e)]. rewrite <- !app_assoc. by repeat split.
Qed.

End CaptionCompositor.

(** A narration of two and a half seconds is cut to three. *)
Example generateReel_rounds :
  ∃ cmd,
    trace (generateReel Sample.world (js "img1.png") (js "output_1_english.mp4")
             (js "audio_1_english.mp3") (js "Title") (js "Text") (js "reel_english1.mp4")
             Sample.fresh).2
    = [Probe (js "audio_1_english.mp3"); Probe (js "output_1_english.mp4"); Run cmd]
    ∧ durations cmd = [Integer 3].
Proof. eexists. split; [vm_compute; reflexivity | reflexivity]. Qed.

(** A narration whose reported duration is 0 is cut to 10 seconds, not to
    [Math.round(0)]. *)
Example generateReel_zero_duration :
  ∃ cmd,
    trace (generateReel Sample.silent (js "img1.png") (js "output_1_english.mp4")
             (js "audio_1_english.mp3") (js "Title") (js "Text") (js "reel_english1.mp4")
             Sample.fresh).2
    = [Probe (js "audio_1_english.mp3"); Probe (js "output_1_english.mp4"); Run cmd]
    ∧ durations cmd = [Integer 10]
    ∧ Math_round 0 = 0%Z.
Proof. eexists. split; [vm_compute; reflexivity|]. split; reflexivity. Qed.

(** And when the narration cannot be probed at all there is no fallback
    either: [generateReel] rejects before any command is started. *)
Example generateReel_probe_failure :
  generateReel Sample.unprobed (js "img1.png") (js "output_1_english.mp4")
    (js "audio_1_english.mp3") (js "Title") (js "Text") (js "reel_english1.mp4") Sample.fresh
  = (Thrown (External (js "request failed")),
     record (Probe (js "audio_1_english.mp3")) Sample.fresh).
Proof. reflexivity. Qed.

(** The narration of unknown duration: the command carries [-t NaN]. *)
Lemma generateReel_duration_witness :
  ∃ cmd rest,
    trace (generateReel Scenario.unmeasured (js "img1.png") (js "output_1_english.mp4")
             (js "audio_1_english.mp3") (js "Title") (js "Text") (js "reel_english1.mp4")
             Sample.fresh).2
    = trace Sample.fresh
      ++ [Probe (js "audio_1_english.mp3"); Probe (js "output_1_english.mp4"); Run cmd] ++ rest
    ∧ Command.inputs cmd
      = [js "output_1_english.mp4"; js "img1.png"; js "audio_1_english.mp3"]
    ∧ Command.output cmd = js "reel_english1.mp4"
    ∧ durations cmd = [NaN].
Proof.
  destruct (generateReel_duration Scenario.unmeasured (js "img1.png")
              (js "output_1_english.mp4") (js "audio_1_english.mp3") (js "Title") (js "Text")
              (js "reel_english1.mp4") Sample.fresh
              {| Metadata.duration := NotAvailable; Metadata.streams := [Sample.video] |}
              {| Metadata.duration := NotAvailable; Metadata.streams := [Sample.video] |}
              Sample.video)
    as (cmd & rest & Htrace & Hin & Hout & Hna & _); try reflexivity.
  exists cmd, rest. repeat split; try assumption.
  apply Hna. reflexivity.
Defined.

(** ** Reel Assembler: probing and concatenation *)

Section ReelAssembler.
Context (w : World).

(** Every clip is probed, in the order of the list, and the probes are
    the only calls made. *)
Lemma checkAll_trace (videoFiles : list jsstring) (st : State) :
  ∃ rs st1,
    checkAll w videoFiles st = (Returned rs, st1)
    ∧ length rs = length videoFiles
    ∧ trace st1 = trace st ++ (ExecProbe <$> videoFiles)
    ∧ files st1 = files st.
Proof.
  revert st. induction videoFiles as [|file rest IH]; intros st.
  - exists [], st. by rewrite app_nil_r.
  - cbn [checkAll]. unfold checkStreams. run.
    destruct (IH {| files := files st; trace := trace st ++ [ExecProbe file] |})
      as (rs & st1 & Hrest & Hlen & Htrace & Hfiles).
    cbn [trace files] in *.
    case_exec streams e; run; rewrite Hrest; eexists _, st1;
      (repeat split; [simpl; by rewrite Hlen | | done]);
      rewrite Htrace, <- app_assoc; reflexivity.
Qed.

(** When no probe fails there is one result per clip, for the clips in
    their order. *)
Lemma Promise_all_checks (videoFiles : list jsstring) (st st1 : State)
    (rs : list (outcome Check.t)) (results : list Check.t) :
  checkAll w videoFiles st = (Returned rs, st1) ->
  Promise_all rs = Returned results ->
  Check.file <$> results = videoFiles.
Proof.
  revert st rs results. induction videoFiles as [|file rest IH]; intros st rs results.
  - intros [= <- _]. by intros [= <-].
  - cbn [checkAll]. unfold checkStreams. run.
    destruct (checkAll_trace rest {| files := files st; trace := trace st ++ [ExecProbe file] |})
      as (rs' & st2 & Hrest & _).
    case_exec streams e; run; rewrite Hrest; intros [= <- <-]; cbn [Promise_all]; [|done].
    destruct (Promise_all rs') as [l|] eqn:Hall; [|done].
    intros [= <-]. cbn [fmap list_fmap Check.file]. f_equal. by eapply IH.
Qed.

Lemma validateVideos_returned (videoFiles : list jsstring) (st st1 : State)
    (results : list Check.t) :
  validateVideos w videoFiles st = (Returned results, st1) ->
  Check.file <$> results = videoFiles
  ∧ trace st1 = trace st ++ (ExecProbe <$> videoFiles)
  ∧ files st1 = files st.
Proof.
  unfold validateVideos. unfold mbind, M_bind.
  destruct (checkAll_trace videoFiles st) as (rs & st2 & Hall & _ & Htrace & Hfiles).
  rewrite Hall. destruct (Promise_all rs) as [l|e] eqn:Hl; [|done].
  intros [= <- <-]. split; [|done]. by eapply Promise_all_checks.
Qed.

(** C8: when every clip of a non-empty list can be probed, [mergeVideos]
    probes them all, warns about those without an audio stream, if any,
    and then starts the concat command on the whole list, whatever the
    probes found: its inputs are the clips provided and the count [n] of
    the filter is their number. *)
Theorem mergeVideos_concat_all (videoFiles : list jsstring) (outputFile : jsstring)
    (st st1 : State) (results : list Check.t) :
  validateVideos w videoFiles st = (Returned results, st1) ->
  videoFiles ≠ [] ->
  ∃ cmd rest,
    trace (mergeVideos w videoFiles outputFile st).2
    = trace st ++ (ExecProbe <$> videoFiles)
      ++ match List.filter (fun r => negb (Check.hasAudio r)) results with
         | [] => []
         | broken => [Console (NoAudio (Check.file <$> broken))]
         end
      ++ Run cmd :: rest
    ∧ Check.file <$> results = videoFiles
    ∧ Command.inputs cmd = videoFiles
    ∧ Command.complexFilter cmd
      = [Spec (js "concat")
           [(js "n", Num (Z.of_nat (length videoFiles))); (js "v", Num 1); (js "a", Num 1)]]
    ∧ Command.output cmd = outputFile.
Proof.
  intros Hvalid Hne.
  destruct (validateVideos_returned _ _ _ _ Hvalid) as (Hfiles & Htrace & _).
  exists (concatCommand videoFiles outputFile).
  unfold mergeVideos. run. rewrite Hvalid.
  destruct videoFiles as [|file rest]; [done|].
  destruct (List.filter _ results) as [|r broken]; run; case_save e; run;
    eexists; (split; [|by repeat split]); rewrite Htrace, <- !app_assoc; reflexivity.
Qed.

End ReelAssembler.

Lemma mergeVideos_concat_all_witness :
  let videoFiles := [js "Reel_1.mp4"; js "reel_english3.mp4"; js "Reel_5.mp4"] in
  ∃ cmd rest,
    trace (mergeVideos Sample.world videoFiles (js "final_english_video.mp4") Sample.fresh).2
    = trace Sample.fresh ++ (ExecProbe <$> videoFiles)
      ++ [Console (NoAudio [js "reel_english3.mp4"])]
      ++ Run cmd :: rest
    ∧ Command.inputs cmd = videoFiles
    ∧ Command.complexFilter cmd
      = [Spec (js "concat") [(js "n", Num 3); (js "v", Num 1); (js "a", Num 1)]]
    ∧ Command.output cmd = js "final_english_video.mp4".
Proof.
  intros videoFiles.
  destruct (mergeVideos_concat_all Sample.world videoFiles (js "final_english_video.mp4")
              Sample.fresh
              (validateVideos Sample.world videoFiles Sample.fresh).2
              [ {| Check.file := js "Reel_1.mp4"; Check.hasVideo := true;
                   Check.hasAudio := true |};
                {| Check.file := js "reel_english3.mp4"; Check.hasVideo := true;
                   Check.hasAudio := false |};
                {| Check.file := js "Reel_5.mp4"; Check.hasVideo := true;
                   Check.hasAudio := true |} ])
    as (cmd & rest & Htrace & _ & Hin & Hfilter & Hout); [reflexivity | discriminate |].
  exists cmd, rest. repeat split; assumption.
Defined.
(** ** Narration Synthesizer and Pipeline Driver *)

Section PipelineDriver.
Context (w : World).

Lemma try_catch_returns (body : M unit) (handler : error -> M unit) (st : State) :
  (∀ e s, ∃ s', handler e s = (Returned tt, s')) ->
  ∃ st', try_catch body handler st = (Returned tt, st').
Proof.
  intros Hh. unfold try_catch. destruct (body st) as [[[]|e] s]; [by eexists|]. apply Hh.
Qed.

Lemma warn_returns (m : console) (s : State) : ∃ s', warn m s = (Returned tt, s').
Proof. by eexists. Qed.

Lemma illustrate_returns (title imgPath : jsstring) (st : State) :
  ∃ st', illustrate w title imgPath st = (Returned tt, st').
Proof.
  apply try_catch_returns. intros e s. apply try_catch_returns. intros. apply warn_returns.
Qed.

Lemma prepareField_textual (value : Field.t) (n : nat) (st : State) :
  Field.textual value -> ∃ text, prepareField value n st = (Returned text, st).
Proof. destruct value as [text|[] shown]; intros H; [by eexists | done | by eexists]. Qed.

(** The two texts are prepared outside every [try]; every step after
    them is wrapped in one: for an item whose title and description are
    strings (or falsy) the rest of the iteration never throws. *)
Lemma composeItem_returns (outputDir : jsstring) (item : Item.t) (audioPath : jsstring)
    (st : State) :
  Item.textual item ->
  ∃ st', composeItem w outputDir item audioPath st = (Returned tt, st').
Proof.
  intros [Htitle Hdesc]. unfold composeItem.
  match goal with
  | |- ∃ _, (prepareField ?v ?n ≫= _) st = _ =>
      destruct (prepareField_textual v n st Htitle) as [title H]
  end.
  unfold mbind at 1, M_bind at 1. rewrite H. clear H.
  destruct (prepareField_textual (Item.description item) 46 st Hdesc) as [description H].
  unfold mbind at 1, M_bind at 1. rewrite H. clear H.
  match goal with
  | |- ∃ _, (illustrate w ?t ?p ≫= _) st = _ =>
      destruct (illustrate_returns t p st) as [st1 H1]
  end.
  unfold mbind at 1, M_bind at 1. rewrite H1.
  match goal with
  | |- ∃ _, (try_catch ?b ?h ≫= _) st1 = _ =>
      destruct (try_catch_returns b h st1) as [st2 H2]
  end.
  { intros. apply warn_returns. }
  unfold mbind at 1, M_bind at 1. rewrite H2.
  apply try_catch_returns. intros. apply warn_returns.
Qed.

(** A truthy title or description that is not a string: the rest of the
    iteration throws before any call is made. *)
Lemma composeItem_throws (outputDir : jsstring) (item : Item.t) (audioPath : jsstring)
    (st : State) :
  ¬ Item.textual item ->
  composeItem w outputDir item audioPath st
  = (Thrown (TypeError (js "text.split is not a function")), st).
Proof.
  intros Hnot. unfold composeItem, Item.textual in *.
  destruct (Item.title item) as [title|[] shown]; [| reflexivity |];
    (destruct (Item.description item) as [description|[] shown']; [| reflexivity |]);
    exfalso; apply Hnot; split; exact I.
Qed.

Lemma iteration_returns (outputDir : jsstring) (audioFiles : list Audio.t) (item : Item.t)
    (st : State) :
  Item.textual item ->
  ∃ audioFiles' st', iteration w outputDir audioFiles item st = (Returned audioFiles', st').
Proof.
  intros Htext. unfold iteration. unfold mbind at 1, M_bind at 1, attempt.
  destruct (fetchTTS w _ _ st) as [[[]|e] st1].
  - destruct (composeItem_returns outputDir item
                (path_join w outputDir
                   (js "audio_" ++ String_of_N (Item.id item + 1) ++ js "_"
                    ++ Item.language item ++ js ".mp3")) st1 Htext) as [st2 H2].
    unfold mbind, M_bind. rewrite H2. by eexists _, _.
  - by eexists _, _.
Qed.

(** For items whose titles and descriptions are strings (or falsy), the
    loop of [generateTTS] runs to its end, whatever fails on the way. *)
Lemma iterate_returns (outputDir : jsstring) (items : list Item.t) (audioFiles : list Audio.t)
    (st : State) :
  Forall Item.textual items ->
  ∃ result st', iterate w outputDir audioFiles items st = (Returned result, st').
Proof.
  intros Htext. revert audioFiles st.
  induction Htext as [|item rest Hitem _ IH]; intros audioFiles st.
  - by eexists _, _.
  - cbn [iterate]. unfold mbind, M_bind.
    destruct (iteration_returns outputDir audioFiles item st Hitem) as (a & st1 & ->). apply IH.
Qed.

(** A failed narration: the item is skipped and the loop goes on with
    the list of audio files it had. *)
Lemma iterate_skip (outputDir : jsstring) (audioFiles : list Audio.t) (item : Item.t)
    (rest : list Item.t) (st st1 : State) (e : error) :
  fetchTTS w (Field.toString (Item.description item))
    (path_join w outputDir
       (js "audio_" ++ String_of_N (Item.id item + 1) ++ js "_" ++ Item.language item
        ++ js ".mp3")) st = (Thrown e, st1) ->
  iterate w outputDir audioFiles (item :: rest) st
  = iterate w outputDir audioFiles rest
      (record (Console (SkippingItem (Field.toString (Item.title item)))) st1).
Proof.
  intros Htts. cbn [iterate]. unfold iteration.
  unfold mbind at 1 2, M_bind at 1 2, attempt. by rewrite Htts.
Qed.

(** A saved narration: the item is added to the list and the rest of the
    iteration runs; when it throws, so does the loop. *)
Lemma iterate_narrated (outputDir : jsstring) (audioFiles : list Audio.t) (item : Item.t)
    (rest : list Item.t) (st st1 : State) :
  let audioPath :=
    path_join w outputDir
      (js "audio_" ++ String_of_N (Item.id item + 1) ++ js "_" ++ Item.language item
       ++ js ".mp3") in
  fetchTTS w (Field.toString (Item.description item)) audioPath st = (Returned tt, st1) ->
  iterate w outputDir audioFiles (item :: rest) st
  = match composeItem w outputDir item audioPath st1 with
    | (Returned _, st2) =>
        iterate w outputDir
          (audioFiles ++ [ {| Audio.path := audioPath; Audio.title := Item.title item;
                              Audio.desc := Item.description item |} ])
          rest st2
    | (Thrown e, st2) => (Thrown e, st2)
    end.
Proof.
  intros audioPath Htts. cbn [iterate]. unfold iteration. fold audioPath.
  unfold mbind at 1 2, M_bind at 1 2, attempt. rewrite Htts.
  unfold mbind at 1, M_bind at 1.
  destruct (composeItem w outputDir item audioPath st1) as [[[]|e] st2]; reflexivity.
Qed.

(** C9: when the request of [fetchTTS] is rejected (a transport error,
    the 60 second timeout or a status that is not a success), [fetchTTS]
    logs and rethrows the error, without writing the audio file. The loop
    of [generateTTS] then logs that it skips the item, adds nothing to
    [audioFiles], makes no further call for the item, and goes on with the
    next item; when the titles and descriptions of the items that follow
    are strings, it returns at the end. *)
Theorem fetchTTS_failure_skips_item (outputDir url : jsstring) (audioFiles : list Audio.t)
    (item : Item.t) (rest : list Item.t) (st : State) (e : error) :
  ttsURL (Field.toString (Item.description item)) = Some url ->
  axios_get w st url = Thrown e ->
  let audioPath :=
    path_join w outputDir
      (js "audio_" ++ String_of_N (Item.id item + 1) ++ js "_" ++ Item.language item
       ++ js ".mp3") in
  let st1 := record (Console (FailedTTS e)) (record (Get url (Some 60000%N)) st) in
  let st2 := record (Console (SkippingItem (Field.toString (Item.title item)))) st1 in
  fetchTTS w (Field.toString (Item.description item)) audioPath st = (Thrown e, st1)
  ∧ iterate w outputDir audioFiles (item :: rest) st = iterate w outputDir audioFiles rest st2
  ∧ files st2 = files st
  ∧ trace st2
    = trace st ++ [Get url (Some 60000%N); Console (FailedTTS e);
                   Console (SkippingItem (Field.toString (Item.title item)))]
  ∧ (Forall Item.textual rest ->
     ∃ result st', iterate w outputDir audioFiles (item :: rest) st = (Returned result, st')).
Proof.
  intros Hurl Hget audioPath st1 st2.
  assert (Htts : fetchTTS w (Field.toString (Item.description item)) audioPath st
                 = (Thrown e, st1)).
  { unfold fetchTTS. rewrite Hurl. run. by rewrite Hget. }
  assert (Hskip : iterate w outputDir audioFiles (item :: rest) st
                  = iterate w outputDir audioFiles rest st2).
  { by eapply iterate_skip. }
  split; [done|]. split; [exact Hskip|]. split; [done|].
  split; [unfold st2, st1; run; by rewrite <- !app_assoc|].
  intros Htext. rewrite Hskip. by apply iterate_returns.
Qed.

(** The existence test has no part in what [illustrate] does: it is the
    [catch] branch, always. *)
Lemma illustrate_catch_branch (title imgPath : jsstring) (st : State) :
  illustrate w title imgPath st
  = try_catch (_ ← fetchImage w title imgPath; warn (ImageGenerated imgPath))
      (fun err => warn (FailedImage title err)) st.
Proof. reflexivity. Qed.

(** C3, on the code: the check for a cached illustration calls
    [fs.access] of the callback API without a callback, which raises, so
    the [catch] branch runs whether or not the file exists: the search
    request of [fetchImage] is made even when the image is on disk. *)
Theorem illustrate_fetches_cached_image (title imgPath url : jsstring) (st : State) :
  imgPath ∈ files st ->
  searchURL title = Some url ->
  ∃ rest st',
    illustrate w title imgPath st = (Returned tt, st')
    ∧ trace st' = trace st ++ Get url None :: rest.
Proof.
  intros _ Hurl. rewrite illustrate_catch_branch.
  destruct (fetchImage_search_first w title imgPath url st Hurl)
    as (calls & st1 & Hfetch & Htrace).
  exists (calls ++ [Console (ImageGenerated imgPath)]),
         (record (Console (ImageGenerated imgPath)) st1).
  split.
  - unfold try_catch at 1. unfold mbind at 1, M_bind at 1. by rewrite Hfetch.
  - run. rewrite Htrace, <- app_assoc. done.
Qed.

End PipelineDriver.

Lemma fetchTTS_failure_skips_item_witness :
  let e := External (js "request failed") in
  ∃ url st1 st2,
    fetchTTS Sample.unreachable (Field.toString (Item.description Sample.item))
      (js "/app/output/2025-01-01/audio_1_english.mp3") Sample.fresh = (Thrown e, st1)
    ∧ iterate Sample.unreachable Sample.outputDir [] [Sample.item; Sample.item] Sample.fresh
      = iterate Sample.unreachable Sample.outputDir [] [Sample.item] st2
    ∧ files st2 = files Sample.fresh
    ∧ trace st2
      = trace Sample.fresh
        ++ [Get url (Some 60000%N); Console (FailedTTS e);
            Console (SkippingItem (Field.toString (Item.title Sample.item)))]
    ∧ ∃ result st',
        iterate Sample.unreachable Sample.outputDir [] [Sample.item; Sample.item] Sample.fresh
        = (Returned result, st').
Proof.
  intros e.
  destruct (ttsURL (Field.toString (Item.description Sample.item))) as [url|] eqn:Hurl;
    [|discriminate Hurl].
  destruct (fetchTTS_failure_skips_item Sample.unreachable Sample.outputDir url []
              Sample.item [Sample.item] Sample.fresh e Hurl eq_refl)
    as (Htts & Hskip & Hfiles & Htrace & Hreturns).
  exists url. eexists _, _.
  split; [exact Htts|]. split; [exact Hskip|]. split; [exact Hfiles|]. split; [exact Htrace|].
  apply Hreturns. repeat constructor.
Defined.

(** With every request failing, both items are skipped and no audio file
    is listed. *)
Example generateTTS_all_skipped :
  (generateTTS Sample.unreachable [Sample.item; Sample.item] Sample.outputDir Sample.fresh).1
  = Returned [].
Proof. vm_compute. reflexivity. Qed.

Lemma illustrate_fetches_cached_image_witness :
  ∃ rest st',
    illustrate Sample.world (Field.toString (Item.title Sample.item))
      (js "/app/output/2025-01-01/img1.png") Sample.cached = (Returned tt, st')
    ∧ trace st'
      = trace Sample.cached
        ++ Get (js "https://in.images.search.yahoo.com/search/images?p=Monsoon%20arrives") None
           :: rest.
Proof. apply illustrate_fetches_cached_image; [by_compute | reflexivity]. Defined.

(** The illustration of the sample item is on disk, and still the page is
    searched, an image is downloaded and the file is written again. *)
Example illustrate_overwrites_cached_image :
  (js "/app/output/2025-01-01/img1.png") ∈ files Sample.cached
  ∧ trace (illustrate Sample.world (Field.toString (Item.title Sample.item))
             (js "/app/output/2025-01-01/img1.png") Sample.cached).2
    = [ Get (js "https://in.images.search.yahoo.com/search/images?p=Monsoon%20arrives") None;
        Get (js "http://a/2.png") None;
        Sharp (js "/app/output/2025-01-01/img1.png");
        Console (ImageGenerated (js "/app/output/2025-01-01/img1.png")) ].
Proof. split; [by_compute | vm_compute; reflexivity]. Qed.

(** One item in the sample world: the narration is saved and listed, and
    the illustration, the intermediate clip and the captioned clip are on
    disk at the end. *)
Example generateTTS_one_item :
  let '(r, st') := generateTTS Sample.world [Sample.item] Sample.outputDir Sample.fresh in
  r = Returned [ {| Audio.path := js "/app/output/2025-01-01/audio_1_english.mp3";
                    Audio.title := Field.Str (js "Monsoon arrives");
                    Audio.desc := Field.Str (js "Rain reached the coast.") |} ]
  ∧ bool_decide
      ({[ js "/app/output/2025-01-01/audio_1_english.mp3";
          js "/app/output/2025-01-01/img1.png";
          js "/app/output/2025-01-01/output_1_english.mp4";
          js "/app/output/2025-01-01/reel_english1.mp4" ]} ⊆ files st') = true.
Proof. vm_compute. split; reflexivity. Qed.

(** * Further properties *)

(** ** Line wrapping *)

Section Wrapping.

Lemma prepareText_lines (text : jsstring) (n : nat) :
  prepareText text n = join [10%N] (wrappedLines text n).
Proof.
  unfold prepareText, wrappedLines, wrapStep.
  destruct (fold_left _ _ _) as [lines line]. reflexivity.
Qed.

Lemma trimEnd_space (s : jsstring) : trimEnd (s ++ [32%N]) = trimEnd s.
Proof. unfold trimEnd. rewrite reverse_snoc. reflexivity. Qed.

Lemma trimStart_length (s : jsstring) : length (trimStart s) <= length s.
Proof.
  destruct (trimStart_split s) as (pre & Hs & _).
  rewrite Hs at 2. rewrite length_app. lia.
Qed.

Lemma trimEnd_length (s : jsstring) : length (trimEnd s) <= length s.
Proof.
  destruct (trimEnd_split s) as (post & Hs & _).
  rewrite Hs at 2. rewrite length_app. lia.
Qed.

Lemma trimStart_snoc (s : jsstring) :
  trimStart (s ++ [32%N]) = [] ∨ trimStart (s ++ [32%N]) = trimStart s ++ [32%N].
Proof.
  induction s as [|c s IH]; [left; reflexivity|].
  unfold trimStart in *. simpl. destruct (isWhiteSpace c); [exact IH | right; reflexivity].
Qed.

Lemma trimStart_nil (s : jsstring) :
  trimStart (s ++ [32%N]) = [] -> trimStart s = [].
Proof.
  induction s as [|c s IH]; [reflexivity|].
  unfold trimStart in *. simpl. destruct (isWhiteSpace c); [exact IH | discriminate].
Qed.

(** The space that ends the pending line does not survive [trim]. *)
Lemma trim_space (s : jsstring) : trim (s ++ [32%N]) = trim s.
Proof.
  unfold trim. destruct (trimStart_snoc s) as [H|H].
  - rewrite H, (trimStart_nil s H). reflexivity.
  - rewrite H. apply trimEnd_space.
Qed.

Lemma trim_length (s : jsstring) : length (trim s) <= length s.
Proof.
  unfold trim. pose proof (trimEnd_length (trimStart s)). pose proof (trimStart_length s). lia.
Qed.

Lemma drop_while_idem {A} (p : A -> bool) (l : list A) :
  drop_while p (drop_while p l) = drop_while p l.
Proof.
  induction l as [|x l IH]; [reflexivity|].
  simpl. destruct (p x) eqn:Hp; [exact IH|]. simpl. rewrite Hp. reflexivity.
Qed.

Lemma drop_while_snoc {A} (p : A -> bool) (l : list A) (x : A) :
  p x = false -> ∃ r, drop_while p (l ++ [x]) = r ++ [x].
Proof.
  intros Hx. induction l as [|y l IH]; simpl.
  - rewrite Hx. exists []. reflexivity.
  - destruct (p y); [exact IH|]. exists (y :: l). reflexivity.
Qed.

Lemma trim_idem (s : jsstring) : trim (trim s) = trim s.
Proof.
  unfold trim.
  assert (Hstart : trimStart (trimEnd (trimStart s)) = trimEnd (trimStart s)).
  { unfold trimStart. destruct (drop_while isWhiteSpace s) as [|c t] eqn:Hd.
    - reflexivity.
    - assert (Hc : isWhiteSpace c = false).
      { destruct (take_drop_while isWhiteSpace s) as (_ & _ & H). exact (H c t Hd). }
      unfold trimEnd. rewrite reverse_cons.
      destruct (drop_while_snoc isWhiteSpace (reverse t) c Hc) as (r & ->).
      rewrite reverse_snoc. apply drop_while_head. exact Hc. }
  rewrite Hstart. unfold trimEnd. rewrite reverse_involutive, drop_while_idem. reflexivity.
Qed.

(** What [prepareText] keeps while it walks through the words: the lines
    pushed so far, and the pending line, which is empty or ends in the
    space appended after its last word. *)
Lemma wrapStep_invariant (n : nat) (Q : jsstring -> Prop) (words : list jsstring)
    (acc : list jsstring * jsstring) :
  (∀ l, length l <= n -> Q (trim l)) ->
  (∀ word, word ∈ words -> Q (trim word)) ->
  Forall Q acc.1 ->
  (acc.2 = [] ∨ ∃ body, acc.2 = body ++ [32%N] ∧ Q (trim body)) ->
  Forall Q (fold_left (wrapStep n) words acc).1
  ∧ ((fold_left (wrapStep n) words acc).2 = []
     ∨ ∃ body, (fold_left (wrapStep n) words acc).2 = body ++ [32%N] ∧ Q (trim body)).
Proof.
  intros Hshort. revert acc.
  induction words as [|word words IH]; intros [lines line] Hword Hlines Hline.
  - split; assumption.
  - cbn [fold_left]. cbn [fst snd] in Hlines, Hline. apply IH.
    + intros x Hx. apply Hword. right. exact Hx.
    + unfold wrapStep. destruct (n <? length (line ++ word)) eqn:Hn; cbn [fst]; [|exact Hlines].
      apply Forall_app. split; [exact Hlines|]. constructor; [|constructor].
      destruct Hline as [->|(body & -> & HQ)].
      * apply (Hshort []). simpl. lia.
      * rewrite trim_space. exact HQ.
    + unfold wrapStep. destruct (n <? length (line ++ word)) eqn:Hn; cbn [snd]; right.
      * exists word. split; [reflexivity|]. apply Hword. left.
      * exists (line ++ word). split; [rewrite <- app_assoc; reflexivity|].
        apply Hshort. apply Nat.ltb_ge in Hn. exact Hn.
Qed.

(** X1: the lines of [prepareText] are joined by line feeds; none begins
    or ends with white space, and none is longer than [maxLineLength]
    unless it is a single word of the text. *)
Theorem prepareText_width (text : jsstring) (maxLineLength : nat) :
  prepareText text maxLineLength = join [10%N] (wrappedLines text maxLineLength)
  ∧ Forall (fun l =>
              trim l = l
              ∧ (length l <= maxLineLength
                 ∨ ∃ word, word ∈ split_unit 32 text ∧ l = trim word))
           (wrappedLines text maxLineLength).
Proof.
  split; [apply prepareText_lines|].
  set (Q := fun l : jsstring =>
              trim l = l
              ∧ (length l <= maxLineLength
                 ∨ ∃ word, word ∈ split_unit 32 text ∧ l = trim word)).
  assert (Hshort : ∀ l, length l <= maxLineLength -> Q (trim l)).
  { intros l Hl. split; [apply trim_idem|]. left. pose proof (trim_length l). lia. }
  assert (Hword : ∀ word, word ∈ split_unit 32 text -> Q (trim word)).
  { intros word Hin. split; [apply trim_idem|]. right. exists word.
    split; [exact Hin | reflexivity]. }
  pose proof (wrapStep_invariant maxLineLength Q (split_unit 32 text) ([], []) Hshort Hword
                (Forall_nil_2 _) (or_introl eq_refl)) as [Hlines Hline].
  unfold wrappedLines.
  destruct (fold_left (wrapStep maxLineLength) (split_unit 32 text) ([], [])) as [lines line].
  simpl in Hlines, Hline.
  destruct line as [|c line]; [exact Hlines|].
  apply Forall_app. split; [exact Hlines|]. constructor; [|constructor].
  destruct Hline as [Hnil|(body & -> & HQ)]; [discriminate Hnil|].
  rewrite trim_space. exact HQ.
Qed.

Lemma visible_app (a b : jsstring) : visible (a ++ b) = visible a ++ visible b.
Proof. apply List.filter_app. Qed.

Lemma visible_whiteSpace (s : jsstring) :
  Forall (fun c => isWhiteSpace c = true) s -> visible s = [].
Proof.
  induction 1 as [|c s Hc _ IH]; [reflexivity|].
  unfold visible in *. simpl. rewrite Hc. exact IH.
Qed.

Lemma visible_trim (s : jsstring) : visible (trim s) = visible s.
Proof.
  unfold trim.
  destruct (trimStart_split s) as (pre & Hs & Hpre).
  destruct (trimEnd_split (trimStart s)) as (post & Ht & Hpost).
  rewrite Hs at 2. rewrite Ht at 2.
  rewrite !visible_app, (visible_whiteSpace pre Hpre), (visible_whiteSpace post Hpost).
  rewrite app_nil_r. reflexivity.
Qed.

Lemma visible_join (lines : list jsstring) :
  visible (join [10%N] lines) = visible (concat lines).
Proof.
  induction lines as [|l lines IH]; [reflexivity|].
  destruct lines as [|l' lines].
  - simpl. rewrite app_nil_r. reflexivity.
  - change (join [10%N] (l :: l' :: lines)) with (l ++ [10%N] ++ join [10%N] (l' :: lines)).
    change (concat (l :: l' :: lines)) with (l ++ concat (l' :: lines)).
    rewrite !visible_app, IH. reflexivity.
Qed.

Lemma split_unit_cons (sep : N) (s : jsstring) : ∃ w ws, split_unit sep s = w :: ws.
Proof.
  induction s as [|c s (w & ws & IH)]; simpl; [eauto|].
  destruct (c =? sep)%N; [eauto|]. rewrite IH. eauto.
Qed.

Lemma visible_split (s : jsstring) : visible (concat (split_unit 32 s)) = visible s.
Proof.
  induction s as [|c s IH]; [reflexivity|].
  cbn [split_unit]. destruct (c =? 32)%N eqn:Hc.
  - apply N.eqb_eq in Hc. subst c. exact IH.
  - destruct (split_unit_cons 32 s) as (w & ws & Hw). rewrite Hw in IH |- *.
    change (concat ((c :: w) :: ws)) with (c :: concat (w :: ws)).
    unfold visible in *. cbn [List.filter]. rewrite IH. reflexivity.
Qed.

Lemma wrapStep_visible (n : nat) (words : list jsstring) (acc : list jsstring * jsstring) :
  visible (concat (fold_left (wrapStep n) words acc).1 ++ (fold_left (wrapStep n) words acc).2)
  = visible (concat acc.1 ++ acc.2) ++ visible (concat words).
Proof.
  revert acc. induction words as [|word words IH]; intros [lines line].
  - simpl. rewrite app_nil_r. reflexivity.
  - cbn [fold_left]. rewrite IH. unfold wrapStep.
    change (concat (word :: words)) with (word ++ concat words).
    destruct (n <? length (line ++ word)); cbn [fst snd].
    + rewrite concat_app. simpl. rewrite !visible_app, visible_trim. simpl.
      rewrite !app_nil_r, <- !app_assoc. reflexivity.
    + rewrite !visible_app. simpl. rewrite !app_nil_r, <- !app_assoc. reflexivity.
Qed.

(** X2: [prepareText] only moves, removes or inserts white space: the
    other code units of the text come out unchanged and in order. *)
Theorem prepareText_visible (text : jsstring) (maxLineLength : nat) :
  visible (prepareText text maxLineLength) = visible text.
Proof.
  rewrite prepareText_lines, visible_join.
  pose proof (wrapStep_visible maxLineLength (split_unit 32 text) ([], [])) as H.
  unfold wrappedLines.
  destruct (fold_left (wrapStep maxLineLength) (split_unit 32 text) ([], [])) as [lines line].
  cbn [fst snd] in H. rewrite visible_split in H. simpl in H. rewrite <- H.
  destruct line as [|c line]; [rewrite app_nil_r; reflexivity|].
  rewrite concat_app, !visible_app. simpl. rewrite app_nil_r, visible_trim. reflexivity.
Qed.

End Wrapping.

Section Short.

Lemma split_unit_spaced (s : jsstring) :
  concat ((fun word => word ++ [32%N]) <$> split_unit 32 s) = s ++ [32%N].
Proof.
  induction s as [|c s IH]; [reflexivity|].
  cbn [split_unit]. destruct (c =? 32)%N eqn:Hc.
  - apply N.eqb_eq in Hc. subst c. cbn [fmap list_fmap concat app]. rewrite IH. reflexivity.
  - destruct (split_unit_cons 32 s) as (word & words & Hw). rewrite Hw in IH |- *.
    cbn [fmap list_fmap concat app] in IH |- *. rewrite IH. reflexivity.
Qed.

Lemma wrapStep_fits (n : nat) (words : list jsstring) (lines : list jsstring) (line : jsstring) :
  length (line ++ concat ((fun word => word ++ [32%N]) <$> words)) <= S n ->
  fold_left (wrapStep n) words (lines, line)
  = (lines, line ++ concat ((fun word => word ++ [32%N]) <$> words)).
Proof.
  revert line. induction words as [|word words IH]; intros line Hlen.
  - simpl. rewrite app_nil_r. reflexivity.
  - cbn [fmap list_fmap concat] in Hlen |- *. cbn [fold_left]. unfold wrapStep at 2.
    assert (Hfit : (n <? length (line ++ word)) = false).
    { apply Nat.ltb_ge. rewrite !length_app in Hlen. rewrite length_app.
      cbn [length] in Hlen. idtac. lia. }
    rewrite <- !app_assoc in Hlen.
    rewrite Hfit, IH; rewrite <- !app_assoc; [reflexivity | exact Hlen].
Qed.

(** X3: a text that fits in one line is left alone: when it is no longer
    than [maxLineLength], [prepareText] returns it trimmed, with no line
    feed added. *)
Theorem prepareText_short (text : jsstring) (maxLineLength : nat) :
  length text <= maxLineLength -> prepareText text maxLineLength = trim text.
Proof.
  intros Hlen. rewrite prepareText_lines. unfold wrappedLines.
  rewrite wrapStep_fits; rewrite app_nil_l, split_unit_spaced.
  - destruct text as [|c text]; [reflexivity|]. exact (trim_space (c :: text)).
  - rewrite length_app. simpl. lia.
Qed.

End Short.

(** ** What a computation may do *)

Section Footprint.
Context {P : event -> Prop}.

Lemma adds_nothing {A} (m : M A) : (∀ st, (m st).2 = st) -> adds P m.
Proof.
  intros H st. exists []. rewrite H, app_nil_r.
  split; [reflexivity|]. split; [constructor|]. split; [reflexivity|]. intros p Hp. left. exact Hp.
Qed.

Lemma adds_ret {A} (a : A) : adds P (mret a).
Proof. apply adds_nothing. reflexivity. Qed.

Lemma adds_throw {A} (e : error) : adds P (throw e : M A).
Proof. apply adds_nothing. reflexivity. Qed.

Lemma adds_read {A} (oracle : State -> outcome A) : adds P (read oracle).
Proof. apply adds_nothing. reflexivity. Qed.

Lemma adds_existsSync (p : jsstring) : adds P (existsSync p).
Proof. apply adds_read. Qed.

Lemma adds_one {A} (e : event) (m : M A) :
  P e ->
  (∀ st, trace (m st).2 = trace st ++ [e]
         ∧ (files (m st).2 = files st
            ∨ ∃ p, p ∈ written e ∧ files (m st).2 = {[p]} ∪ files st)) ->
  adds P m.
Proof.
  intros HP H st. destruct (H st) as (Ht & Hf). exists [e].
  split; [exact Ht|]. split; [constructor; [exact HP | constructor]|].
  destruct Hf as [Hf|(p & Hp & Hf)]; rewrite Hf.
  - split; [reflexivity|]. intros q Hq. left. exact Hq.
  - split; [apply union_subseteq_r|]. intros q Hq.
    apply elem_of_union in Hq as [Hq|Hq]; [|left; exact Hq].
    apply elem_of_singleton in Hq. subst q. right. exists e. split; [left | exact Hp].
Qed.

Lemma adds_emit (e : event) : P e -> adds P (emit e).
Proof.
  intros HP. apply (adds_one e); [exact HP|]. intros st. split; [reflexivity | left; reflexivity].
Qed.

Lemma adds_warn (m : console) : P (Console m) -> adds P (emit (Console m)).
Proof. apply adds_emit. Qed.

Lemma adds_call {A} (e : event) (oracle : State -> outcome A) : P e -> adds P (call e oracle).
Proof.
  intros HP. apply (adds_one e); [exact HP|]. intros st. split; [reflexivity | left; reflexivity].
Qed.

Lemma adds_call_creating (e : event) (p : jsstring) (oracle : State -> outcome unit) :
  P e -> p ∈ written e -> adds P (call_creating e p oracle).
Proof.
  intros HP Hp. apply (adds_one e); [exact HP|]. intros st. unfold call_creating.
  destruct (oracle st) as [[]|err].
  - split; [reflexivity|]. right. exists p. split; [exact Hp | reflexivity].
  - split; [reflexivity | left; reflexivity].
Qed.

Lemma adds_step {A B} (m : M A) (k : outcome A -> M B) (m' : M B) :
  adds P m -> (∀ r, adds P (k r)) ->
  (∀ st, m' st = k (m st).1 (m st).2) ->
  adds P m'.
Proof.
  intros Hm Hk Heq st. rewrite Heq.
  destruct (Hm st) as (a1 & Ht1 & HP1 & Hs1 & Hn1).
  destruct (Hk (m st).1 (m st).2) as (a2 & Ht2 & HP2 & Hs2 & Hn2).
  exists (a1 ++ a2). split; [rewrite Ht2, Ht1, app_assoc; reflexivity|].
  split; [apply Forall_app; split; assumption|].
  split; [transitivity (files (m st).2); assumption|].
  intros p Hp. destruct (Hn2 p Hp) as [Hq|(e & He & Hw)].
  - destruct (Hn1 p Hq) as [Hq'|(e & He & Hw)]; [left; exact Hq'|].
    right. exists e. split; [apply elem_of_app; left; exact He | exact Hw].
  - right. exists e. split; [apply elem_of_app; right; exact He | exact Hw].
Qed.

Lemma adds_bind {A B} (m : M A) (f : A -> M B) :
  adds P m -> (∀ a, adds P (f a)) -> adds P (m ≫= f).
Proof.
  intros Hm Hf.
  apply (adds_step m (fun r => match r with Returned a => f a | Thrown e => throw e end)).
  - exact Hm.
  - intros [a|e]; [apply Hf | apply adds_throw].
  - intros st. unfold mbind, M_bind. destruct (m st) as [[a|e] st1]; reflexivity.
Qed.

Lemma adds_try_catch {A} (body : M A) (handler : error -> M A) :
  adds P body -> (∀ e, adds P (handler e)) -> adds P (try_catch body handler).
Proof.
  intros Hm Hf.
  apply (adds_step body (fun r => match r with Returned a => mret a | Thrown e => handler e end)).
  - exact Hm.
  - intros [a|e]; [apply adds_ret | apply Hf].
  - intros st. unfold try_catch. destruct (body st) as [[a|e] st1]; reflexivity.
Qed.

Lemma adds_attempt {A} (body : M A) : adds P body -> adds P (attempt body).
Proof.
  intros Hm. apply (adds_step body (fun r => mret r)).
  - exact Hm.
  - intros r. apply adds_ret.
  - intros st. unfold attempt. destruct (body st) as [r st1]. reflexivity.
Qed.

End Footprint.

Lemma adds_impl {A} (P Q : event -> Prop) (m : M A) :
  (∀ e, P e -> Q e) -> adds P m -> adds Q m.
Proof.
  intros HPQ Hm st. destruct (Hm st) as (added & Ht & HP & Hs & Hn).
  exists added. split; [exact Ht|]. split; [|split; assumption].
  eapply Forall_impl; [exact HP | exact HPQ].
Qed.

(** Follows the structure of a computation; what is left is that each
    event it emits satisfies the predicate. *)
Ltac footprint :=
  repeat first
    [ apply adds_ret | apply adds_throw | apply adds_existsSync | apply adds_read
    | apply adds_emit | apply adds_call | apply adds_call_creating
    | apply adds_bind; [|intros ?] | apply adds_try_catch; [|intros ?] | apply adds_attempt
    | match goal with
      | |- adds _ (match ?x with _ => _ end) => destruct x
      | |- adds _ (if ?x then _ else _) => destruct x
      end ].

(** ** The content fetcher *)

Section NewsFootprint.
Context (w : World).

Lemma retry_adds (date : jsstring) (P : event -> Prop) (remaining : list jsstring) (n : nat)
    (lastError : option error) :
  (∀ m, m ∈ remaining -> P (GenerateContent m date)) ->
  (∀ c, P (Console c)) ->
  adds P (retry w date remaining n lastError).
Proof.
  intros Hreq Hcon. revert n lastError.
  induction remaining as [|m rest IH]; intros n lastError; cbn [retry]; unfold warn, tryModel.
  - footprint. apply Hcon.
  - footprint; try apply Hcon.
    + apply Hreq. left.
    + apply IH. intros m' Hm'. apply Hreq. right. exact Hm'.
Qed.

Lemma getNews_adds (date : jsstring) : adds (newsEvent date) (getNews w date).
Proof.
  assert (Hretry : adds (newsEvent date) (retry w date models 0 None)).
  { apply retry_adds; [|intros c; exact I]. intros m Hm. split; [exact Hm | reflexivity]. }
  unfold getNews, warn.
  destruct (or_else (GEMINI_API_KEY w) (Some [])) as [[|c key]|];
    [footprint; exact I | exact Hretry | footprint; exact I].
Qed.

Lemma newsEvent_written (date : jsstring) (added : list event) :
  Forall (newsEvent date) added -> ∀ e, e ∈ added -> written e = [].
Proof.
  intros H e He. rewrite Forall_forall in H. specialize (H e He).
  destruct e; simpl in H |- *; try reflexivity; contradiction.
Qed.

(** X4: [getNews] touches nothing but the generative backend and the
    console: it returns, the files on disk are the same as before, and
    every call it made is a request for [date] to a model of the list.
    Without an API key it makes no request at all. *)
Theorem getNews_footprint (date : jsstring) (st : State) :
  ∃ d st' added,
    getNews w date st = (Returned d, st')
    ∧ trace st' = trace st ++ added
    ∧ Forall (newsEvent date) added
    ∧ files st' = files st
    ∧ (GEMINI_API_KEY w = None ∨ GEMINI_API_KEY w = Some [] ->
       d = Digest.empty ∧ added = [Console NoGeminiKey]).
Proof.
  assert (Hreturns : ∃ d st', getNews w date st = (Returned d, st')).
  { unfold getNews.
    destruct (or_else (GEMINI_API_KEY w) (Some [])) as [[|c key]|]; [run; eauto | | run; eauto].
    destruct (retry_spec w date models 0 None st)
      as (failures & _ & [(m & untried & d & _ & _ & ->)|(_ & ->)]); eauto. }
  destruct Hreturns as (d & st' & Hrun).
  destruct (getNews_adds date st) as (added & Htrace & Hadded & Hkept & Hnew).
  rewrite Hrun in Htrace, Hkept, Hnew. cbn [snd] in Htrace, Hkept, Hnew.
  exists d, st', added. split; [exact Hrun|]. split; [exact Htrace|]. split; [exact Hadded|].
  split.
  - apply set_eq. intros p. split; [|apply Hkept].
    intros Hp. destruct (Hnew p Hp) as [Hq|(e & He & Hw)]; [exact Hq|].
    rewrite (newsEvent_written date added Hadded e He) in Hw. inversion Hw.
  - intros Hkey. rewrite (getNews_without_key w date st Hkey) in Hrun.
    inversion Hrun; subst. split; [reflexivity|].
    cbn [record trace] in Htrace. apply app_inv_head in Htrace. symmetry. exact Htrace.
Qed.

End NewsFootprint.

(** ** The work on one item *)

Section ItemFootprint.
Context (w : World) (outputDir : jsstring) (item : Item.t).

Lemma fetchTTS_adds (content : jsstring) :
  adds (itemEvent w outputDir item)
    (fetchTTS w content (path_join w outputDir (audioName item))).
Proof.
  unfold fetchTTS, warn. footprint; simpl; try exact I; try reflexivity.
  apply list_elem_of_here.
Qed.

Lemma fetchImage_adds (query : jsstring) :
  adds (itemEvent w outputDir item)
    (fetchImage w query (path_join w outputDir (imageName item))).
Proof.
  unfold fetchImage, warn. footprint; simpl; try exact I; try reflexivity.
  apply list_elem_of_here.
Qed.

Lemma overlayImage_adds (videoFile imageFile : jsstring) :
  adds (itemEvent w outputDir item)
    (overlayImage w videoFile imageFile (path_join w outputDir (overlayName item))).
Proof.
  unfold overlayImage.
  destruct videoFile; [apply adds_throw|]. destruct imageFile; [apply adds_throw|].
  destruct (path_join w outputDir (overlayName item)) eqn:Hout; [apply adds_throw|].
  apply adds_call_creating; simpl; [left; symmetry; exact Hout | apply list_elem_of_here].
Qed.

Lemma generateReel_adds (imageFile videoFile audioFile titleText descText : jsstring) :
  adds (itemEvent w outputDir item)
    (generateReel w imageFile videoFile audioFile titleText descText
       (path_join w outputDir (reelName (Item.language item) (Item.id item + 1)))).
Proof.
  unfold generateReel, getVideoDimensions, ffprobePromise, warn.
  footprint; simpl; try exact I; try (right; reflexivity).
  apply list_elem_of_here.
Qed.

Lemma illustrate_adds (title : jsstring) :
  adds (itemEvent w outputDir item)
    (illustrate w title (path_join w outputDir (imageName item))).
Proof.
  unfold illustrate, fs_access, warn.
  repeat first
    [ apply fetchImage_adds | apply adds_ret | apply adds_throw | apply adds_emit
    | apply adds_bind; [|intros ?] | apply adds_try_catch; [|intros ?] ];
    exact I.
Qed.

Lemma prepareField_adds (P : event -> Prop) (value : Field.t) (n : nat) :
  adds P (prepareField value n).
Proof. destruct value as [text|[] shown]; [apply adds_ret | apply adds_throw | apply adds_ret]. Qed.

Lemma composeItem_adds (audioPath : jsstring) :
  adds (itemEvent w outputDir item) (composeItem w outputDir item audioPath).
Proof.
  unfold composeItem, warn.
  apply adds_bind; [apply prepareField_adds | intros title].
  apply adds_bind; [apply prepareField_adds | intros description].
  apply adds_bind; [apply illustrate_adds | intros _].
  apply adds_bind.
  - apply adds_try_catch; [apply overlayImage_adds | intros e; apply adds_emit; exact I].
  - intros _. apply adds_try_catch; [apply generateReel_adds | intros e; apply adds_emit; exact I].
Qed.


End ItemFootprint.

Section Accounting.
Context (w : World) (outputDir : jsstring).





End Accounting.

Section LoopFootprint.
Context (w : World) (outputDir : jsstring).

Lemma iteration_adds (allNews : list Item.t) (audioFiles : list Audio.t) (item : Item.t) :
  item ∈ allNews ->
  adds (loopEvent w outputDir allNews) (iteration w outputDir audioFiles item).
Proof.
  intros Hin. unfold iteration, warn.
  apply adds_bind.
  - apply adds_attempt. eapply adds_impl; [|apply (fetchTTS_adds w outputDir item)].
    intros e He. left. eauto.
  - intros [[]|e].
    + apply adds_bind; [|intros ?; apply adds_ret].
      eapply adds_impl; [|apply composeItem_adds]. intros e He. left. eauto.
    + apply adds_bind; [|intros ?; apply adds_ret].
      apply adds_emit. right. left. eauto.
Qed.

Lemma iterate_adds (allNews items : list Item.t) (audioFiles : list Audio.t) :
  (∀ item, item ∈ items -> item ∈ allNews) ->
  adds (loopEvent w outputDir allNews) (iterate w outputDir audioFiles items).
Proof.
  revert audioFiles. induction items as [|item rest IH]; intros audioFiles Hin; cbn [iterate].
  - apply adds_ret.
  - apply adds_bind.
    + apply iteration_adds. apply Hin. left.
    + intros a. apply IH. intros x Hx. apply Hin. right. exact Hx.
Qed.

Lemma generateTTS_adds (allNews : list Item.t) :
  adds (loopEvent w outputDir allNews) (generateTTS w allNews outputDir).
Proof.
  unfold generateTTS, warn.
  destruct allNews as [|item rest]; [|apply iterate_adds; intros x Hx; exact Hx].
  apply adds_bind; [|intros ?; apply adds_ret]. apply adds_emit. right. right. reflexivity.
Qed.

Lemma loopEvent_written (allNews : list Item.t) (e : event) (p : jsstring) :
  loopEvent w outputDir allNews e -> p ∈ written e ->
  ∃ item name, item ∈ allNews ∧ name ∈ itemFiles item ∧ p = path_join w outputDir name.
Proof.
  intros [(item & Hin & He) | [(title & ->) | ->]] Hp; try (inversion Hp; fail).
  exists item. unfold itemFiles.
  destruct e as [| |q|q| | |cmd|m]; simpl in He, Hp; try (inversion Hp; fail);
    apply list_elem_of_singleton in Hp; subst p.
  - exists (audioName item). split; [exact Hin|]. split; [|exact He]. left.
  - exists (imageName item). split; [exact Hin|]. split; [|exact He]. right. left.
  - destruct He as [He|He].
    + exists (overlayName item). split; [exact Hin|]. split; [|exact He]. right. right. left.
    + exists (reelName (Item.language item) (Item.id item + 1)).
      split; [exact Hin|]. split; [|exact He]. right. right. right. left.
Qed.

(** X6: [generateTTS] writes four files per item and nothing else: a
    file that exists afterwards existed before, or it is the narration,
    the illustration, the intermediate clip or the captioned clip of an
    item of the list, under its name joined to [outputDir]. (Whether
    that lies inside the folder rests with the language of the item,
    which is part of three of the names.) It asks no model and starts
    no stream check. *)
Theorem generateTTS_writes (allNews : list Item.t) (st : State) :
  ∃ added,
    trace (generateTTS w allNews outputDir st).2 = trace st ++ added
    ∧ Forall (fun e => ∀ m d f, e ≠ GenerateContent m d ∧ e ≠ ExecProbe f) added
    ∧ ∀ p, p ∈ files (generateTTS w allNews outputDir st).2 ->
           p ∈ files st
           ∨ ∃ item name,
               item ∈ allNews ∧ name ∈ itemFiles item ∧ p = path_join w outputDir name.
Proof.
  destruct (generateTTS_adds allNews st) as (added & Ht & HP & _ & Hn).
  exists added. split; [exact Ht|]. split.
  - eapply Forall_impl; [exact HP|]. intros e He m d f.
    destruct He as [(item & _ & He) | [(title & ->) | ->]]; [|split; discriminate..].
    destruct e; simpl in He; try contradiction; split; discriminate.
  - intros p Hp. destruct (Hn p Hp) as [Hq|(e & He & Hw)]; [left; exact Hq|]. right.
    rewrite Forall_forall in HP. exact (loopEvent_written allNews e p (HP e He) Hw).
Qed.

End LoopFootprint.

(** ** Narration and captioned clip *)

Section Steps.
Context (w : World).

Lemma find_dimensioned_none (streams : list Stream.t) :
  List.find dimensioned streams = None -> Forall (fun s => dimensioned s = false) streams.
Proof.
  intros H. apply Forall_forall. intros s Hs.
  apply (List.find_none _ _ H). apply list_elem_of_In. exact Hs.
Qed.

Lemma generateReel_probes_first
    (imageFile videoFile audioFile titleText descText outputFile : jsstring) (st : State) :
  ∃ r st' added,
    generateReel w imageFile videoFile audioFile titleText descText outputFile st = (r, st')
    ∧ trace st' = trace st ++ Probe audioFile :: added.
Proof.
  unfold generateReel, getVideoDimensions, ffprobePromise. run.
  destruct (ffprobe w st audioFile) as [audio|e].
  2:{ eexists _, _, []. split; reflexivity. }
  destruct (ffprobe w _ videoFile) as [video|e].
  2:{ eexists _, _, [_]. split; [reflexivity|]. cbn [trace]. rewrite <- app_assoc. reflexivity. }
  destruct (List.find dimensioned (Metadata.streams video)) as [stream|]; run.
  2:{ eexists _, _, [_]. split; [reflexivity|]. cbn [trace]. rewrite <- app_assoc. reflexivity. }
  case_save e.
  - eexists _, _, [_; _]. split; [reflexivity|]. cbn [trace]. rewrite <- !app_assoc. reflexivity.
  - eexists _, _, [_; _; _]. split; [reflexivity|]. cbn [trace]. rewrite <- !app_assoc.
    reflexivity.
Qed.

(** X7: [generateReel] probes the narration, then the clip, and only then
    starts ffmpeg, once. It rejects without starting ffmpeg when a probe
    fails or when no stream of the clip has both dimensions (a TypeError);
    it resolves only when ffmpeg succeeded, and then the output is on
    disk; a failure of ffmpeg is reported and rethrown. *)
Theorem generateReel_outcome
    (imageFile videoFile audioFile titleText descText outputFile : jsstring) (st : State) :
  ∃ r st' added,
    generateReel w imageFile videoFile audioFile titleText descText outputFile st = (r, st')
    ∧ trace st' = trace st ++ Probe audioFile :: added
    ∧ ((∃ e, r = Thrown e ∧ added = [] ∧ files st' = files st
             ∧ ffprobe w st audioFile = Thrown e)
       ∨ (∃ e, r = Thrown e ∧ added = [Probe videoFile] ∧ files st' = files st
               ∧ (ffprobe w (record (Probe audioFile) st) videoFile = Thrown e
                  ∨ ∃ video,
                      ffprobe w (record (Probe audioFile) st) videoFile = Returned video
                      ∧ Forall (fun s => dimensioned s = false) (Metadata.streams video)
                      ∧ e = TypeError
                              (js "Cannot read properties of undefined (reading 'width')")))
       ∨ (∃ cmd, r = Returned tt ∧ added = [Probe videoFile; Run cmd]
                 ∧ Command.output cmd = outputFile
                 ∧ files st' = {[outputFile]} ∪ files st)
       ∨ (∃ cmd e, r = Thrown e
                   ∧ added = [Probe videoFile; Run cmd; Console (FFmpegErrorReel e)]
                   ∧ Command.output cmd = outputFile
                   ∧ files st' = files st)).
Proof.
  unfold generateReel, getVideoDimensions, ffprobePromise. run.
  destruct (ffprobe w st audioFile) as [audio|e] eqn:Haudio.
  2:{ eexists _, _, []. split; [reflexivity|]. split; [reflexivity|]. left. eauto. }
  destruct (ffprobe w _ videoFile) as [video|e] eqn:Hvideo.
  2:{ eexists _, _, [Probe videoFile]. split; [reflexivity|].
      split; [cbn [trace]; rewrite <- app_assoc; reflexivity|]. right. left.
      exists e. repeat split. left. reflexivity. }
  destruct (List.find dimensioned (Metadata.streams video)) as [stream|] eqn:Hfind; run.
  2:{ eexists _, _, [Probe videoFile]. split; [reflexivity|].
      split; [cbn [trace]; rewrite <- app_assoc; reflexivity|]. right. left.
      eexists. repeat split. right. exists video.
      split; [reflexivity|]. split; [apply find_dimensioned_none; exact Hfind | reflexivity]. }
  case_save e.
  - eexists _, _, [Probe videoFile; Run _]. split; [reflexivity|].
    split; [cbn [trace]; rewrite <- !app_assoc; reflexivity|]. right. right. left.
    eexists. repeat split.
  - eexists _, _, [Probe videoFile; Run _; Console (FFmpegErrorReel e)]. split; [reflexivity|].
    split; [cbn [trace]; rewrite <- !app_assoc; reflexivity|]. right. right. right.
    eexists _, e. repeat split.
Qed.


Lemma ttsURL_wellFormed (content : jsstring) :
  is_Some (ttsURL content) <-> isWellFormed content = true.
Proof.
  rewrite <- encodeURIComponent_wellFormed. unfold ttsURL.
  destruct (encodeURIComponent content) as [input|]; cbn [mbind option_bind].
  - destruct (encodeURIComponent (stringify vibe)) as [prompt|] eqn:Hp.
    + split; eauto.
    + exfalso. revert Hp. vm_compute. discriminate.
  - split; intros [x Hx]; discriminate Hx.
Qed.

(** X8: [fetchTTS] resolves only after one request, with a timeout of
    60000 ms, and the write of the audio file, which is then on disk.
    Every failure is reported and the same error rethrown, with the files
    untouched; a text with a lone surrogate fails with a URIError before
    any request is made. *)
Theorem fetchTTS_outcome (content folderPath : jsstring) (st : State) :
  ∃ r st',
    fetchTTS w content folderPath st = (r, st')
    ∧ match r with
      | Returned _ =>
          ∃ url, ttsURL content = Some url
                 ∧ trace st' = trace st ++ [Get url (Some 60000%N); WriteFile folderPath]
                 ∧ files st' = {[folderPath]} ∪ files st
      | Thrown e =>
          files st' = files st
          ∧ ((isWellFormed content = false ∧ e = URIError
              ∧ trace st' = trace st ++ [Console (FailedTTS e)])
             ∨ ∃ url, ttsURL content = Some url
                      ∧ (trace st' = trace st ++ [Get url (Some 60000%N); Console (FailedTTS e)]
                         ∨ trace st' = trace st ++ [Get url (Some 60000%N); WriteFile folderPath;
                                                    Console (FailedTTS e)]))
      end.
Proof.
  unfold fetchTTS. destruct (ttsURL content) as [url|] eqn:Hurl; run.
  - case_get data e.
    + destruct (writeFileSync w _ folderPath data) as [[]|e].
      * eexists _, _. split; [reflexivity|]. exists url. cbn [files trace].
        rewrite <- app_assoc. repeat split.
      * eexists _, _. split; [reflexivity|]. cbn [files trace]. split; [reflexivity|].
        right. exists url. split; [reflexivity|]. right. rewrite <- !app_assoc. reflexivity.
    + eexists _, _. split; [reflexivity|]. cbn [files trace]. split; [reflexivity|].
      right. exists url. split; [reflexivity|]. left. rewrite <- !app_assoc. reflexivity.
  - eexists _, _. split; [reflexivity|]. cbn [files trace]. split; [reflexivity|]. left.
    split; [|split; reflexivity].
    destruct (isWellFormed content) eqn:Hwf; [|reflexivity].
    apply ttsURL_wellFormed in Hwf. rewrite Hurl in Hwf. destruct Hwf as [x Hx]. discriminate Hx.
Qed.

End Steps.

Section LoopBody.
Context (w : World) (outputDir : jsstring) (item : Item.t).

(** X9: the part of the loop body that follows the narration. For an
    item whose title and description are strings (or falsy, and then
    replaced by the empty string) it never throws, and a failure of the
    illustration or of the overlay does not stop it: the narration is
    probed for the captioned clip in every case. For an item with a
    truthy title or description that is not a string it throws a
    TypeError before any call, outside every [try], and the loop of
    [generateTTS] rejects with it although the narration was saved. *)
Theorem composeItem_attempts_reel (audioPath : jsstring) (st : State) :
  (Item.textual item ->
   ∃ st' before after,
     composeItem w outputDir item audioPath st = (Returned tt, st')
     ∧ trace st' = trace st ++ before ++ Probe audioPath :: after)
  ∧ (¬ Item.textual item ->
     composeItem w outputDir item audioPath st
     = (Thrown (TypeError (js "text.split is not a function")), st)
     ∧ ∀ audioFiles rest st0,
         fetchTTS w (Field.toString (Item.description item))
           (path_join w outputDir (audioName item)) st0 = (Returned tt, st) ->
         iterate w outputDir audioFiles (item :: rest) st0
         = (Thrown (TypeError (js "text.split is not a function")), st)).
Proof.
  split.
  - intros [Htitle Hdesc]. unfold composeItem.
    match goal with
    | |- ∃ _ _ _, (prepareField ?v ?n ≫= _) st = _ ∧ _ =>
        destruct (prepareField_textual v n st Htitle) as [title H]
    end.
    unfold mbind at 1, M_bind at 1. rewrite H. clear H.
    destruct (prepareField_textual (Item.description item) 46 st Hdesc) as [description H].
    unfold mbind at 1, M_bind at 1. rewrite H. clear H.
    match goal with
    | |- context [illustrate w ?t ?p] =>
        destruct (illustrate_returns w t p st) as (st1 & Hill);
        destruct (illustrate_adds w outputDir item t st) as (a1 & Ht1 & _);
        change (trace (illustrate w t p st).2 = trace st ++ a1) in Ht1;
        rewrite Hill in Ht1; cbn [snd] in Ht1
    end.
    unfold mbind at 1, M_bind at 1. rewrite Hill.
    match goal with
    | |- context [try_catch (overlayImage w ?v ?i ?o) ?h] =>
        destruct (try_catch_returns (overlayImage w v i o) h st1) as (st2 & Hover);
          [intros e s; apply warn_returns|];
        assert (Hov : adds (itemEvent w outputDir item) (try_catch (overlayImage w v i o) h))
          by (apply adds_try_catch;
              [apply overlayImage_adds | intros e; apply adds_emit; exact I]);
        destruct (Hov st1) as (a2 & Ht2 & _); rewrite Hover in Ht2; cbn [snd] in Ht2
    end.
    unfold mbind at 1, M_bind at 1. rewrite Hover.
    match goal with
    | |- context [generateReel w ?i ?v ?a ?t ?d ?o] =>
        destruct (generateReel_probes_first w i v a t d o st2) as (r & st3 & a3 & Hreel & Ht3)
    end.
    unfold try_catch at 1. rewrite Hreel.
    destruct r as [[]|e].
    + exists st3, (a1 ++ a2), a3. split; [reflexivity|].
      rewrite Ht3, Ht2, Ht1, <- !app_assoc. reflexivity.
    + eexists _, (a1 ++ a2), (a3 ++ [_]). unfold warn, emit. split; [reflexivity|].
      cbn [record trace]. rewrite Ht3, Ht2, Ht1, <- !app_assoc. reflexivity.
  - intros Hnot. split; [apply composeItem_throws; exact Hnot|].
    intros audioFiles rest st0 Htts.
    rewrite (iterate_narrated w outputDir audioFiles item rest st0 st Htts).
    change (path_join w outputDir
              (js "audio_" ++ String_of_N (Item.id item + 1) ++ js "_" ++ Item.language item
               ++ js ".mp3")) with (path_join w outputDir (audioName item)).
    rewrite (composeItem_throws w outputDir item _ st Hnot). reflexivity.
Qed.

End LoopBody.

(** ** Merging *)

Section Merging.
Context (w : World).

Lemma checkAll_adds (P : event -> Prop) (videoFiles : list jsstring) :
  (∀ file, file ∈ videoFiles -> P (ExecProbe file)) -> adds P (checkAll w videoFiles).
Proof.
  induction videoFiles as [|file rest IH]; intros HP; cbn [checkAll]; [apply adds_ret|].
  unfold checkStreams. footprint.
  - apply HP. left.
  - apply IH. intros f Hf. apply HP. right. exact Hf.
Qed.

Lemma mergeVideos_adds (videoFiles : list jsstring) (outputFile : jsstring) :
  adds (mergeEvent videoFiles outputFile) (mergeVideos w videoFiles outputFile).
Proof.
  unfold mergeVideos, validateVideos, warn.
  apply adds_bind.
  { apply adds_bind; [apply checkAll_adds; intros file Hf; exact Hf|].
    intros rs. destruct (Promise_all rs); [apply adds_ret | apply adds_throw]. }
  intros results. apply adds_bind.
  { destruct (List.filter _ results); [apply adds_ret | apply adds_emit; exact I]. }
  intros _. destruct videoFiles as [|file rest] eqn:Hfiles; [apply adds_throw|].
  rewrite <- Hfiles.
  apply adds_try_catch.
  - apply adds_call_creating; [|apply list_elem_of_here].
    split; [reflexivity|]. rewrite Hfiles. discriminate.
  - intros e. apply adds_bind; [apply adds_emit; exact I | intros _; apply adds_throw].
Qed.

Lemma checkAll_unreadable (videoFiles : list jsstring) (file : jsstring) (e0 : error)
    (st st1 : State) (rs : list (outcome Check.t)) :
  file ∈ videoFiles ->
  (∀ s, exec_ffprobe w s file = Thrown e0) ->
  checkAll w videoFiles st = (Returned rs, st1) ->
  ∃ e, Promise_all rs = Thrown e.
Proof.
  intros Hin Hfail. revert st rs.
  induction videoFiles as [|f rest IH]; intros st rs; [inversion Hin|].
  cbn [checkAll]. unfold checkStreams. run.
  destruct (checkAll_trace w rest (record (ExecProbe f) st)) as (rs' & st2 & Hrest & _).
  run_in Hrest.
  destruct (exec_ffprobe w st f) as [streams|e] eqn:Hf; run; rewrite Hrest; intros [= <- <-].
  - apply elem_of_cons in Hin as [->|Hin]; [rewrite Hfail in Hf; discriminate Hf|].
    destruct (IH Hin _ _ Hrest) as (e & He). exists e. cbn [Promise_all]. rewrite He. reflexivity.
  - exists e. reflexivity.
Qed.

(** X10: one clip whose streams cannot be read aborts the merge: every clip
    of the list is still checked, but [mergeVideos] rejects without
    starting ffmpeg and without any console output. *)
Theorem mergeVideos_unreadable_clip (videoFiles : list jsstring) (outputFile file : jsstring)
    (e0 : error) (st : State) :
  file ∈ videoFiles ->
  (∀ s, exec_ffprobe w s file = Thrown e0) ->
  ∃ e st',
    mergeVideos w videoFiles outputFile st = (Thrown e, st')
    ∧ trace st' = trace st ++ (ExecProbe <$> videoFiles)
    ∧ files st' = files st.
Proof.
  intros Hin Hfail.
  destruct (checkAll_trace w videoFiles st) as (rs & st1 & Hall & _ & Ht & Hf).
  destruct (checkAll_unreadable videoFiles file e0 st st1 rs Hin Hfail Hall) as (e & He).
  exists e, st1. split; [|split; assumption].
  unfold mergeVideos, validateVideos. unfold mbind, M_bind. rewrite Hall, He. reflexivity.
Qed.

Lemma getAllVideos_reads (folderPath language : jsstring) (st : State) :
  (getAllVideos w folderPath language st).2 = st.
Proof.
  unfold getAllVideos. run. destruct (bool_decide (folderPath ∈ files st)); [|reflexivity].
  destruct (readdirSync w st folderPath); reflexivity.
Qed.

Lemma allVideos_exist (outputDir lang : jsstring) (st : State) :
  (allVideos w outputDir lang st).2 = st
  ∧ ∀ videos, (allVideos w outputDir lang st).1 = Returned videos ->
              Forall (fun file => file ∈ files st) videos.
Proof.
  unfold allVideos. unfold mbind, M_bind.
  pose proof (getAllVideos_reads outputDir lang st) as Hst.
  destruct (getAllVideos w outputDir lang st) as [[videos|e] st1]; cbn [snd] in Hst; subst st1.
  - split; [reflexivity|]. intros vs Hv.
    pose (candidates := [intro w] ++ videos ++ [outro w]).
    change (Returned (List.filter (fun p => bool_decide (p ∈ files st)) candidates)
            = Returned vs) in Hv.
    clearbody candidates. injection Hv as <-. apply Forall_forall. intros file Hfile.
    apply list_elem_of_In, List.filter_In in Hfile as [_ Hfile].
    apply bool_decide_eq_true in Hfile. exact Hfile.
  - split; [reflexivity|]. intros videos Hv. discriminate Hv.
Qed.

(** X11: the merge of one language never hands ffmpeg a file that does not
    exist, nor an empty list: every clip it checks and every input of the
    command it starts was on disk when the list was built, and the only
    output is final_{lang}_video.mp4 in the output folder. *)
Theorem mergeLanguage_inputs_exist (outputDir lang : jsstring) (st : State) :
  ∃ added,
    trace (mergeLanguage w outputDir lang st).2 = trace st ++ added
    ∧ Forall (fun e =>
                match e with
                | ExecProbe file => file ∈ files st
                | Run cmd =>
                    Command.inputs cmd ≠ []
                    ∧ Forall (fun file => file ∈ files st) (Command.inputs cmd)
                    ∧ Command.output cmd
                      = path_join w outputDir (js "final_" ++ lang ++ js "_video.mp4")
                | Console _ => True
                | _ => False
                end) added.
Proof.
  unfold mergeLanguage. unfold mbind, M_bind.
  destruct (allVideos_exist outputDir lang st) as (Hst & Hex).
  destruct (allVideos w outputDir lang st) as [[videos|e] st1]; cbn [fst snd] in Hst, Hex;
    subst st1.
  2:{ exists []. rewrite app_nil_r. split; [reflexivity | constructor]. }
  specialize (Hex videos eq_refl).
  destruct videos as [|file rest] eqn:Hvideos.
  { exists []. rewrite app_nil_r. split; [reflexivity | constructor]. }
  rewrite <- Hvideos in *.
  destruct (mergeVideos_adds videos
              (path_join w outputDir (js "final_" ++ lang ++ js "_video.mp4")) st)
    as (added & Ht & HP & _).
  exists added. split; [exact Ht|].
  eapply Forall_impl; [exact HP|]. intros e He.
  destruct e as [| | | | |f|cmd|m]; simpl in He; try contradiction; try exact I.
  - rewrite Forall_forall in Hex. apply Hex. exact He.
  - destruct He as [-> Hne]. cbn [concatCommand Command.inputs Command.output].
    split; [exact Hne|]. split; [exact Hex | reflexivity].
Qed.

End Merging.

(** ** Reel names and their order *)

Section ReelNames.

Lemma js_String (c : ascii) (s : string) : js (String c s) = N_of_ascii c :: js s.
Proof. reflexivity. Qed.

Lemma uint_digits (d : Decimal.uint) :
  Forall (fun c => JSON.isDigit c = true) (js (NilEmpty.string_of_uint d)).
Proof.
  induction d; cbn [NilEmpty.string_of_uint]; [constructor|..];
    rewrite js_String; constructor; (reflexivity || assumption).
Qed.

Lemma uint_value_acc (d : Decimal.uint) (acc : positive) :
  fold_left (fun acc d => (acc * 10 + (d - 48))%N) (js (NilEmpty.string_of_uint d)) (N.pos acc)
  = N.pos (Pos.of_uint_acc d acc).
Proof.
  revert acc. induction d; intros acc; cbn [NilEmpty.string_of_uint Pos.of_uint_acc];
    [reflexivity|..]; rewrite js_String; cbn [fold_left]; rewrite <- IHd; f_equal;
    change (N_of_ascii _ - 48)%N with 0%N || change (N_of_ascii _ - 48)%N with 1%N
    || change (N_of_ascii _ - 48)%N with 2%N || change (N_of_ascii _ - 48)%N with 3%N
    || change (N_of_ascii _ - 48)%N with 4%N || change (N_of_ascii _ - 48)%N with 5%N
    || change (N_of_ascii _ - 48)%N with 6%N || change (N_of_ascii _ - 48)%N with 7%N
    || change (N_of_ascii _ - 48)%N with 8%N || change (N_of_ascii _ - 48)%N with 9%N; lia.
Qed.

Lemma uint_value (d : Decimal.uint) :
  fold_left (fun acc d => (acc * 10 + (d - 48))%N) (js (NilEmpty.string_of_uint d)) 0%N
  = N.of_uint d.
Proof.
  unfold N.of_uint.
  induction d; cbn [NilEmpty.string_of_uint Pos.of_uint]; [reflexivity|..];
    rewrite js_String; cbn [fold_left]; [exact IHd|..]; apply (uint_value_acc d).
Qed.

(** [String(n)] is a non-empty string of decimal digits whose value is [n]. *)
Lemma String_of_N_digits (n : N) :
  String_of_N n ≠ [] ∧ Forall (fun c => JSON.isDigit c = true) (String_of_N n).
Proof.
  unfold String_of_N, NilZero.string_of_uint.
  destruct (N.to_uint n) as [|d|d|d|d|d|d|d|d|d|d].
  1: split; [discriminate | repeat constructor].
  all: split; [cbn [NilEmpty.string_of_uint]; rewrite js_String; discriminate | apply uint_digits].
Qed.

Lemma String_of_N_value (n : N) :
  fold_left (fun acc d => (acc * 10 + (d - 48))%N) (String_of_N n) 0%N = n.
Proof.
  rewrite <- (DecimalN.Unsigned.of_to n) at 2.
  unfold String_of_N, NilZero.string_of_uint.
  destruct (N.to_uint n) eqn:Hn; try apply uint_value. reflexivity.
Qed.

Lemma reelName_number (language : jsstring) (n : N) :
  (n < 2 ^ 53)%N ->
  isReel language (reelName language n) = true
  ∧ reelNumber language (reelName language n) = Finite n.
Proof.
  intros Hn. destruct (String_of_N_digits n) as [Hne Hdigits].
  assert (Hmatch : matchReel language (reelName language n) = Some (String_of_N n)).
  { apply matchReel_name; assumption. }
  unfold isReel, reelNumber. rewrite Hmatch. split.
  - apply bool_decide_eq_true. eauto.
  - change (parseInt (String_of_N n) = Finite n).
    unfold parseInt. rewrite String_of_N_value. apply toDouble_exact. exact Hn.
Qed.


(** X12: the name under which the captioned clip of an item is written is
    read back by [getAllVideos]: for a language made of letters and a
    number below 2^53, reel_{language}{n}.mp4 matches the pattern of that
    language and the number parsed from it is [n]. *)
Theorem reel_name_roundtrip (language : jsstring) (n : N) :
  lettersOnly language ->
  (n < 2 ^ 53)%N ->
  matchReel language (reelName language n) = Some (String_of_N n)
  ∧ isReel language (reelName language n) = true
  ∧ reelNumber language (reelName language n) = Finite n.
Proof.
  intros _ Hn. destruct (String_of_N_digits n) as [Hne Hdigits].
  split; [apply matchReel_name; assumption | apply reelName_number; exact Hn].
Qed.

End ReelNames.

Section ReelOrder.
Context (w : World).

Lemma isReel_prefix (language file : jsstring) :
  isReel language file = true -> startsWith_i file (js "reel_" ++ language) = true.
Proof.
  unfold isReel, matchReel. intros H. apply bool_decide_eq_true in H as [digits H].
  destruct (startsWith_i file (js "reel_" ++ language)); [reflexivity | discriminate H].
Qed.

(** The sixth code unit of a reel name is the first letter of its
    language, in either case. *)
Lemma reel_initial (c : N) (language file : jsstring) :
  startsWith_i file (js "reel_" ++ c :: language) = true ->
  ∃ d, file !! 5 = Some d ∧ toASCIIUpper d = toASCIIUpper c.
Proof.
  change (js "reel_" ++ c :: language)
    with (114 :: 101 :: 101 :: 108 :: 95 :: c :: language)%N.
  destruct file as [|c0 [|c1 [|c2 [|c3 [|c4 [|c5 file]]]]]]; cbn [startsWith_i];
    rewrite ?andb_false_r; try discriminate.
  intros H. repeat (apply andb_prop in H as [? H]). exists c5. split; [reflexivity|].
  match goal with Hc : (toASCIIUpper c5 =? _)%N = true |- _ => apply N.eqb_eq in Hc; exact Hc end.
Qed.

(** X13: no file is a reel of two of the three languages, so no clip is
    merged into two final videos. *)
Theorem reel_of_one_language (language other file : jsstring) :
  language ∈ languages -> other ∈ languages -> language ≠ other ->
  isReel language file = true -> isReel other file = false.
Proof.
  intros Hl Ho Hne Hreel.
  destruct (isReel other file) eqn:Hother; [exfalso | reflexivity].
  apply isReel_prefix in Hreel, Hother.
  unfold languages in Hl, Ho.
  repeat (apply elem_of_cons in Hl as [->|Hl]); [| | |inversion Hl];
    (repeat (apply elem_of_cons in Ho as [->|Ho]); [| | |inversion Ho]);
    try (apply Hne; reflexivity);
    apply reel_initial in Hreel as (d & Hd & Hup);
    apply reel_initial in Hother as (d' & Hd' & Hup');
    rewrite Hd in Hd'; injection Hd' as <-; rewrite Hup in Hup'; vm_compute in Hup';
    discriminate Hup'.
Qed.

Lemma filter_Permutation' {A} (f : A -> bool) (l1 l2 : list A) :
  l1 ≡ₚ l2 -> List.filter f l1 ≡ₚ List.filter f l2.
Proof.
  induction 1 as [|x l1 l2 _ IH|x y l|l1 l2 l3 _ IH1 _ IH2]; cbn [List.filter].
  - reflexivity.
  - destruct (f x); [constructor|]; exact IH.
  - destruct (f x), (f y); try reflexivity. constructor.
  - etrans; eassumption.
Qed.

Lemma numLe_antisym (x y : number) : numLe x y -> numLe y x -> x = y.
Proof. destruct x, y; simpl; try done. intros. f_equal. lia. Qed.

(** X14: the order of the merge list does not depend on the order in which
    the directory lists its entries, as long as no two reels of the
    language carry the same number. *)
Theorem getAllVideos_listing_order (folderPath language : jsstring) (st1 st2 : State)
    (listing1 listing2 : list jsstring) :
  folderPath ∈ files st1 -> folderPath ∈ files st2 ->
  readdirSync w st1 folderPath = Returned listing1 ->
  readdirSync w st2 folderPath = Returned listing2 ->
  listing1 ≡ₚ listing2 ->
  (∀ a b, a ∈ listing1 -> b ∈ listing1 ->
          isReel language a = true -> isReel language b = true ->
          reelNumber language a = reelNumber language b -> a = b) ->
  (getAllVideos w folderPath language st1).1 = (getAllVideos w folderPath language st2).1.
Proof.
  intros Hf1 Hf2 Hl1 Hl2 Hperm Hdistinct.
  unfold getAllVideos. run.
  rewrite (bool_decide_eq_true_2 _ Hf1), (bool_decide_eq_true_2 _ Hf2), Hl1, Hl2.
  cbn [fst]. f_equal. f_equal.
  apply (StronglySorted_unique_strong
           (fun a b => numLe (reelNumber language a) (reelNumber language b))).
  - intros a b Ha Hb Hab Hba.
    assert (Hin : ∀ x, x ∈ Array_sort (fun a b => minus_positive (reelNumber language a)
                                                               (reelNumber language b))
                         (List.filter (isReel language) listing1) ->
                       x ∈ listing1 ∧ isReel language x = true).
    { intros x Hx. rewrite (Array_sort_perm (reelNumber language)) in Hx.
      apply list_elem_of_In, List.filter_In in Hx as [Hx Hr].
      split; [apply list_elem_of_In; exact Hx | exact Hr]. }
    assert (Hb' : b ∈ Array_sort (fun a b => minus_positive (reelNumber language a)
                                                          (reelNumber language b))
                         (List.filter (isReel language) listing1)).
    { rewrite (Array_sort_perm (reelNumber language)) in Hb |- *.
      rewrite (filter_Permutation' _ _ _ Hperm). exact Hb. }
    destruct (Hin a Ha) as [Ha1 Ha2]. destruct (Hin b Hb') as [Hb1 Hb2].
    apply Hdistinct; try assumption. apply numLe_antisym; assumption.
  - apply (Array_sort_sorted (reelNumber language)).
  - apply (Array_sort_sorted (reelNumber language)).
  - rewrite !(Array_sort_perm (reelNumber language)). apply filter_Permutation'. exact Hperm.
Qed.

End ReelOrder.

Section Numeric.
Context (w : World).

(** X15: the reels are merged by number, not by name and not in directory
    order: when the reels of the language in the folder are those written
    for the numbers [ns] (each below 2^53), [getAllVideos] returns their
    paths in increasing number, so that clip 10 follows clip 2. *)
Theorem getAllVideos_numeric_order (folderPath language : jsstring) (st : State)
    (listing : list jsstring) (ns : list N) :
  lettersOnly language ->
  folderPath ∈ files st ->
  readdirSync w st folderPath = Returned listing ->
  List.filter (isReel language) listing ≡ₚ reelName language <$> ns ->
  Forall (fun n => (n < 2 ^ 53)%N) ns ->
  (getAllVideos w folderPath language st).1
  = Returned (path_join w folderPath <$> (reelName language <$> merge_sort N.le ns)).
Proof.
  intros _ Hfolder Hlisting Hreels Hns.
  unfold getAllVideos. run. rewrite (bool_decide_eq_true_2 _ Hfolder), Hlisting.
  cbn [fst]. f_equal. f_equal.
  assert (Hsorted : Forall (fun n => (n < 2 ^ 53)%N) (merge_sort N.le ns)).
  { rewrite merge_sort_Permutation. exact Hns. }
  apply (StronglySorted_unique_strong
           (fun a b => numLe (reelNumber language a) (reelNumber language b))).
  - intros a b Ha Hb Hab Hba.
    rewrite (Array_sort_perm (reelNumber language)), Hreels in Ha.
    apply list_elem_of_fmap in Ha as (n & -> & Hn). apply list_elem_of_fmap in Hb as (m & -> & Hm).
    rewrite Forall_forall in Hns, Hsorted.
    destruct (reelName_number language n (Hns n Hn)) as [_ Hnum].
    destruct (reelName_number language m (Hsorted m Hm)) as [_ Hnum'].
    rewrite Hnum, Hnum' in Hab, Hba. simpl in Hab, Hba.
    assert (n = m) by lia. subst m. reflexivity.
  - apply (Array_sort_sorted (reelNumber language)).
  - pose proof (StronglySorted_merge_sort N.le ns) as Hss.
    induction Hss as [|n l Hss IH Hall]; [constructor|].
    apply Forall_cons in Hsorted as [Hn Hl]. cbn [fmap list_fmap]. constructor; [exact (IH Hl)|].
    apply Forall_fmap, Forall_forall. intros m Hm. cbn [compose].
    rewrite Forall_forall in Hall, Hl.
    destruct (reelName_number language n Hn) as [_ ->].
    destruct (reelName_number language m (Hl m Hm)) as [_ ->].
    exact (Hall m Hm).
  - rewrite (Array_sort_perm (reelNumber language)), Hreels, merge_sort_Permutation. reflexivity.
Qed.

End Numeric.

(** ** Edge cases *)

Section Edges.
Context (w : World).

(** X16: whatever surrounds it, the object is what is left: for a text
    whose first opening brace comes before its last closing brace,
    [cleanGeminiJSON] returns exactly the part from the one to the other,
    and cleaning the result again changes nothing. *)
Theorem cleanGeminiJSON_extracts (a b c : jsstring) :
  123%N ∉ a -> 125%N ∉ c ->
  let object := [123%N] ++ b ++ [125%N] in
  cleanGeminiJSON (a ++ object ++ c) = object
  ∧ cleanGeminiJSON (cleanGeminiJSON (a ++ object ++ c)) = cleanGeminiJSON (a ++ object ++ c).
Proof.
  intros Ha Hc object.
  assert (Hcut : ∀ a c, 123%N ∉ a -> 125%N ∉ c ->
                        cleanGeminiJSON (a ++ object ++ c) = object).
  { clear a c Ha Hc. intros a c Ha Hc. subst object.
    replace (a ++ ([123%N] ++ b ++ [125%N]) ++ c) with (a ++ [123%N] ++ b ++ [125%N] ++ c)
      by (rewrite <- !app_assoc; reflexivity).
    rewrite cleanGeminiJSON_braceSpan.
    - rewrite (braceSpan_ordered a b c Ha Hc). apply (trim_fixed 123 125 b); reflexivity.
    - apply elem_of_app. right. left.
    - apply elem_of_app. right. right. apply elem_of_app. right. left. }
  split; [apply Hcut; assumption|].
  rewrite (Hcut a c Ha Hc).
  specialize (Hcut [] []). rewrite app_nil_r in Hcut. apply Hcut; apply not_elem_of_nil.
Qed.

Lemma trim_whiteSpace (s : jsstring) : Forall (fun c => isWhiteSpace c = true) s -> trim s = [].
Proof.
  intros H. unfold trim, trimStart.
  replace (drop_while isWhiteSpace s) with (@nil N); [reflexivity|].
  induction H as [|c s Hc _ IH]; [reflexivity|]. simpl. rewrite Hc. exact IH.
Qed.

(** X17: a response without text, or whose text is empty or blank, is not
    taken for invalid JSON: it stands for the empty object, and the
    attempt fails with the error of a digest without news. *)
Theorem tryModel_blank_response (date modelName : jsstring) (st : State)
    (res : option jsstring) :
  generateContent w st modelName date = Returned res ->
  (∀ text, res = Some text -> Forall (fun c => isWhiteSpace c = true) text) ->
  tryModel w date modelName st
  = (Thrown (Error (js "Empty news arrays")), record (GenerateContent modelName date) st).
Proof.
  intros Hres Hblank. unfold tryModel. run. rewrite Hres.
  assert (Htext : responseText res = []).
  { destruct res as [text|]; [|reflexivity]. apply trim_whiteSpace. apply Hblank. reflexivity. }
  rewrite Htext. reflexivity.
Qed.

Lemma hexDigit_unreserved (d : N) : (d < 16)%N -> uriUnreserved (hexDigit d) = true.
Proof.
  intros Hd.
  assert (H : d ∈ [0; 1; 2; 3; 4; 5; 6; 7; 8; 9; 10; 11; 12; 13; 14; 15]%N).
  { apply list_elem_of_In. simpl. lia. }
  repeat (apply elem_of_cons in H as [->|H]; [reflexivity|]). inversion H.
Qed.

Lemma percent_escaped (octet : N) : (octet < 256)%N -> Forall escaped (percent octet).
Proof.
  intros H. unfold percent. constructor; [right; reflexivity|].
  constructor; [left; apply hexDigit_unreserved, N.Div0.div_lt_upper_bound; lia|].
  constructor; [|constructor]. left. apply hexDigit_unreserved, N.mod_lt. discriminate.
Qed.

Lemma utf8_octets (cp : N) : (cp < 1114112)%N -> Forall (fun octet => (octet < 256)%N) (utf8 cp).
Proof.
  intros Hcp. unfold utf8.
  assert (Hmod : ∀ x, (128 + x mod 64 < 256)%N).
  { intros x. pose proof (N.mod_lt x 64). lia. }
  destruct (cp <? 128)%N eqn:H1; [apply N.ltb_lt in H1; repeat constructor; lia|].
  destruct (cp <? 2048)%N eqn:H2.
  { apply N.ltb_lt in H2. repeat constructor; [|apply Hmod].
    assert (cp / 64 < 32)%N by (apply N.Div0.div_lt_upper_bound; lia). lia. }
  destruct (cp <? 65536)%N eqn:H3.
  { apply N.ltb_lt in H3. repeat constructor; try apply Hmod.
    assert (cp / 4096 < 16)%N by (apply N.Div0.div_lt_upper_bound; lia). lia. }
  repeat constructor; try apply Hmod.
  assert (cp / 262144 < 5)%N by (apply N.Div0.div_lt_upper_bound; lia). lia.
Qed.

Lemma escapes_escaped (cp : N) :
  (cp < 1114112)%N -> Forall escaped (concat (percent <$> utf8 cp)).
Proof.
  intros Hcp. apply Forall_concat, Forall_fmap.
  eapply Forall_impl; [apply utf8_octets; exact Hcp|]. intros octet. apply percent_escaped.
Qed.

Lemma encodeURIComponent_escaped_bounded (n : nat) (s q : jsstring) :
  length s <= n ->
  Forall (fun c => (c < 65536)%N) s ->
  encodeURIComponent s = Some q -> Forall escaped q.
Proof.
  revert s q. induction n as [|n IH]; intros s q Hlen Hs.
  { destruct s; [|simpl in Hlen; lia]. intros [= <-]. constructor. }
  destruct s as [|c rest]; [intros [= <-]; constructor|].
  apply Forall_cons in Hs as [Hc Hrest]. simpl in Hlen. cbn [encodeURIComponent].
  destruct (uriUnreserved c) eqn:Hu.
  { destruct (encodeURIComponent rest) as [q'|] eqn:Hq; [|discriminate]. intros [= <-].
    constructor; [left; exact Hu|]. apply (IH rest); [lia | exact Hrest | exact Hq]. }
  destruct (isLowSurrogate c) eqn:Hlow; [discriminate|].
  destruct (isHighSurrogate c) eqn:Hhigh.
  - destruct rest as [|d rest']; [discriminate|].
    destruct (isLowSurrogate d) eqn:Hd; [|discriminate].
    apply Forall_cons in Hrest as [_ Hrest']. simpl in Hlen.
    destruct (encodeURIComponent rest') as [q'|] eqn:Hq; [|discriminate]. intros [= <-].
    apply Forall_app. split; [|apply (IH rest'); [lia | exact Hrest' | exact Hq]].
    apply escapes_escaped.
    unfold isHighSurrogate in Hhigh. unfold isLowSurrogate in Hd.
    apply andb_prop in Hhigh as [H1 H2]. apply andb_prop in Hd as [H3 H4].
    apply N.leb_le in H1, H2, H3, H4. lia.
  - destruct (encodeURIComponent rest) as [q'|] eqn:Hq; [|discriminate]. intros [= <-].
    apply Forall_app. split; [|apply (IH rest); [lia | exact Hrest | exact Hq]].
    apply escapes_escaped. lia.
Qed.

Lemma encodeURIComponent_escaped (s q : jsstring) :
  Forall (fun c => (c < 65536)%N) s -> encodeURIComponent s = Some q -> Forall escaped q.
Proof. apply (encodeURIComponent_escaped_bounded (length s)). reflexivity. Qed.

(** X18: the text put into a request address cannot alter the address:
    whatever the headline or the description (a sequence of 16-bit code
    units), what follows p= in the search address, and what stands
    between input= and the prompt in the narration address, consists of
    unreserved characters and percent signs only, so that it holds no
    ampersand, equals sign, question mark, hash, slash or space. *)
Theorem request_urls_escaped (text : jsstring) :
  Forall (fun c => (c < 65536)%N) text ->
  (∀ url, searchURL text = Some url ->
     ∃ q, url = js "https://in.images.search.yahoo.com/search/images?p=" ++ q
          ∧ Forall escaped q)
  ∧ (∀ url, ttsURL text = Some url ->
       ∃ input prompt,
         url = js "https://www.openai.fm/api/generate?input=" ++ input
               ++ js "&prompt=" ++ prompt ++ js "&voice=" ++ voice
               ++ js "&generation=67612c8-4975-452f-af3f-d44cca8915e5"
         ∧ Forall escaped input
         ∧ Forall escaped prompt).
Proof.
  intros Htext. split; intros url.
  - unfold searchURL. destruct (encodeURIComponent text) as [q|] eqn:Hq; [|discriminate].
    intros [= <-]. exists q. split; [reflexivity|].
    exact (encodeURIComponent_escaped text q Htext Hq).
  - unfold ttsURL. destruct (encodeURIComponent text) as [input|] eqn:Hq; [|discriminate].
    cbn [mbind option_bind].
    destruct (encodeURIComponent (stringify vibe)) as [prompt|] eqn:Hp; [|discriminate].
    intros [= <-]. exists input, prompt. split; [reflexivity|].
    split; [exact (encodeURIComponent_escaped text input Htext Hq)|].
    apply (encodeURIComponent_escaped (stringify vibe)); [|exact Hp]. by_compute.
Qed.

(** X19: [getOutputDirForDate] creates the folder only when it is missing:
    if the folder is there, nothing changes. When it returns, the folder
    exists, and a second call returns the same path without creating
    anything, even if creating would fail. *)
Theorem getOutputDirForDate_idempotent (mkdirSync : State -> jsstring -> outcome unit)
    (date dir : jsstring) (st st1 : State) :
  getOutputDirForDate w mkdirSync date st = (Returned dir, st1) ->
  dir = path_join w (path_join w (cwd w) (js "output")) date
  ∧ (dir ∈ files st -> st1 = st)
  ∧ dir ∈ files st1
  ∧ trace st1 = trace st
  ∧ ∀ mkdirSync', getOutputDirForDate w mkdirSync' date st1 = (Returned dir, st1).
Proof.
  unfold getOutputDirForDate, mkdir. run.
  set (d := path_join w (path_join w (cwd w) (js "output")) date).
  destruct (bool_decide (d ∈ files st)) eqn:Hfound.
  - intros [= <- <-]. apply bool_decide_eq_true in Hfound as Hin.
    repeat split; try assumption. intros mk. rewrite Hfound. reflexivity.
  - destruct (mkdirSync st d) as [[]|e]; [|discriminate]. intros [= <- <-].
    assert (Hin : d ∈ files (create d st)).
    { cbn [create files]. apply elem_of_union. left. apply elem_of_singleton. reflexivity. }
    apply bool_decide_eq_false in Hfound.
    split; [reflexivity|]. split; [intros Hd; contradiction|].
    repeat split; try assumption. intros mk.
    rewrite (bool_decide_eq_true_2 _ Hin). reflexivity.
Qed.

End Edges.

Section Nothing.
Context (w : World).

Lemma filter_none {A} (f : A -> bool) (l : list A) :
  Forall (fun x => f x = false) l -> List.filter f l = [].
Proof. induction 1 as [|x l Hx _ IH]; [reflexivity|]. cbn [List.filter]. rewrite Hx. exact IH. Qed.

(** X20: when neither the intro, nor the outro, nor any reel of the
    language is on disk, the callback of that language throws its own
    error before any stream check or ffmpeg command. *)
Theorem mergeLanguage_nothing_to_merge (outputDir lang : jsstring) (st : State) :
  intro w ∉ files st -> outro w ∉ files st ->
  (outputDir ∈ files st ->
   ∃ listing,
     readdirSync w st outputDir = Returned listing
     ∧ Forall (fun file => isReel lang file = true -> path_join w outputDir file ∉ files st)
              listing) ->
  mergeLanguage w outputDir lang st
  = (Thrown (Error (js "No videos to merge - aborting.")), st).
Proof.
  intros Hintro Houtro Hreels.
  assert (Hnone : ∀ videos, Forall (fun p => p ∉ files st) videos ->
            List.filter (fun p => bool_decide (p ∈ files st)) ([intro w] ++ videos ++ [outro w])
            = []).
  { intros videos Hv. apply filter_none. apply Forall_app. split; [|apply Forall_app; split].
    - constructor; [apply bool_decide_eq_false_2; exact Hintro | constructor].
    - eapply Forall_impl; [exact Hv|]. intros p Hp. apply bool_decide_eq_false_2. exact Hp.
    - constructor; [apply bool_decide_eq_false_2; exact Houtro | constructor]. }
  unfold mergeLanguage, allVideos, getAllVideos. unfold mbind, M_bind, existsSync, read, mret, M_ret.
  destruct (bool_decide (outputDir ∈ files st)) eqn:Hfound.
  - apply bool_decide_eq_true in Hfound. destruct (Hreels Hfound) as (listing & -> & Habsent).
    rewrite Hnone; [reflexivity|].
    apply Forall_fmap, Forall_forall. intros file Hfile.
    rewrite (Array_sort_perm (reelNumber lang)) in Hfile.
    apply list_elem_of_In, List.filter_In in Hfile as [Hfile Hreel].
    rewrite Forall_forall in Habsent. apply Habsent; [apply list_elem_of_In; exact Hfile | exact Hreel].
  - rewrite (Hnone []); [reflexivity | constructor].
Qed.

End Nothing.

(** ** Instances *)

Lemma cleanGeminiJSON_extracts_witness :
  let object := [123%N] ++ js " x: [1, {}] " ++ [125%N] in
  cleanGeminiJSON (js "Here is the digest: " ++ object ++ js " Anything else?") = object
  ∧ cleanGeminiJSON (cleanGeminiJSON (js "Here is the digest: " ++ object ++ js " Anything else?"))
    = cleanGeminiJSON (js "Here is the digest: " ++ object ++ js " Anything else?").
Proof.
  apply (cleanGeminiJSON_extracts (js "Here is the digest: ") (js " x: [1, {}] ")
           (js " Anything else?")); by_compute.
Defined.

Lemma tryModel_blank_response_witness :
  tryModel Scenario.blank Sample.date (js "gemini-1.5-flash") Sample.fresh
  = (Thrown (Error (js "Empty news arrays")),
     record (GenerateContent (js "gemini-1.5-flash") Sample.date) Sample.fresh).
Proof.
  apply (tryModel_blank_response Scenario.blank Sample.date (js "gemini-1.5-flash") Sample.fresh
           (Some (js "  " ++ [10%N]))); [reflexivity|].
  intros text [= <-]. repeat constructor.
Defined.

Lemma reel_name_roundtrip_witness :
  matchReel (js "english") (js "reel_english12.mp4") = Some (js "12")
  ∧ isReel (js "english") (js "reel_english12.mp4") = true
  ∧ reelNumber (js "english") (js "reel_english12.mp4") = Finite 12.
Proof.
  apply (reel_name_roundtrip (js "english") 12); [by_compute | reflexivity].
Defined.

Lemma reel_of_one_language_witness :
  isReel (js "hindi") (js "reel_gujarati1.mp4") = false.
Proof.
  apply (reel_of_one_language (js "gujarati") (js "hindi") (js "reel_gujarati1.mp4"));
    [by_compute | by_compute | by_compute | reflexivity].
Defined.

Lemma getAllVideos_listing_order_witness :
  (getAllVideos Scenario.shuffled Sample.outputDir (js "english") Sample.assembled).1
  = (getAllVideos Scenario.shuffled Sample.outputDir (js "english")
       (record (Console NoNews) Sample.assembled)).1.
Proof.
  apply (getAllVideos_listing_order Scenario.shuffled Sample.outputDir (js "english")
           Sample.assembled (record (Console NoNews) Sample.assembled)
           Sample.listing (reverse Sample.listing));
    [by_compute | by_compute | reflexivity | reflexivity
    | symmetry; apply reverse_Permutation |].
  intros a b Ha Hb Hra Hrb Hnum.
  repeat (apply elem_of_cons in Ha as [->|Ha]); [| | | | | |inversion Ha];
    (repeat (apply elem_of_cons in Hb as [->|Hb]); [| | | | | |inversion Hb]);
    try reflexivity; try (vm_compute in Hra; discriminate Hra);
    try (vm_compute in Hrb; discriminate Hrb); vm_compute in Hnum; discriminate Hnum.
Defined.

Lemma mergeVideos_unreadable_clip_witness :
  let videoFiles := [js "Reel_1.mp4"; js "reel_english2.mp4"; js "Reel_5.mp4"] in
  ∃ e st',
    mergeVideos Scenario.corrupt videoFiles (js "final_english_video.mp4") Sample.fresh
    = (Thrown e, st')
    ∧ trace st' = trace Sample.fresh ++ (ExecProbe <$> videoFiles)
    ∧ files st' = files Sample.fresh.
Proof.
  intros videoFiles.
  apply (mergeVideos_unreadable_clip Scenario.corrupt videoFiles (js "final_english_video.mp4")
           (js "reel_english2.mp4") (External (js "request failed")) Sample.fresh);
    [by_compute | intros s; reflexivity].
Defined.

Lemma request_urls_escaped_witness :
  (∀ url, searchURL (js "Rain & floods?") = Some url ->
     ∃ q, url = js "https://in.images.search.yahoo.com/search/images?p=" ++ q
          ∧ Forall escaped q)
  ∧ (∀ url, ttsURL (js "Rain & floods?") = Some url ->
       ∃ input prompt,
         url = js "https://www.openai.fm/api/generate?input=" ++ input
               ++ js "&prompt=" ++ prompt ++ js "&voice=" ++ voice
               ++ js "&generation=67612c8-4975-452f-af3f-d44cca8915e5"
         ∧ Forall escaped input
         ∧ Forall escaped prompt).
Proof.
  apply (request_urls_escaped (js "Rain & floods?")). by_compute.
Defined.

Lemma getOutputDirForDate_idempotent_witness :
  let dir := js "/app/output/2025-01-01" in
  dir = path_join Sample.world (path_join Sample.world (cwd Sample.world) (js "output"))
          Sample.date
  ∧ (dir ∈ files Scenario.empty -> create dir Scenario.empty = Scenario.empty)
  ∧ dir ∈ files (create dir Scenario.empty)
  ∧ trace (create dir Scenario.empty) = trace Scenario.empty
  ∧ ∀ mkdirSync',
      getOutputDirForDate Sample.world mkdirSync' Sample.date (create dir Scenario.empty)
      = (Returned dir, create dir Scenario.empty).
Proof.
  intros dir.
  apply (getOutputDirForDate_idempotent Sample.world Scenario.writable Sample.date dir
           Scenario.empty (create dir Scenario.empty)).
  reflexivity.
Defined.

Lemma mergeLanguage_nothing_to_merge_witness :
  mergeLanguage Sample.world Sample.outputDir (js "english") Sample.fresh
  = (Thrown (Error (js "No videos to merge - aborting.")), Sample.fresh).
Proof.
  apply (mergeLanguage_nothing_to_merge Sample.world Sample.outputDir (js "english")
           Sample.fresh); [by_compute | by_compute |].
  intros _. exists Sample.listing. split; [reflexivity | by_compute].
Defined.

Lemma prepareText_short_witness :
  prepareText (js " Monsoon arrives ") 40 = trim (js " Monsoon arrives ").
Proof. apply (prepareText_short (js " Monsoon arrives ") 40). by_compute. Defined.

Lemma getAllVideos_numeric_order_witness :
  (getAllVideos Scenario.numbered Sample.outputDir (js "english") Sample.assembled).1
  = Returned [ js "/app/output/2025-01-01/reel_english1.mp4";
               js "/app/output/2025-01-01/reel_english2.mp4";
               js "/app/output/2025-01-01/reel_english10.mp4" ].
Proof.
  apply (getAllVideos_numeric_order Scenario.numbered Sample.outputDir (js "english")
           Sample.assembled
           [ js "reel_english10.mp4"; js "audio_1_english.mp3"; js "reel_english2.mp4";
             js "reel_hindi3.mp4"; js "reel_english1.mp4" ]
           [10; 2; 1]%N);
    [by_compute | by_compute | reflexivity | vm_compute; reflexivity | by_compute].
Defined.


(** A title that is a number stops the whole loop: the narration of the
    item is requested and saved, and [generateTTS] rejects before any
    other call, the item that follows left alone. *)
Example generateTTS_numeric_title :
  let item := {| Item.id := 0; Item.language := js "english";
                 Item.title := Field.Other true (js "42");
                 Item.description := Field.Str (js "Rain reached the coast.");
                 Item.india := true |} in
  (generateTTS Sample.world [item; Sample.item] Sample.outputDir Sample.fresh).1
  = Thrown (TypeError (js "text.split is not a function"))
  ∧ ∃ url,
      trace (generateTTS Sample.world [item; Sample.item] Sample.outputDir Sample.fresh).2
      = [Get url (Some 60000%N); WriteFile (js "/app/output/2025-01-01/audio_1_english.mp3")].
Proof. split; [vm_compute; reflexivity | eexists; vm_compute; reflexivity]. Qed.
